(** * Verification of [turtle_maze.py] and [colorful_fractal.py]

    A shallow embedding of [MazeGenerator] (construction, the iterative
    depth-first carving [_carve_passage], the double breadth-first search
    [_longest_path_endpoints], [generate] and the drawing code [draw]) and of
    the fractal functions of [colorful_fractal.py], together with the
    properties of the resulting mazes and drawings.

    Conventions of the embedding:
    - Python [int] is [Z]; Python [float] values are the rationals they
      denote ([Q]), without overflow; the rounded float operations are
      parameters of the sections that use them ([fmul] for the product
      [len(neighbours) * self.complexity] of the core, [fdiv], [fadd],
      [fsub] and [fpow] for the coordinates of the drawing code), and so is
      the library function [colorsys.hsv_to_rgb].
    - The module-level generator of [random] is an explicit state threaded
      through every call ([RandomSource]).
    - A raised exception, and a loop that exhausts the iteration budget of
      the model, are constructors of [result]; the drawing code has its own
      result type [run], with the exceptions it adds and a budget of nested
      calls for the recursive functions.
    - A turtle is the list of the calls it has received.
    - Python lists are Rocq lists indexed the way Python indexes them
      (negative indices count from the end, anything else out of range
      raises [IndexError]).  The explicit stack of the carving loop keeps its
      top ([stack[-1]]) at the head of the Rocq list; the [deque] of the
      search keeps its front at the head. *)

From Stdlib Require Import ZArith QArith Lia String.
From stdpp Require Import base list gmap.

Local Open Scope Z_scope.

(** ** Exceptions and results *)

Inductive exn :=
  | IndexError
  | ValueError (msg : string).

Inductive result (A : Type) :=
  | Ok (a : A)
  | Raise (e : exn)
  | OutOfFuel.
Arguments Ok {A} a.
Arguments Raise {A} e.
Arguments OutOfFuel {A}.

#[global] Instance result_ret : MRet result := fun A a => Ok a.
#[global] Instance result_bind : MBind result := fun A B f m =>
  match m with
  | Ok a => f a
  | Raise e => Raise e
  | OutOfFuel => OutOfFuel
  end.

Lemma bind_Ok {A B} (a : A) (f : A → result B) : (Ok a ≫= f) = f a.
Proof. reflexivity. Qed.

(** ** Python list indexing *)

(** The position a Python index denotes in a list of length [len], if any. *)
Definition py_index (len : nat) (i : Z) : option nat :=
  if 0 <=? i then
    if i <? Z.of_nat len then Some (Z.to_nat i) else None
  else
    if - Z.of_nat len <=? i then Some (Z.to_nat (Z.of_nat len + i)) else None.

(** [l[i]] *)
Definition getitem {A} (l : list A) (i : Z) : result A :=
  match py_index (length l) i with
  | Some k => match l !! k with Some x => Ok x | None => Raise IndexError end
  | None => Raise IndexError
  end.

(** [l[i] = x] *)
Definition setitem {A} (l : list A) (i : Z) (x : A) : result (list A) :=
  match py_index (length l) i with
  | Some k => Ok (<[k:=x]> l)
  | None => Raise IndexError
  end.

(** [m[r][c]] *)
Definition getitem2 {A} (m : list (list A)) (r c : Z) : result A :=
  row ← getitem m r; getitem row c.

(** [m[r][c] = x]; the rows of every matrix of the program are distinct list
    objects (they are built by list comprehensions), so the assignment
    changes one row only. *)
Definition setitem2 {A} (m : list (list A)) (r c : Z) (x : A)
  : result (list (list A)) :=
  row ← getitem m r; row' ← setitem row c x; setitem m r row'.

(** [l[:k]] *)
Definition slice_to {A} (l : list A) (k : Z) : list A :=
  let k' := if k <? 0 then Z.max 0 (Z.of_nat (length l) + k) else k in
  take (Z.to_nat k') l.

(** [int(x)] of a float: truncation toward zero. *)
Definition int_of_float (x : Q) : Z := Z.quot (Qnum x) (Zpos (Qden x)).

(** ** Wall identifiers *)

Module Dir.
Inductive t := N | S | E | W.
End Dir.

#[global] Instance Dir_eq_dec : EqDecision Dir.t.
Proof. solve_decision. Defined.

Definition OPPOSITE (d : Dir.t) : Dir.t :=
  match d with
  | Dir.N => Dir.S
  | Dir.S => Dir.N
  | Dir.E => Dir.W
  | Dir.W => Dir.E
  end.

(** [DIR_VEC], in the insertion order in which [DIR_VEC.items()] yields it. *)
Definition DIR_VEC_items : list (Dir.t * (Z * Z)) :=
  [(Dir.N, (-1, 0)); (Dir.S, (1, 0)); (Dir.E, (0, 1)); (Dir.W, (0, -1))].

Definition DIR_VEC (d : Dir.t) : Z * Z :=
  match d with
  | Dir.N => (-1, 0)
  | Dir.S => (1, 0)
  | Dir.E => (0, 1)
  | Dir.W => (0, -1)
  end.

(** ** Cells and the generator object *)

(** The dictionary [{N: .., S: .., E: .., W: ..}] of one cell; [true] means
    the wall is present. *)
Record Cell := mkCell { wall_N : bool; wall_S : bool; wall_E : bool; wall_W : bool }.

(** [cell[d]] *)
Definition cell_get (cl : Cell) (d : Dir.t) : bool :=
  match d with
  | Dir.N => wall_N cl
  | Dir.S => wall_S cl
  | Dir.E => wall_E cl
  | Dir.W => wall_W cl
  end.

(** [cell[d] = b] *)
Definition cell_set (cl : Cell) (d : Dir.t) (b : bool) : Cell :=
  match d with
  | Dir.N => mkCell b (wall_S cl) (wall_E cl) (wall_W cl)
  | Dir.S => mkCell (wall_N cl) b (wall_E cl) (wall_W cl)
  | Dir.E => mkCell (wall_N cl) (wall_S cl) b (wall_W cl)
  | Dir.W => mkCell (wall_N cl) (wall_S cl) (wall_E cl) b
  end.

Definition Grid := list (list Cell).

Record MazeGenerator := mkMaze {
  rows : Z;
  cols : Z;
  cell_size : Z;
  complexity : Q;
  difficulty : Q;
  grid : Grid;
  start : option (Z * Z);
  end_ : option (Z * Z)
}.

Definition set_grid (self : MazeGenerator) (g : Grid) : MazeGenerator :=
  mkMaze (rows self) (cols self) (cell_size self) (complexity self)
         (difficulty self) g (start self) (end_ self).

Definition set_endpoints (self : MazeGenerator) (a b : Z * Z) : MazeGenerator :=
  mkMaze (rows self) (cols self) (cell_size self) (complexity self)
         (difficulty self) (grid self) (Some a) (Some b).

(** [MazeGenerator.__init__]: the three checks come before any attribute is
    assigned. *)
Definition __init__ (rows cols cell_size : Z) (complexity difficulty : Q)
  : result MazeGenerator :=
  if (rows <? 2) || (cols <? 2) then
    Raise (ValueError "Maze must have at least 2×2 cells")
  else if negb (Qle_bool 0 complexity && Qle_bool complexity 1) then
    Raise (ValueError "complexity must be between 0 and 1")
  else if negb (Qle_bool 0 difficulty && Qle_bool difficulty 1) then
    Raise (ValueError "difficulty must be between 0 and 1")
  else
    Ok (mkMaze rows cols cell_size complexity difficulty
          (replicate (Z.to_nat rows)
             (replicate (Z.to_nat cols) (mkCell true true true true)))
          None None).

(** ** The random module *)

(** The generator behind [random]: [randbelow n] is [Random._randbelow(n)],
    an integer of [range(n)], and [random] is [random.random()], a float of
    the half-open interval from 0 to 1. *)
Class RandomSource (G : Type) := {
  randbelow : Z → G → Z * G;
  random : G → Q * G;
  randbelow_range : ∀ n g, 0 < n → 0 ≤ (randbelow n g).1 < n;
  random_range : ∀ g, (0 <= (random g).1)%Q ∧ ((random g).1 < 1)%Q
}.

(** A small linear congruential generator, used to run the model. *)
Definition lcg_next (s : Z) : Z := (s * 1103515245 + 12345) mod 2147483648.

#[global] Program Instance lcg_source : RandomSource Z := {|
  randbelow n s := (lcg_next s mod n, lcg_next s);
  random s := (lcg_next s # 2147483648, lcg_next s)
|}.
Next Obligation. intros n s Hn. simpl. apply Z.mod_pos_bound. lia. Qed.
Next Obligation.
  intros s. simpl. unfold Qle, Qlt. simpl.
  pose proof (Z.mod_pos_bound (s * 1103515245 + 12345) 2147483648).
  unfold lcg_next. lia.
Qed.

(** ** The double breadth-first search *)

(** The variables of the loop of [bfs] (the function local to
    [_longest_path_endpoints]). *)
Record bfs_state := mkBfs {
  b_dist : list (list Z);
  b_q : list (Z * Z);
  b_parent : gmap (Z * Z) (Z * Z);
  b_farthest : Z * Z
}.

(** One pass of [for direction, (dr, dc) in DIR_VEC.items()] while [(r, c)]
    is being expanded. *)
Definition bfs_visit (gr : Grid) (r c : Z)
    (acc : result (list (list Z) * gmap (Z * Z) (Z * Z) * list (Z * Z)))
    (item : Dir.t * (Z * Z))
  : result (list (list Z) * gmap (Z * Z) (Z * Z) * list (Z * Z)) :=
  '(dist, parent, q) ← acc;
  let '(direction, (dr, dc)) := item in
  cl ← getitem2 gr r c;
  if cell_get cl direction then Ok (dist, parent, q)
  else
    let nr := r + dr in
    let nc := c + dc in
    dn ← getitem2 dist nr nc;
    if dn =? -1 then
      d ← getitem2 dist r c;
      dist' ← setitem2 dist nr nc (d + 1);
      Ok (dist', <[(nr, nc) := (r, c)]> parent, q ++ [(nr, nc)])
    else Ok (dist, parent, q).

(** The body of [while q:], for a queue whose front is [(r, c)];
    [max(farthest, (r, c), key=...)] keeps [farthest] unless [(r, c)] is
    strictly farther. *)
Definition bfs_body (gr : Grid) (st : bfs_state) (r c : Z) (rest : list (Z * Z))
  : result bfs_state :=
  kf ← getitem2 (b_dist st) (b_farthest st).1 (b_farthest st).2;
  kc ← getitem2 (b_dist st) r c;
  let farthest := if kf <? kc then (r, c) else b_farthest st in
  '(dist, parent, q) ←
    foldl (bfs_visit gr r c) (Ok (b_dist st, b_parent st, rest)) DIR_VEC_items;
  Ok (mkBfs dist q parent farthest).

Fixpoint bfs_loop (fuel : nat) (gr : Grid) (st : bfs_state) : result bfs_state :=
  match b_q st with
  | [] => Ok st
  | (r, c) :: rest =>
      match fuel with
      | O => OutOfFuel
      | Datatypes.S fuel' => st' ← bfs_body gr st r c rest; bfs_loop fuel' gr st'
      end
  end.

(** The loop state after [n] iterations of [while q:], or the state in which
    the loop exits if that happens earlier. *)
Fixpoint bfs_run (n : nat) (gr : Grid) (st : bfs_state) : result bfs_state :=
  match n with
  | O => Ok st
  | Datatypes.S n' =>
      match b_q st with
      | [] => Ok st
      | (r, c) :: rest => st' ← bfs_body gr st r c rest; bfs_run n' gr st'
      end
  end.

(** The state in which [bfs(start)] enters its loop. *)
Definition bfs_init (self : MazeGenerator) (start : Z * Z) : result bfs_state :=
  let '(sr, sc) := start in
  let dist :=
    replicate (Z.to_nat (rows self)) (replicate (Z.to_nat (cols self)) (-1)) in
  dist' ← setitem2 dist sr sc 0;
  Ok (mkBfs dist' [start] ∅ start).

Definition bfs (fuel : nat) (self : MazeGenerator) (start : Z * Z)
  : result (Z * Z * list (list Z) * gmap (Z * Z) (Z * Z)) :=
  st0 ← bfs_init self start;
  st ← bfs_loop fuel (grid self) st0;
  Ok (b_farthest st, b_dist st, b_parent st).

(** [MazeGenerator._longest_path_endpoints] *)
Definition _longest_path_endpoints (fuel : nat) (self : MazeGenerator)
  : result ((Z * Z) * (Z * Z)) :=
  '(end_a, _, _) ← bfs fuel self (0, 0);
  '(end_b, _, _) ← bfs fuel self end_a;
  Ok (end_a, end_b).

(** The float literals [0.1] and [0.5] of [generate]: the doubles they
    denote. *)
Definition float_0_1 : Q := 3602879701896397 # 36028797018963968.
Definition float_0_5 : Q := 1 # 2.

Section Generator.
Context {G : Type} `{RandomSource G}.

(** Float multiplication, as rounded by the platform. *)
Variable fmul : Q → Q → Q.

(** [random.randrange(n)] *)
Definition randrange (n : Z) (g : G) : result (Z * G) :=
  if 0 <? n then Ok (randbelow n g)
  else Raise (ValueError "empty range for randrange()").

(** [random.choice(seq)] *)
Definition choice {A} (seq : list A) (g : G) : result (A * G) :=
  match seq with
  | [] => Raise IndexError
  | _ =>
      let '(i, g') := randbelow (Z.of_nat (length seq)) g in
      x ← getitem seq i; Ok (x, g')
  end.

(** The loop of [random.shuffle(x)]:
    [for i in reversed(range(1, len(x))): j = randbelow(i + 1);
     x[i], x[j] = x[j], x[i]], entered at index [i]. *)
Fixpoint shuffle_loop {A} (i : nat) (x : list A) (g : G) : result (list A * G) :=
  match i with
  | O => Ok (x, g)
  | Datatypes.S i' =>
      let '(j, g') := randbelow (Z.of_nat i + 1) g in
      xj ← getitem x j;
      xi ← getitem x (Z.of_nat i);
      x1 ← setitem x (Z.of_nat i) xj;
      x2 ← setitem x1 j xi;
      shuffle_loop i' x2 g'
  end.

(** [random.shuffle(x)]: the list after the in-place shuffle. *)
Definition shuffle {A} (x : list A) (g : G) : result (list A * G) :=
  shuffle_loop (length x - 1)%nat x g.

(** An entry [(nr, nc, dir_from_current, dir_from_neighbour)]. *)
Definition Neighbour : Type := Z * Z * Dir.t * Dir.t.

(** One pass of the [for] loop of [_unvisited_neighbours]. *)
Definition neighbour_step (self : MazeGenerator) (r c : Z)
    (visited : list (list bool)) (acc : result (list Neighbour))
    (item : Dir.t * (Z * Z)) : result (list Neighbour) :=
  neighbours ← acc;
  let '(direction, (dr, dc)) := item in
  let nr := r + dr in
  let nc := c + dc in
  if (0 <=? nr) && (nr <? rows self) && (0 <=? nc) && (nc <? cols self) then
    v ← getitem2 visited nr nc;
    if negb v then Ok (neighbours ++ [(nr, nc, direction, OPPOSITE direction)])
    else Ok neighbours
  else Ok neighbours.

(** [MazeGenerator._unvisited_neighbours]: [random.shuffle] is applied to
    the slice [neighbours[:shuffle_portion]], a fresh list, and
    [neighbours] itself is returned. *)
Definition _unvisited_neighbours (self : MazeGenerator) (r c : Z)
    (visited : list (list bool)) (g : G) : result (list Neighbour * G) :=
  neighbours ← foldl (neighbour_step self r c visited) (Ok []) DIR_VEC_items;
  let shuffle_portion :=
    int_of_float (fmul (inject_Z (Z.of_nat (length neighbours))) (complexity self)) in
  '(_, g') ← shuffle (slice_to neighbours shuffle_portion) g;
  Ok (neighbours, g').

(** [grid[r][c][d] = False] *)
Definition knock_down (gr : Grid) (r c : Z) (d : Dir.t) : result Grid :=
  row ← getitem gr r;
  cl ← getitem row c;
  row' ← setitem row c (cell_set cl d false);
  setitem gr r row'.

(** The variables of the loop of [_carve_passage]. *)
Record carve_state := mkCarve {
  c_grid : Grid;
  c_visited : list (list bool);
  c_stack : list (Z * Z);
  c_rng : G
}.

(** The body of [while stack:], for a stack whose top is [(r, c)]. *)
Definition carve_body (self : MazeGenerator) (st : carve_state)
    (r c : Z) (below : list (Z * Z)) : result carve_state :=
  '(neighbours, g1) ← _unvisited_neighbours self r c (c_visited st) (c_rng st);
  match neighbours with
  | first :: _ =>
      let '(x, g2) := random g1 in
      '((nr, nc, here_dir, there_dir), g3) ←
        (if Qlt_le_dec x (complexity self) then choice neighbours g2
         else Ok (first, g2));
      gr1 ← knock_down (c_grid st) r c here_dir;
      gr2 ← knock_down gr1 nr nc there_dir;
      visited' ← setitem2 (c_visited st) nr nc true;
      Ok (mkCarve gr2 visited' ((nr, nc) :: (r, c) :: below) g3)
  | [] => Ok (mkCarve (c_grid st) (c_visited st) below g1)
  end.

Fixpoint carve_loop (fuel : nat) (self : MazeGenerator) (st : carve_state)
  : result carve_state :=
  match c_stack st with
  | [] => Ok st
  | (r, c) :: below =>
      match fuel with
      | O => OutOfFuel
      | Datatypes.S fuel' =>
          st' ← carve_body self st r c below; carve_loop fuel' self st'
      end
  end.

(** The loop state after [n] iterations of [while stack:], or the state in
    which the loop exits if that happens earlier. *)
Fixpoint carve_run (n : nat) (self : MazeGenerator) (st : carve_state)
  : result carve_state :=
  match n with
  | O => Ok st
  | Datatypes.S n' =>
      match c_stack st with
      | [] => Ok st
      | (r, c) :: below =>
          st' ← carve_body self st r c below; carve_run n' self st'
      end
  end.

(** The state in which [_carve_passage] enters its loop. *)
Definition carve_init (self : MazeGenerator) (start_r start_c : Z) (g : G)
  : result carve_state :=
  let visited :=
    replicate (Z.to_nat (rows self)) (replicate (Z.to_nat (cols self)) false) in
  visited' ← setitem2 visited start_r start_c true;
  Ok (mkCarve (grid self) visited' [(start_r, start_c)] g).

(** [MazeGenerator._carve_passage] *)
Definition _carve_passage (fuel : nat) (self : MazeGenerator)
    (start_r start_c : Z) (g : G) : result (MazeGenerator * G) :=
  st0 ← carve_init self start_r start_c g;
  st ← carve_loop fuel self st0;
  Ok (set_grid self (c_grid st), c_rng st).

(** [MazeGenerator.generate] *)
Definition generate (fuel : nat) (self : MazeGenerator) (g : G)
  : result (MazeGenerator * G) :=
  '(start_r, g1) ← randrange (rows self) g;
  '(start_c, g2) ← randrange (cols self) g1;
  '(self1, g3) ← _carve_passage fuel self start_r start_c g2;
  if Qlt_le_dec (difficulty self1) float_0_1 then
    Ok (set_endpoints self1 (0, 0) (1, 1), g3)
  else if Qlt_le_dec (difficulty self1) float_0_5 then
    Ok (set_endpoints self1 (0, 0) (rows self1 - 1, cols self1 - 1), g3)
  else
    '(a, b) ← _longest_path_endpoints fuel self1;
    Ok (set_endpoints self1 a b, g3).

(** The first statement of [MazeGenerator.draw], before any drawing:
    [if self.start is None or self.end is None: self.generate()]. *)
Definition draw_generate (fuel : nat) (self : MazeGenerator) (g : G)
  : result (MazeGenerator * G) :=
  match start self, end_ self with
  | Some _, Some _ => Ok (self, g)
  | _, _ => generate fuel self g
  end.

End Generator.

Arguments carve_state G : clear implicits.

(** ** The turtle *)

(** A call received by the turtle module: by a [turtle.Turtle] object or,
    for [Tracer] and [Mainloop], by the screen.  A drawing is the list of
    the calls made, oldest first. *)
Inductive turtle_call :=
  | Hideturtle
  | Speed (n : Z)
  | Pensize (n : Z)
  | Tracer (b : bool)
  | Mainloop
  | Penup
  | Pendown
  | Goto (x y : Q)
  | Forward (distance : Q)
  | Left (angle : Z)
  | Right (angle : Z)
  | Pencolor (colour : string)
  | Pencolor_rgb (r g b : Z)
  | Fillcolor (colour : string)
  | Color (colour : string)
  | Begin_fill
  | End_fill.

(** ** Results of the drawing code *)

(** The drawing code can raise two exceptions more than the core.
    [Exhausted] is a run that exceeds the budget of the model: loop
    iterations for the core, nested calls for the recursive fractal
    functions, where Python raises [RecursionError] once the depth passes
    the limit of the interpreter. *)
Inductive draw_exn :=
  | Builtin (e : exn)
  | ZeroDivisionError
  | TypeError.

Inductive run (A : Type) :=
  | Returned (a : A)
  | Raised (e : draw_exn)
  | Exhausted.
Arguments Returned {A} a.
Arguments Raised {A} e.
Arguments Exhausted {A}.

#[global] Instance run_ret : MRet run := fun A a => Returned a.
#[global] Instance run_bind : MBind run := fun A B f m =>
  match m with
  | Returned a => f a
  | Raised e => Raised e
  | Exhausted => Exhausted
  end.

Lemma bind_Returned {A B} (a : A) (f : A → run B) : (Returned a ≫= f) = f a.
Proof. reflexivity. Qed.

(** A computation of the core inside the drawing code. *)
Definition lift {A} (m : result A) : run A :=
  match m with
  | Ok a => Returned a
  | Raise e => Raised (Builtin e)
  | OutOfFuel => Exhausted
  end.

(** ** Drawing the maze *)

Section Drawing.
Context {G : Type} `{RandomSource G}.

(** The rounded operations on floats. *)
Variable fmul : Q → Q → Q.
Variable fdiv : Q → Q → Q.
Variable fadd : Q → Q → Q.
Variable fsub : Q → Q → Q.







End Drawing.

(** * The fractal drawings of [colorful_fractal.py] *)

(** [len(seq)] *)
Definition len {A} (seq : list A) : Z := Z.of_nat (length seq).

(** A list access of the fractal code. *)
Definition item {A} (seq : list A) (i : Z) : run A := lift (getitem seq i).

(** ** Module-level state *)

(** A number that is an [int] or a [float]. *)
Inductive number :=
  | Int (z : Z)
  | Float (q : Q).

(** The globals [SEG_IDX], [TOTAL_SEGMENTS] and [COLOR_INDEX], and the
    calls the turtle [t] has received. *)
Record fractal_state := mkFractal {
  SEG_IDX : Z;
  TOTAL_SEGMENTS : number;
  COLOR_INDEX : Z;
  turtle : list turtle_call
}.

(** The state when the module has been loaded, with a turtle that has
    received the calls [t]. *)
Definition module_state (t : list turtle_call) : fractal_state :=
  mkFractal 0 (Int 1) 0 t.

(** [t.<call>(...)] *)
Definition call (st : fractal_state) (c : turtle_call) : fractal_state :=
  mkFractal (SEG_IDX st) (TOTAL_SEGMENTS st) (COLOR_INDEX st) (turtle st ++ [c]).

Definition RAINBOW_COLORS : list string :=
  ["#FF0000"; "#FF7F00"; "#FFFF00"; "#00FF00"; "#0000FF"; "#4B0082"; "#9400D3"]%string.

(** [rainbow_color] *)
Definition rainbow_color (level max_level : Z) : run string :=
  let index := level mod len RAINBOW_COLORS in
  item RAINBOW_COLORS index.

(** [next_rainbow_color] *)
Definition next_rainbow_color (st : fractal_state) : run (string * fractal_state) :=
  color ← item RAINBOW_COLORS (COLOR_INDEX st mod len RAINBOW_COLORS);
  Returned (color,
            mkFractal (SEG_IDX st) (TOTAL_SEGMENTS st) (COLOR_INDEX st + 1) (turtle st)).

(** ** Formatting a colour *)

Definition hex_digit (d : Z) : string :=
  match d with
  | 0 => "0" | 1 => "1" | 2 => "2" | 3 => "3" | 4 => "4" | 5 => "5" | 6 => "6"
  | 7 => "7" | 8 => "8" | 9 => "9" | 10 => "a" | 11 => "b" | 12 => "c"
  | 13 => "d" | 14 => "e" | _ => "f"
  end%string.

(** The hexadecimal digits of [n], for [0 <= n], most significant first,
    in front of [acc]; [k] bounds their number. *)
Fixpoint hex_digits (k : nat) (n : Z) (acc : string) : string :=
  match k with
  | O => acc
  | Datatypes.S k' =>
      let acc' := String.append (hex_digit (n mod 16)) acc in
      if n / 16 =? 0 then acc' else hex_digits k' (n / 16) acc'
  end.

(** [f"{n:02x}"]: lower-case hexadecimal, a minus sign for a negative
    number, zeros after the sign up to a width of two characters. *)
Definition format_02x (n : Z) : string :=
  let digits := hex_digits (Datatypes.S (Z.to_nat (Z.log2 (Z.abs n)))) (Z.abs n) "" in
  if n <? 0 then String.append "-" digits
  else if (String.length digits <? 2)%nat then String.append "0" digits
  else digits.

Section Fractals.
Context {G : Type} `{RandomSource G}.

(** The rounded operations on floats, and [colorsys.hsv_to_rgb]. *)
Variable fmul : Q → Q → Q.
Variable fdiv : Q → Q → Q.
Variable fadd : Q → Q → Q.
Variable fpow : Q → Z → Q.
Variable hsv_to_rgb : Q → Q → Q → Q * Q * Q.

(** [random.randint(a, b)], that is [randrange(a, b + 1)]; the text of the
    message of its [ValueError] varies with the version of Python. *)
Definition randint (a b : Z) (g : G) : result (Z * G) :=
  let width := b + 1 - a in
  if 0 <? width then
    let '(k, g') := randbelow width g in Ok (a + k, g')
  else Raise (ValueError "empty range for randrange()").

(** [random_bright_color] *)
Definition random_bright_color (g : G) : result (string * G) :=
  '(r, g1) ← randint 150 255 g;
  '(g_, g2) ← randint 150 255 g1;
  '(b, g3) ← randint 150 255 g2;
  Ok (String.append "#"
        (String.append (format_02x r) (String.append (format_02x g_) (format_02x b))),
      g3).










(** [dragon_curve], for an [int] angle. *)
Fixpoint dragon_curve (depth : nat) (st : fractal_state) (length : Q)
    (level angle max_level : Z) : run fractal_state :=
  match depth with
  | O => Exhausted
  | Datatypes.S depth' =>
      color ← item RAINBOW_COLORS (level mod len RAINBOW_COLORS);
      let st := call st (Pencolor color) in
      if level =? 0 then Returned (call st (Forward length))
      else
        let st := call st (Right angle) in
        st ← dragon_curve depth' st length (level - 1) (- angle) max_level;
        let st := call st (Left (angle * 2)) in
        st ← dragon_curve depth' st length (level - 1) angle max_level;
        Returned (call st (Right angle))
  end.

End Fractals.

(** ** The model on concrete inputs *)

Example getitem_last : getitem [1; 2; 3] (-1) = Ok 3.
Proof. reflexivity. Qed.

Example getitem_past_end : getitem [1; 2; 3] 3 = Raise IndexError.
Proof. reflexivity. Qed.

Example slice_to_negative : slice_to [1; 2; 3; 4] (-1) = [1; 2; 3].
Proof. reflexivity. Qed.

(** [random.shuffle] does reorder the list it is given. *)
Example shuffle_reorders : shuffle [1; 2; 3; 4] (7 : Z) = Ok ([2; 3; 4; 1], 712265938).
Proof. vm_compute. reflexivity. Qed.

(** A 3 by 3 maze with complexity 0 and difficulty 0: the endpoints are
    [(0, 0)] and [(1, 1)]. *)
Example generate_3x3_easy :
  (m ← __init__ 3 3 20 0 0;
   '(m', _) ← generate Qmult 18 m (42 : Z);
   Ok (start m', end_ m', rows m', cols m'))
  = Ok (Some (0, 0), Some (1, 1), 3, 3).
Proof. vm_compute. reflexivity. Qed.

(** With complexity 1 and difficulty 1 the endpoints come from the double
    search; seventeen iterations of the carving loop are needed on 9 cells. *)
Example generate_3x3_hard :
  (m ← __init__ 3 3 20 1 1;
   '(m', _) ← generate Qmult 17 m (42 : Z);
   Ok (start m', end_ m'))
  = Ok (Some (0, 2), Some (0, 0)).
Proof. vm_compute. reflexivity. Qed.

Example generate_3x3_short_of_iterations :
  (m ← __init__ 3 3 20 1 1; generate Qmult 16 m (42 : Z)) = OutOfFuel.
Proof. vm_compute. reflexivity. Qed.

(** * Trees built by attaching leaves

    The carving adds one edge at a time, from a visited cell to a cell that
    was not visited before.  The edges, latest first, as [(child, parent)]
    pairs form a tree in which every pair attaches a new leaf.  This section
    develops the metric of such trees for an arbitrary vertex type. *)

Section Tree.
Context {V : Type} `{EqDecision V}.
Implicit Types (T : list (V * V)) (x y z w root : V).

Fixpoint nodes root T : list V :=
  match T with
  | [] => [root]
  | (v, _) :: T' => v :: nodes root T'
  end.

Fixpoint wf_tree root T : Prop :=
  match T with
  | [] => True
  | (v, u) :: T' => u ∈ nodes root T' ∧ (v ∉ nodes root T') ∧ wf_tree root T'
  end.

Definition tedge T x y : Prop := (x, y) ∈ T ∨ (y, x) ∈ T.

(** Length of the path between two vertices; a vertex outside the tree
    counts as the root. *)
Fixpoint tdist T x y : nat :=
  match T with
  | [] => O
  | (v, u) :: T' =>
      if decide (x = v) then
        if decide (y = v) then O else Datatypes.S (tdist T' u y)
      else
        if decide (y = v) then Datatypes.S (tdist T' x u) else tdist T' x y
  end.

Lemma tedge_sym T x y : tedge T x y → tedge T y x.
Proof. unfold tedge. tauto. Qed.

Lemma nodes_length root T : length (nodes root T) = Datatypes.S (length T).
Proof. induction T as [|[v u] T IH]; simpl; [done | by rewrite IH]. Qed.

Lemma nodes_root root T : root ∈ nodes root T.
Proof.
  induction T as [|[v u] T IH]; simpl; [apply list_elem_of_here |].
  by apply list_elem_of_further.
Qed.

Lemma nodes_NoDup root T : wf_tree root T → NoDup (nodes root T).
Proof.
  induction T as [|[v u] T IH]; simpl.
  - intros _. apply NoDup_singleton.
  - intros (_ & Hv & Hwf). apply NoDup_cons. auto.
Qed.

Lemma tedge_nodes root T x y :
  wf_tree root T → tedge T x y → x ∈ nodes root T ∧ y ∈ nodes root T.
Proof.
  induction T as [|[v u] T IH]; simpl; intros Hwf [Hin | Hin].
  - by apply elem_of_nil in Hin.
  - by apply elem_of_nil in Hin.
  - destruct Hwf as (Hu & Hv & Hwf). apply elem_of_cons in Hin as [Heq | Hin].
    + inversion Heq; subst. split; [left | by right].
    + destruct (IH Hwf (or_introl Hin)). split; by right.
  - destruct Hwf as (Hu & Hv & Hwf). apply elem_of_cons in Hin as [Heq | Hin].
    + inversion Heq; subst. split; [by right | left].
    + destruct (IH Hwf (or_intror Hin)). split; by right.
Qed.

Lemma tdist_refl T x : tdist T x x = O.
Proof.
  induction T as [|[v u] T IH]; simpl; [done |].
  repeat case_decide; congruence.
Qed.

Lemma tdist_sym T x y : tdist T x y = tdist T y x.
Proof.
  revert x y. induction T as [|[v u] T IH]; intros x y; simpl; [done |].
  repeat case_decide; try congruence; by rewrite IH.
Qed.

(** The four-point condition of tree metrics. *)
Lemma tdist_four_point T x y z w :
  (tdist T x y + tdist T z w ≤
     Nat.max (tdist T x z + tdist T y w) (tdist T x w + tdist T y z))%nat.
Proof.
  revert x y z w. induction T as [|[v u] T IH]; intros x y z w; simpl; [lia |].
  specialize (IH (if decide (x = v) then u else x) (if decide (y = v) then u else y)
                 (if decide (z = v) then u else z) (if decide (w = v) then u else w)).
  pose proof (tdist_refl T u) as Hu.
  pose proof (tdist_sym T u x). pose proof (tdist_sym T u y).
  pose proof (tdist_sym T u z). pose proof (tdist_sym T u w).
  repeat case_decide; rewrite ?Hu in IH; lia.
Qed.

Lemma tdist_triangle T x y z : (tdist T x y ≤ tdist T x z + tdist T z y)%nat.
Proof.
  pose proof (tdist_four_point T x y z z) as H4.
  rewrite tdist_refl in H4. rewrite (tdist_sym T y z) in H4. lia.
Qed.

(** Every triangle has an even perimeter. *)
Lemma tdist_parity T x y z :
  Nat.even (tdist T x y + tdist T y z + tdist T x z) = true.
Proof.
  revert x y z. induction T as [|[v u] T IH]; intros x y z; simpl; [done |].
  specialize (IH (if decide (x = v) then u else x) (if decide (y = v) then u else y)
                 (if decide (z = v) then u else z)).
  pose proof (tdist_refl T u) as Hu.
  pose proof (tdist_sym T u x). pose proof (tdist_sym T u y).
  pose proof (tdist_sym T u z).
  apply Nat.even_spec in IH. apply Nat.even_spec.
  destruct IH as [k Hk].
  repeat case_decide; rewrite ?Hu in Hk;
    first [ exists k; lia | exists (Datatypes.S k); lia ].
Qed.

Lemma tdist_zero root T x y :
  wf_tree root T → x ∈ nodes root T → y ∈ nodes root T →
  tdist T x y = O → x = y.
Proof.
  revert x y. induction T as [|[v u] T IH]; intros x y; simpl.
  - intros _ Hx%list_elem_of_singleton Hy%list_elem_of_singleton. congruence.
  - intros (Hu & Hv & Hwf) Hx%elem_of_cons Hy%elem_of_cons.
    repeat case_decide; try congruence; try lia.
    destruct Hx as [? | Hx]; [done |]. destruct Hy as [? | Hy]; [done |]. eauto.
Qed.

Lemma tdist_edge root T x y : wf_tree root T → tedge T x y → tdist T x y = 1%nat.
Proof.
  revert x y. induction T as [|[v u] T IH]; intros x y; simpl.
  - intros _ [Hin | Hin]; by apply elem_of_nil in Hin.
  - intros (Hu & Hv & Hwf) Hedge.
    assert (Hold : ∀ a b, tedge T a b → a ≠ v ∧ b ≠ v).
    { intros a b Hab. destruct (tedge_nodes root T a b Hwf Hab).
      split; intros ->; contradiction. }
    assert (Huv : u ≠ v) by (intros ->; contradiction).
    destruct Hedge as [Hin | Hin]; apply elem_of_cons in Hin as [Heq | Hin].
    + inversion Heq; subst. rewrite decide_True by done.
      rewrite decide_False by done. by rewrite tdist_refl.
    + destruct (Hold x y (or_introl Hin)).
      rewrite !decide_False by done. apply IH; [done | by left].
    + inversion Heq; subst. rewrite decide_False by done.
      rewrite decide_True by done. by rewrite tdist_refl.
    + destruct (Hold x y (or_intror Hin)).
      rewrite !decide_False by done. apply IH; [done | by right].
Qed.

Lemma tedge_weaken T v u x y : tedge T x y → tedge ((v, u) :: T) x y.
Proof. intros [Hin | Hin]; [left | right]; by apply list_elem_of_further. Qed.

Lemma tdist_one root T x y :
  wf_tree root T → x ∈ nodes root T → y ∈ nodes root T →
  tdist T x y = 1%nat → tedge T x y.
Proof.
  revert x y. induction T as [|[v u] T IH]; intros x y; simpl; [done |].
  intros (Hu & Hv & Hwf) Hx%elem_of_cons Hy%elem_of_cons.
  repeat case_decide; subst; intros Hd; try done.
  - destruct Hy as [? | Hy]; [done |].
    assert (u = y) as -> by (apply (tdist_zero root T); [done..|lia]).
    left. apply list_elem_of_here.
  - destruct Hx as [? | Hx]; [done |].
    assert (x = u) as -> by (apply (tdist_zero root T); [done..|lia]).
    right. apply list_elem_of_here.
  - destruct Hx as [? | Hx]; [done |]. destruct Hy as [? | Hy]; [done |].
    apply tedge_weaken. by apply IH.
Qed.

(** Every vertex other than [y] has a neighbour one step closer to [y]. *)
Lemma tdist_closer root T x y :
  wf_tree root T → x ∈ nodes root T → y ∈ nodes root T → x ≠ y →
  ∃ z, tedge T x z ∧ z ∈ nodes root T ∧ Datatypes.S (tdist T z y) = tdist T x y.
Proof.
  revert x y. induction T as [|[v u] T IH]; intros x y; simpl.
  - intros _ Hx%list_elem_of_singleton Hy%list_elem_of_singleton. congruence.
  - intros (Hu & Hv & Hwf) Hx%elem_of_cons Hy%elem_of_cons Hne.
    assert (Huv : u ≠ v) by (intros ->; contradiction).
    destruct (decide (x = v)) as [-> | Hxv].
    + exists u. split; [left; apply list_elem_of_here |].
      split; [by apply list_elem_of_further |].
      repeat case_decide; done.
    + destruct Hx as [? | Hx]; [done |].
      destruct (decide (y = v)) as [-> | Hyv].
      * destruct (decide (x = u)) as [-> | Hxu].
        { exists v. split; [right; apply list_elem_of_here |].
          split; [apply list_elem_of_here |].
          repeat case_decide; try done. by rewrite tdist_refl. }
        destruct (IH x u Hwf Hx Hu Hxu) as (z & Hxz & Hz & Hd).
        assert (z ≠ v) by (intros ->; contradiction).
        exists z. split; [by apply tedge_weaken |].
        split; [by apply list_elem_of_further |].
        repeat case_decide; try done. lia.
      * destruct Hy as [? | Hy]; [done |].
        destruct (IH x y Hwf Hx Hy Hne) as (z & Hxz & Hz & Hd).
        assert (z ≠ v) by (intros ->; contradiction).
        exists z. split; [by apply tedge_weaken |].
        split; [by apply list_elem_of_further |].
        repeat case_decide; done.
Qed.

(** Along an edge, the distance to a third vertex changes by exactly one. *)
Lemma tdist_edge_step root T x y s :
  wf_tree root T → tedge T x y →
  tdist T s y = Datatypes.S (tdist T s x) ∨ tdist T s x = Datatypes.S (tdist T s y).
Proof.
  intros Hwf Hxy.
  pose proof (tdist_edge root T x y Hwf Hxy) as H1.
  pose proof (tdist_triangle T s y x) as H2.
  pose proof (tdist_triangle T s x y) as H3.
  pose proof (tdist_parity T s x y) as H4.
  rewrite (tdist_sym T y x) in H3.
  apply Nat.even_spec in H4 as [k Hk]. lia.
Qed.

(** A vertex has at most one neighbour closer to [s]. *)
Lemma tdist_pred_unique root T s x y1 y2 :
  wf_tree root T → tedge T x y1 → tedge T x y2 →
  Datatypes.S (tdist T s y1) = tdist T s x →
  Datatypes.S (tdist T s y2) = tdist T s x →
  y1 = y2.
Proof.
  intros Hwf H1 H2 Hd1 Hd2.
  destruct (tedge_nodes root T x y1 Hwf H1) as [_ Hy1].
  destruct (tedge_nodes root T x y2 Hwf H2) as [_ Hy2].
  apply (tdist_zero root T); [done..|].
  pose proof (tdist_four_point T y1 y2 x s) as H4.
  rewrite (tdist_edge root T y1 x) in H4 by (done || by apply tedge_sym).
  rewrite (tdist_edge root T y2 x) in H4 by (done || by apply tedge_sym).
  rewrite (tdist_sym T y1 s), (tdist_sym T y2 s), (tdist_sym T x s) in H4. lia.
Qed.

(** The double sweep: a vertex farthest from a vertex farthest from [s]
    realises the diameter. *)
Lemma double_sweep root T s a b :
  (∀ x, x ∈ nodes root T → tdist T s x ≤ tdist T s a)%nat →
  (∀ x, x ∈ nodes root T → tdist T a x ≤ tdist T a b)%nat →
  ∀ x y, x ∈ nodes root T → y ∈ nodes root T → (tdist T x y ≤ tdist T a b)%nat.
Proof.
  intros Ha Hb x y Hx Hy.
  pose proof (tdist_four_point T x y s a) as H4.
  pose proof (Ha x Hx) as Hsx. pose proof (Ha y Hy) as Hsy.
  pose proof (Hb x Hx) as Hax. pose proof (Hb y Hy) as Hay.
  rewrite (tdist_sym T x s), (tdist_sym T y s), (tdist_sym T x a),
    (tdist_sym T y a) in H4. lia.
Qed.

End Tree.

(** * Matrices indexed by grid coordinates *)

Definition in_bounds (R C : Z) (x : Z * Z) : Prop :=
  (0 ≤ x.1 < R) ∧ (0 ≤ x.2 < C).

#[global] Instance in_bounds_dec R C x : Decision (in_bounds R C x).
Proof. unfold in_bounds. apply _. Defined.

(** A list of [R] rows of [C] entries each. *)
Definition wf_matrix {A} (R C : Z) (m : list (list A)) : Prop :=
  Z.of_nat (length m) = R ∧ Forall (λ row, Z.of_nat (length row) = C) m.

(** The entry at an in-range coordinate. *)
Definition at_ {A} (m : list (list A)) (x : Z * Z) : option A :=
  m !! Z.to_nat x.1 ≫= λ row, row !! Z.to_nat x.2.

Lemma getitem_in_range {A} (l : list A) (i : Z) :
  0 ≤ i < Z.of_nat (length l) →
  ∃ a, l !! Z.to_nat i = Some a ∧ getitem l i = Ok a.
Proof.
  intros Hi. unfold getitem, py_index.
  destruct (Z.leb_spec 0 i); [|lia]. destruct (Z.ltb_spec i (Z.of_nat (length l))); [|lia].
  destruct (lookup_lt_is_Some_2 l (Z.to_nat i)) as [a Ha]; [lia|].
  exists a. by rewrite Ha.
Qed.

Lemma setitem_in_range {A} (l : list A) (i : Z) (a : A) :
  0 ≤ i < Z.of_nat (length l) → setitem l i a = Ok (<[Z.to_nat i := a]> l).
Proof.
  intros Hi. unfold setitem, py_index.
  destruct (Z.leb_spec 0 i); [|lia]. by destruct (Z.ltb_spec i (Z.of_nat (length l))); [|lia].
Qed.

Lemma wf_matrix_row {A} R C (m : list (list A)) (i : nat) row :
  wf_matrix R C m → m !! i = Some row → Z.of_nat (length row) = C.
Proof. intros [_ Hrows] Hi. by apply (Forall_lookup_1 _ _ _ _ Hrows Hi). Qed.

Lemma getitem2_in_bounds {A} R C (m : list (list A)) (x : Z * Z) :
  wf_matrix R C m → in_bounds R C x →
  ∃ a, at_ m x = Some a ∧ getitem2 m x.1 x.2 = Ok a.
Proof.
  intros Hm [Hr Hc]. unfold getitem2, at_.
  destruct (getitem_in_range m x.1) as (row & Hrow & ->); [destruct Hm; lia|].
  pose proof (wf_matrix_row R C m _ row Hm Hrow) as Hlen. simpl.
  destruct (getitem_in_range row x.2) as (a & Ha & ->); [lia|].
  exists a. rewrite Hrow. simpl. by rewrite Ha.
Qed.

Lemma setitem2_in_bounds {A} R C (m : list (list A)) (x : Z * Z) (a : A) :
  wf_matrix R C m → in_bounds R C x →
  ∃ m', setitem2 m x.1 x.2 a = Ok m' ∧ wf_matrix R C m' ∧ at_ m' x = Some a ∧
        ∀ y, in_bounds R C y → y ≠ x → at_ m' y = at_ m y.
Proof.
  intros Hm [Hr Hc]. unfold setitem2.
  destruct (getitem_in_range m x.1) as (row & Hrow & ->); [destruct Hm; lia|].
  pose proof (wf_matrix_row R C m _ row Hm Hrow) as Hlen. simpl.
  rewrite setitem_in_range by lia. simpl.
  rewrite setitem_in_range by (destruct Hm; lia).
  eexists. split; [done|]. split; [|split].
  - destruct Hm as [HR Hrows]. split; [by rewrite length_insert|].
    apply Forall_insert; [done|]. by rewrite length_insert.
  - unfold at_. rewrite list_lookup_insert_eq by (destruct Hm; lia). simpl.
    apply list_lookup_insert_eq. lia.
  - intros [yr yc] [Hyr Hyc] Hne. unfold at_. simpl in *.
    destruct (decide (Z.to_nat yr = Z.to_nat x.1)) as [Heq | Hneq].
    + rewrite Heq. rewrite list_lookup_insert_eq by (destruct Hm; lia).
      rewrite Hrow. simpl. apply list_lookup_insert_ne.
      intros Heqc. apply Hne. destruct x as [xr xc]. simpl in *. f_equal; lia.
    + by rewrite list_lookup_insert_ne.
Qed.

Lemma wf_matrix_replicate {A} R C (a : A) :
  0 ≤ R → 0 ≤ C → wf_matrix R C (replicate (Z.to_nat R) (replicate (Z.to_nat C) a)).
Proof.
  intros HR HC. split.
  - rewrite length_replicate. lia.
  - apply Forall_replicate. rewrite length_replicate. lia.
Qed.

Lemma at_replicate {A} R C (a : A) x :
  in_bounds R C x → at_ (replicate (Z.to_nat R) (replicate (Z.to_nat C) a)) x = Some a.
Proof.
  intros [Hr Hc]. unfold at_.
  rewrite lookup_replicate_2 by lia. simpl. apply lookup_replicate_2. lia.
Qed.

(** * The open-wall graph of a grid *)

(** The cell one step from [x] in direction [d]. *)
Definition move (x : Z * Z) (d : Dir.t) : Z * Z :=
  (x.1 + (DIR_VEC d).1, x.2 + (DIR_VEC d).2).

(** Whether the wall of cell [x] on side [d] is present. *)
Definition wallb (gr : Grid) (x : Z * Z) (d : Dir.t) : bool :=
  match at_ gr x with
  | Some cl => cell_get cl d
  | None => true
  end.

(** Whether cell [x] is marked in a matrix of flags. *)
Definition marked (visited : list (list bool)) (x : Z * Z) : bool :=
  match at_ visited x with
  | Some b => b
  | None => false
  end.

Lemma move_opposite x d : move (move x d) (OPPOSITE d) = x.
Proof. destruct x as [r c], d; unfold move; simpl; f_equal; lia. Qed.

Lemma move_inj x d d' : move x d = move x d' → d = d'.
Proof. destruct x as [r c], d, d'; unfold move; simpl; intros [=]; (done || lia). Qed.

Lemma cell_get_set cl d d' b :
  cell_get (cell_set cl d b) d' = if decide (d' = d) then b else cell_get cl d'.
Proof. by destruct d, d'. Qed.

Lemma knock_down_in_bounds R C (gr : Grid) (x : Z * Z) (d : Dir.t) :
    wf_matrix R C gr → in_bounds R C x →
    ∃ gr', knock_down gr x.1 x.2 d = Ok gr' ∧ wf_matrix R C gr' ∧
      ∀ y d', in_bounds R C y →
        wallb gr' y d' = if decide (y = x ∧ d' = d) then false else wallb gr y d'.
Proof.
    intros Hm Hx.
    destruct (getitem2_in_bounds R C gr x Hm Hx) as (cl & Hat & Hget).
    destruct (setitem2_in_bounds R C gr x (cell_set cl d false) Hm Hx)
      as (gr' & Hset & Hwf & Hat' & Hother).
    exists gr'. split; [|split; [done|]].
    - unfold knock_down. unfold getitem2 in Hget. unfold setitem2 in Hset.
      destruct (getitem gr x.1) as [row| |]; simpl in *; try done.
      by rewrite Hget.
    - intros y d' Hy. unfold wallb. case_decide as Hyd.
      + destruct Hyd as [-> ->]. rewrite Hat'. rewrite cell_get_set.
        by rewrite decide_True.
      + destruct (decide (y = x)) as [-> | Hne].
        * rewrite Hat', Hat. rewrite cell_get_set. rewrite decide_False; [done|].
          intros ->. by apply Hyd.
        * by rewrite Hother.
Qed.

(** Every cell of the grid, row by row. *)
Definition all_cells (R C : Z) : list (Z * Z) := list_prod (seqZ 0 R) (seqZ 0 C).

Lemma elem_of_all_cells R C x : x ∈ all_cells R C ↔ in_bounds R C x.
Proof.
  unfold all_cells, in_bounds. rewrite list_elem_of_In. destruct x as [r c].
  rewrite in_prod_iff, <- !list_elem_of_In, !elem_of_seqZ. simpl. lia.
Qed.

Lemma NoDup_list_prod {A B} (l : list A) (k : list B) :
  NoDup l → NoDup k → NoDup (list_prod l k).
Proof.
  intros Hl Hk. induction Hl as [|a l Ha Hl IH]; simpl; [apply NoDup_nil_2|].
  apply NoDup_app. split; [|split; [|done]].
  - apply NoDup_fmap_2; [|done]. by intros b b' [=].
  - intros [a' b] [b' [Heq _]]%list_elem_of_fmap Hin. inversion Heq; subst.
    apply list_elem_of_In, in_prod_iff in Hin as [Hin _].
    by apply list_elem_of_In in Hin.
Qed.

Lemma NoDup_all_cells R C : NoDup (all_cells R C).
Proof. apply NoDup_list_prod; apply NoDup_seqZ. Qed.

Lemma length_all_cells R C : 0 ≤ R → 0 ≤ C → Z.of_nat (length (all_cells R C)) = R * C.
Proof.
  intros HR HC. unfold all_cells. rewrite length_prod, !length_seqZ. lia.
Qed.

(** * The carving loop, one iteration at a time *)

Section Carving.
Context {G : Type} `{RandomSource G}.
Variable fmul : Q → Q → Q.

Lemma shuffle_loop_ok {A} (i : nat) (x : list A) (g : G) :
  (i < length x ∨ i = 0)%nat →
  ∃ x' g', shuffle_loop i x g = Ok (x', g').
Proof.
  revert x g. induction i as [|i IH]; intros x g Hi; [simpl; by eauto|].
  cbn [shuffle_loop]. destruct Hi as [Hi|]; [|done].
  pose proof (randbelow_range (Z.of_nat (Datatypes.S i) + 1) g ltac:(lia)) as Hj.
  destruct (randbelow (Z.of_nat (Datatypes.S i) + 1) g) as [j g']. simpl in Hj.
  destruct (getitem_in_range x j) as (xj & _ & ->); [lia|].
  rewrite bind_Ok.
  destruct (getitem_in_range x (Z.of_nat (Datatypes.S i))) as (xi & _ & ->); [lia|].
  rewrite bind_Ok. rewrite setitem_in_range by lia. rewrite bind_Ok.
  rewrite setitem_in_range by (rewrite length_insert; lia). rewrite bind_Ok.
  apply IH. rewrite !length_insert. lia.
Qed.

Lemma shuffle_ok {A} (x : list A) (g : G) : ∃ x' g', shuffle x g = Ok (x', g').
Proof. apply shuffle_loop_ok. destruct x; simpl; lia. Qed.

Lemma choice_ok {A} (seq : list A) (g : G) :
  seq ≠ [] → ∃ a g', choice seq g = Ok (a, g') ∧ a ∈ seq.
Proof.
  intros Hne. unfold choice. destruct seq as [|a0 seq0]; [done|].
  set (seq := a0 :: seq0) in *.
  pose proof (randbelow_range (Z.of_nat (length seq)) g ltac:(simpl; lia)) as Hi.
  destruct (randbelow (Z.of_nat (length seq)) g) as [i g']. simpl in Hi.
  destruct (getitem_in_range seq i) as (a & Ha & ->); [unfold seq; simpl length; lia|].
  exists a, g'. split; [done|]. by eapply list_elem_of_lookup_2.
Qed.

(** The directions in which [x] has an in-grid neighbour that is not
    marked, in the order of [DIR_VEC]. *)
Definition unvisited_dirs (R C : Z) (visited : list (list bool)) (x : Z * Z)
  : list Dir.t :=
  filter (λ d, in_bounds R C (move x d) ∧ marked visited (move x d) = false)
         [Dir.N; Dir.S; Dir.E; Dir.W].

Definition to_neighbour (x : Z * Z) (d : Dir.t) : Neighbour :=
  ((move x d).1, (move x d).2, d, OPPOSITE d).

Lemma neighbour_fold self R C visited (x : Z * Z) (ds : list Dir.t) acc :
  rows self = R → cols self = C → wf_matrix R C visited →
  foldl (neighbour_step self x.1 x.2 visited) (Ok acc) ((λ d, (d, DIR_VEC d)) <$> ds)
  = Ok (acc ++ (to_neighbour x <$>
          filter (λ d, in_bounds R C (move x d) ∧ marked visited (move x d) = false) ds)).
Proof.
  intros HR HC Hwf. revert acc.
  induction ds as [|d ds IH]; intros acc; [simpl; by rewrite app_nil_r|].
  rewrite fmap_cons. cbn [foldl].
  assert (neighbour_step self x.1 x.2 visited (Ok acc) (d, DIR_VEC d) =
          Ok (acc ++ (if decide (in_bounds R C (move x d) ∧
                                 marked visited (move x d) = false)
                      then [to_neighbour x d] else []))) as ->.
  { unfold neighbour_step. rewrite bind_Ok.
    destruct (DIR_VEC d) as [dr dc] eqn:Hd. rewrite HR, HC.
    assert (Hmove : move x d = (x.1 + dr, x.2 + dc)) by (unfold move; by rewrite Hd).
    destruct ((0 <=? x.1 + dr) && (x.1 + dr <? R) && (0 <=? x.2 + dc) && (x.2 + dc <? C))
      eqn:Hb.
    - assert (Hin : in_bounds R C (move x d)).
      { rewrite Hmove. unfold in_bounds. simpl.
        apply andb_prop in Hb as [Hb H4]. apply andb_prop in Hb as [Hb H3].
        apply andb_prop in Hb as [H1 H2]. lia. }
      destruct (getitem2_in_bounds R C visited (move x d) Hwf Hin) as (b & Hat & Hget).
      rewrite Hmove in Hget. simpl in Hget. rewrite Hget, bind_Ok.
      unfold marked. rewrite Hat. destruct b; simpl.
      + rewrite decide_False by (intros [_ ?]; done). by rewrite app_nil_r.
      + rewrite decide_True by done. unfold to_neighbour. by rewrite Hmove.
    - rewrite decide_False; [by rewrite app_nil_r|].
      intros [[Hr Hc] _]. rewrite Hmove in Hr, Hc. simpl in *.
      assert ((0 <=? x.1 + dr) && (x.1 + dr <? R) && (0 <=? x.2 + dc) && (x.2 + dc <? C)
              = true); [|congruence].
      rewrite !andb_true_iff. lia. }
  rewrite IH. rewrite filter_cons. case_decide; simpl; [|by rewrite app_nil_r].
  by rewrite <- app_assoc.
Qed.

Lemma unvisited_neighbours_spec self R C visited (x : Z * Z) (g : G) :
  rows self = R → cols self = C → wf_matrix R C visited →
  ∃ g', _unvisited_neighbours fmul self x.1 x.2 visited g
        = Ok (to_neighbour x <$> unvisited_dirs R C visited x, g').
Proof.
  intros HR HC Hwf. unfold _unvisited_neighbours.
  change DIR_VEC_items with ((λ d, (d, DIR_VEC d)) <$> [Dir.N; Dir.S; Dir.E; Dir.W]).
  rewrite (neighbour_fold self R C visited x _ [] HR HC Hwf). rewrite bind_Ok.
  rewrite app_nil_l. fold (unvisited_dirs R C visited x).
  match goal with |- context [shuffle ?l g] =>
    destruct (shuffle_ok l g) as (x' & g' & ->) end.
  rewrite bind_Ok. by exists g'.
Qed.

(** ** One iteration as a relation on loop states *)

Variables (R C : Z).

(** Well-shaped loop state: both matrices have the grid's dimensions and
    the stack holds cells of the grid. *)
Definition carve_wf (st : carve_state G) : Prop :=
  wf_matrix R C (c_grid st) ∧ wf_matrix R C (c_visited st) ∧
  ∀ x, x ∈ c_stack st → in_bounds R C x.

Inductive carve_step (st st' : carve_state G) : Prop :=
  | carve_pop x below :
      c_stack st = x :: below →
      unvisited_dirs R C (c_visited st) x = [] →
      c_stack st' = below →
      c_grid st' = c_grid st →
      c_visited st' = c_visited st →
      carve_step st st'
  | carve_push x below d :
      c_stack st = x :: below →
      d ∈ unvisited_dirs R C (c_visited st) x →
      c_stack st' = move x d :: x :: below →
      (∀ y d', in_bounds R C y →
         wallb (c_grid st') y d' =
           if decide ((y = x ∧ d' = d) ∨ (y = move x d ∧ d' = OPPOSITE d))
           then false else wallb (c_grid st) y d') →
      (∀ y, in_bounds R C y →
         marked (c_visited st') y =
           if decide (y = move x d) then true else marked (c_visited st) y) →
      carve_step st st'.

Lemma unvisited_dirs_spec visited x d :
  d ∈ unvisited_dirs R C visited x ↔
  in_bounds R C (move x d) ∧ marked visited (move x d) = false.
Proof.
  unfold unvisited_dirs. rewrite list_elem_of_filter.
  split; [tauto|]. intros Hd. split; [done|].
  destruct d; repeat constructor.
Qed.

Lemma carve_body_step self st x below :
  rows self = R → cols self = C →
  carve_wf st → c_stack st = x :: below →
  ∃ st', carve_body fmul self st x.1 x.2 below = Ok st' ∧
         carve_step st st' ∧ carve_wf st'.
Proof.
  intros HR HC (Hgrid & Hvis & Hstack) Hst. unfold carve_body.
  destruct (unvisited_neighbours_spec self R C (c_visited st) x (c_rng st) HR HC Hvis)
    as (g1 & ->).
  rewrite bind_Ok.
  assert (Hx : in_bounds R C x) by (apply Hstack; rewrite Hst; left).
  destruct (unvisited_dirs R C (c_visited st) x) as [|d0 ds] eqn:Hdirs.
  - simpl. eexists. split; [done|]. split.
    + by eapply carve_pop.
    + split; [done|]. split; [done|]. simpl. intros y Hy. apply Hstack.
      rewrite Hst. by right.
  - rewrite fmap_cons.
    destruct (random g1) as [q g2].
    match goal with |- ∃ st', (?pick ≫= _) = _ ∧ _ =>
      assert (∃ d g3, d ∈ d0 :: ds ∧ pick = Ok (to_neighbour x d, g3))
        as (d & g3 & Hd & ->)
    end.
    { destruct (Qlt_le_dec q (complexity self)).
      - match goal with |- context [@choice _ _ ?A ?l g2] =>
          destruct (@choice_ok A l g2) as (a & g3 & -> & Ha); [done|] end.
        rewrite <- fmap_cons in Ha. apply list_elem_of_fmap in Ha as (d & -> & Hd).
        by exists d, g3.
      - exists d0, g2. split; [left | done]. }
    rewrite <- Hdirs in Hd. pose proof Hd as Hd'.
    apply unvisited_dirs_spec in Hd' as [Hy Hfresh].
    rewrite bind_Ok. unfold to_neighbour.
    destruct (knock_down_in_bounds R C (c_grid st) x d Hgrid Hx)
      as (gr1 & -> & Hgr1 & Hw1).
    rewrite bind_Ok.
    destruct (knock_down_in_bounds R C gr1 (move x d) (OPPOSITE d) Hgr1 Hy)
      as (gr2 & -> & Hgr2 & Hw2).
    rewrite bind_Ok.
    destruct (setitem2_in_bounds R C (c_visited st) (move x d) true Hvis Hy)
      as (vis' & -> & Hvis' & Hnew & Hold).
    rewrite bind_Ok. eexists. split; [done|]. split.
    + eapply (carve_push _ _ x below d); simpl; [done | done | by destruct x | |].
      * intros y d' Hyb. rewrite Hw2, Hw1 by done.
        repeat case_decide; try done; tauto.
      * intros y Hyb. unfold marked. case_decide as Hyd.
        -- subst y. by rewrite Hnew.
        -- by rewrite Hold.
    + split; [done|]. split; [done|]. simpl. intros y Hyin.
      apply elem_of_cons in Hyin as [-> | Hyin]; [done|].
      apply Hstack. rewrite Hst. by destruct x.
Qed.

End Carving.

(** * The carved walls form a tree *)

(** Number of walls that are open on side [d] of their cell, for [d] in
    [ds]. *)
Definition open_flags (R C : Z) (gr : Grid) (ds : list Dir.t) : nat :=
  length (filter (λ p : Z * Z * Dir.t, wallb gr p.1 p.2 = false)
                 (list_prod (all_cells R C) ds)).

(** A shared wall, named by its northern or western cell and the side on
    which it lies, that is open on both of its sides. *)
Definition open_pair (R C : Z) (gr : Grid) (p : Z * Z * Dir.t) : Prop :=
  in_bounds R C (move p.1 p.2) ∧ wallb gr p.1 p.2 = false ∧
  wallb gr (move p.1 p.2) (OPPOSITE p.2) = false.

#[global] Instance open_pair_dec R C gr p : Decision (open_pair R C gr p).
Proof. unfold open_pair. apply _. Defined.

(** Number of open wall pairs of the grid: every shared wall is the southern
    or the eastern wall of exactly one cell. *)
Definition open_wall_pairs (R C : Z) (gr : Grid) : nat :=
  length (filter (open_pair R C gr) (list_prod (all_cells R C) [Dir.S; Dir.E])).

Lemma filter_ext_in {A} (P Q : A → Prop)
    `{∀ x, Decision (P x)} `{∀ x, Decision (Q x)} (l : list A) :
  (∀ x, x ∈ l → (P x ↔ Q x)) → filter P l = filter Q l.
Proof.
  intros Hiff. induction l as [|a l IH]; [done|].
  assert (P a ↔ Q a) by (apply Hiff; left).
  assert (filter P l = filter Q l) as IH' by (apply IH; intros x Hx; apply Hiff; by right).
  rewrite !filter_cons, IH'. repeat case_decide; tauto.
Qed.

Lemma filter_length_flip {A} `{EqDecision A} (P Q : A → Prop)
    `{∀ x, Decision (P x)} `{∀ x, Decision (Q x)} (l : list A) (a : A) :
  NoDup l → (∀ b, b ∈ l → b ≠ a → (Q b ↔ P b)) → ¬ P a → Q a →
  length (filter Q l) = (length (filter P l) + if decide (a ∈ l) then 1 else 0)%nat.
Proof.
  intros Hnd Hsame HP HQ. induction Hnd as [|b l Hb Hnd IH]; [done|].
  rewrite !filter_cons.
  assert (IH' : length (filter Q l) =
                (length (filter P l) + if decide (a ∈ l) then 1 else 0)%nat).
  { apply IH. intros c Hc. apply Hsame. by right. }
  destruct (decide (b = a)) as [-> | Hne].
  - rewrite decide_True by done. rewrite decide_False by done.
    rewrite (decide_True (P := a ∈ a :: l)) by left.
    rewrite decide_False in IH' by done. simpl. lia.
  - assert (Q b ↔ P b) as Hiff by (apply Hsame; [left | done]).
    assert (Hmem : (a ∈ b :: l) ↔ a ∈ l).
    { rewrite elem_of_cons. split; [intros [?|?]; [congruence|done] | by right]. }
    destruct (decide (a ∈ l)).
    + rewrite (decide_True (P := a ∈ b :: l)) by (by apply Hmem).
      repeat case_decide; simpl; try tauto; lia.
    + rewrite (decide_False (P := a ∈ b :: l)) by (by rewrite Hmem).
      repeat case_decide; simpl; try tauto; lia.
Qed.

Section CarveInvariant.
Context {G : Type}.
Variables (R C : Z).
Implicit Types (x y z root : Z * Z) (T : list ((Z * Z) * (Z * Z))).

(** The state of the carving loop in terms of the tree [T] of the passages
    carved so far: its vertices are the marked cells, its edges are the
    open walls, the stack holds every vertex that may still have an
    unmarked neighbour. *)
Record carve_inv root T (st : carve_state G) : Prop := {
  ci_tree : wf_tree root T;
  ci_nodes : ∀ x, x ∈ nodes root T ↔ in_bounds R C x ∧ marked (c_visited st) x = true;
  ci_adjacent : ∀ x y, (x, y) ∈ T → ∃ d, y = move x d;
  ci_walls : ∀ x d, in_bounds R C x →
    wallb (c_grid st) x d = false ↔ tedge T x (move x d);
  ci_stack : ∀ x, x ∈ c_stack st → x ∈ nodes root T;
  ci_done : ∀ x, x ∈ nodes root T →
    x ∈ c_stack st ∨ ∀ d, in_bounds R C (move x d) → move x d ∈ nodes root T;
  ci_count : open_flags R C (c_grid st) [Dir.S; Dir.E] = length T
}.

Lemma south_east_cases d :
  (d ∈ [Dir.S; Dir.E] ∧ (OPPOSITE d ∉ [Dir.S; Dir.E])) ∨
  ((d ∉ [Dir.S; Dir.E]) ∧ OPPOSITE d ∈ [Dir.S; Dir.E]).
Proof.
  destruct d; simpl; [right | left | left | right]; split;
    apply (bool_decide_unpack _); vm_compute; exact I.
Qed.

Lemma elem_of_flag_list x d (ds : list Dir.t) :
  (x, d) ∈ list_prod (all_cells R C) ds ↔ in_bounds R C x ∧ d ∈ ds.
Proof.
  rewrite list_elem_of_In, in_prod_iff, <- !list_elem_of_In.
  by rewrite elem_of_all_cells.
Qed.

Lemma NoDup_flag_list (ds : list Dir.t) :
  NoDup ds → NoDup (list_prod (all_cells R C) ds).
Proof. intros. apply NoDup_list_prod; [apply NoDup_all_cells | done]. Qed.

Lemma carve_step_inv root T st st' :
  carve_inv root T st → carve_step R C st st' →
  ∃ T', carve_inv root T' st' ∧
        ((length T' = Datatypes.S (length T) ∧
          length (c_stack st') = Datatypes.S (length (c_stack st)))
         ∨ (length T' = length T ∧
            Datatypes.S (length (c_stack st')) = length (c_stack st)))%nat.
Proof.
  intros [Htree Hnodes Hadj Hwalls Hstack Hdone Hcount] Hstep.
  destruct Hstep as [x below Hst Hnone Hst' Hgr Hvis | x below d Hst Hd Hst' Hgr Hvis].
  - exists T. split; [|right; rewrite Hst, Hst'; by simpl].
    split; rewrite ?Hgr, ?Hvis, ?Hst'; try done.
    + intros y Hy. apply Hstack. rewrite Hst. by right.
    + intros y Hy. destruct (decide (y = x)) as [-> | Hne].
      * right. intros d Hin. apply Hnodes. split; [done|].
        destruct (marked (c_visited st) (move x d)) eqn:Hm; [done|].
        assert (d ∈ unvisited_dirs R C (c_visited st) x) as Hmem
          by (by apply unvisited_dirs_spec).
        rewrite Hnone in Hmem. by apply elem_of_nil in Hmem.
      * destruct (Hdone y Hy) as [Hin | Hall]; [|by right].
        left. rewrite Hst in Hin. apply elem_of_cons in Hin as [? | ?]; done.
  - apply unvisited_dirs_spec in Hd as [Hy Hfresh].
    remember (move x d) as y eqn:Hyeq.
    assert (Hx : x ∈ nodes root T) by (apply Hstack; rewrite Hst; left).
    assert (Hxb : in_bounds R C x) by (by apply Hnodes).
    assert (Hynew : y ∉ nodes root T).
    { intros Hin. apply Hnodes in Hin as [_ Hin]. congruence. }
    exists ((y, x) :: T). split; [|left; by rewrite Hst, Hst'].
    split.
    + simpl. done.
    + intros z. simpl. rewrite elem_of_cons, Hnodes. split.
      * intros [-> | [Hzb Hz]].
        -- split; [done|]. rewrite Hvis by done. by rewrite decide_True.
        -- split; [done|]. rewrite Hvis by done. by case_decide.
      * intros [Hzb Hz]. rewrite Hvis in Hz by done. case_decide; [by left|by right].
    + intros a b [Heq | Hin]%elem_of_cons; [|by apply Hadj].
      injection Heq as -> ->. exists (OPPOSITE d). rewrite Hyeq. by rewrite move_opposite.
    + intros z d' Hzb. rewrite Hgr by done. unfold tedge.
      rewrite !elem_of_cons. case_decide as Hcase.
      * split; [intros _|done]. destruct Hcase as [[-> ->] | [-> ->]].
        -- right. left. by rewrite Hyeq.
        -- left. left. rewrite Hyeq. by rewrite move_opposite.
      * rewrite Hwalls by done. unfold tedge. split; [tauto|].
        intros [[Heq | Hin] | [Heq | Hin]]; try tauto.
        -- injection Heq as Hz Hm. subst z. exfalso. apply Hcase. right.
           split; [done|]. apply (move_inj y). rewrite Hm, Hyeq.
           by rewrite move_opposite.
        -- injection Heq as Hm Hz. subst z. exfalso. apply Hcase. left.
           split; [done|]. apply (move_inj x). by rewrite Hm.
    + intros z. rewrite Hst'. intros [-> | Hz]%elem_of_cons; simpl.
      * left.
      * right. apply Hstack. by rewrite Hst.
    + intros z. simpl. rewrite Hst'. intros [-> | Hz]%elem_of_cons; [left; left|].
      destruct (Hdone z Hz) as [Hin | Hall].
      * left. right. by rewrite <- Hst.
      * right. intros d' Hd'. right. by apply Hall.
    + simpl. rewrite <- Hcount. unfold open_flags.
      assert (Hclosed1 : wallb (c_grid st) x d ≠ false).
      { intros Hopen. apply Hwalls in Hopen; [|done]. rewrite <- Hyeq in Hopen.
        by destruct (tedge_nodes root T _ _ Htree Hopen). }
      assert (Hclosed2 : wallb (c_grid st) y (OPPOSITE d) ≠ false).
      { intros Hopen. apply Hwalls in Hopen; [|done].
        by destruct (tedge_nodes root T _ _ Htree Hopen). }
      destruct (south_east_cases d) as [[Hin Hout] | [Hout Hin]].
      * rewrite (filter_length_flip
                   (λ p : Z * Z * Dir.t, wallb (c_grid st) p.1 p.2 = false) _ _ (x, d)).
        -- rewrite decide_True by (by apply elem_of_flag_list). lia.
        -- apply NoDup_flag_list. apply (bool_decide_unpack _). vm_compute. exact I.
        -- intros [z d'] [Hzb Hd']%elem_of_flag_list Hne. simpl.
           rewrite Hgr by done. case_decide as Hcase; [|done].
           destruct Hcase as [[-> ->] | [-> ->]]; done.
        -- done.
        -- simpl. rewrite Hgr by done. rewrite decide_True; [done|by left].
      * rewrite (filter_length_flip
                   (λ p : Z * Z * Dir.t, wallb (c_grid st) p.1 p.2 = false) _ _
                   (y, OPPOSITE d)).
        -- rewrite decide_True by (by apply elem_of_flag_list). lia.
        -- apply NoDup_flag_list. apply (bool_decide_unpack _). vm_compute. exact I.
        -- intros [z d'] [Hzb Hd']%elem_of_flag_list Hne. simpl.
           rewrite Hgr by done. case_decide as Hcase; [|done].
           destruct Hcase as [[-> ->] | [-> ->]]; done.
        -- done.
        -- simpl. rewrite Hgr by done. rewrite decide_True; [done|by right].
Qed.

End CarveInvariant.

(** * Running the carving loop *)

Section CarveLoop.
Context {G : Type} `{RandomSource G}.
Variable fmul : Q → Q → Q.
Variable self : MazeGenerator.
Variables (R C : Z).
Hypothesis HR : rows self = R.
Hypothesis HC : cols self = C.
Implicit Types (x y z root : Z * Z) (T : list ((Z * Z) * (Z * Z)))
  (st : carve_state G).

(** A grid with every wall present. *)
Definition all_walls (gr : Grid) : Prop :=
  ∀ x d, in_bounds R C x → wallb gr x d = true.

Lemma carve_init_inv root g :
  2 ≤ R → 2 ≤ C → in_bounds R C root →
  wf_matrix R C (grid self) → all_walls (grid self) →
  ∃ st0, carve_init self root.1 root.2 g = Ok st0 ∧
         carve_wf R C st0 ∧ carve_inv R C root [] st0 ∧
         c_grid st0 = grid self ∧ c_stack st0 = [root] ∧ c_rng st0 = g ∧
         ∀ x, in_bounds R C x → marked (c_visited st0) x = bool_decide (x = root).
Proof.
  intros HR2 HC2 Hroot Hgrid Hwalls. unfold carve_init. rewrite HR, HC.
  destruct (setitem2_in_bounds R C
              (replicate (Z.to_nat R) (replicate (Z.to_nat C) false)) root true)
    as (vis & -> & Hvis & Hnew & Hold); [apply wf_matrix_replicate; lia | done |].
  rewrite bind_Ok. eexists. split; [done|].
  assert (Hmarked : ∀ x, in_bounds R C x → marked vis x = bool_decide (x = root)).
  { intros x Hx. unfold marked. case_bool_decide as Hxr.
    - subst x. by rewrite Hnew.
    - rewrite Hold by done. by rewrite at_replicate. }
  split; [|split; [|by destruct root]].
  - split; [done|]. split; [done|]. simpl. intros x Hx%list_elem_of_singleton.
    destruct root. simpl in *. by subst.
  - split; simpl.
    + done.
    + intros x. rewrite list_elem_of_singleton. split.
      * intros ->. split; [done|]. rewrite Hmarked by done. by apply bool_decide_eq_true.
      * intros [Hx Hm]. rewrite Hmarked in Hm by done. by apply bool_decide_eq_true in Hm.
    + intros x y Hin. by apply elem_of_nil in Hin.
    + intros x d Hx. rewrite Hwalls by done. split; [done|].
      intros [Hin | Hin]; by apply elem_of_nil in Hin.
    + intros x Hx%list_elem_of_singleton. subst x. destruct root. left.
    + intros x Hx%list_elem_of_singleton. subst x. left. destruct root. left.
    + unfold open_flags.
      match goal with |- length ?l = _ => destruct l as [|[x d] l'] eqn:Hl end; [done|].
      assert (Hin : (x, d) ∈ (x, d) :: l') by left.
      rewrite <- Hl in Hin. apply list_elem_of_filter in Hin as [Hopen Hin].
      apply elem_of_flag_list in Hin as [Hx _]. simpl in Hopen.
      by rewrite Hwalls in Hopen.
Qed.

(** The tree never has more vertices than the grid has cells. *)
Lemma carve_inv_size root T st :
  carve_inv R C root T st → (Datatypes.S (length T) ≤ length (all_cells R C))%nat.
Proof.
  intros Hinv. rewrite <- (nodes_length root T).
  apply submseteq_length, NoDup_submseteq.
  - apply nodes_NoDup, Hinv.
  - intros x Hx. apply elem_of_all_cells. by apply (ci_nodes _ _ _ _ _ Hinv).
Qed.

(** One iteration, with what it preserves. *)
Lemma carve_body_inv root T st x below :
  carve_wf R C st → carve_inv R C root T st → c_stack st = x :: below →
  ∃ st' T', carve_body fmul self st x.1 x.2 below = Ok st' ∧
    carve_step R C st st' ∧ carve_wf R C st' ∧ carve_inv R C root T' st' ∧
    ((length T' = Datatypes.S (length T) ∧
      length (c_stack st') = Datatypes.S (length (c_stack st)))
     ∨ (length T' = length T ∧
        Datatypes.S (length (c_stack st')) = length (c_stack st)))%nat.
Proof.
  intros Hwf Hinv Hst.
  destruct (carve_body_step fmul R C self st x below HR HC Hwf Hst)
    as (st' & Hbody & Hstep & Hwf').
  destruct (carve_step_inv R C root T st st' Hinv Hstep) as (T' & Hinv' & Hsize).
  by exists st', T'.
Qed.

(** Enough fuel lets the loop run to its exit. *)
Lemma carve_loop_inv fuel root T st :
  carve_wf R C st → carve_inv R C root T st →
  (length (c_stack st) + 2 * (length (all_cells R C) - Datatypes.S (length T)) ≤ fuel)%nat →
  ∃ st' T', carve_loop fmul fuel self st = Ok st' ∧
    carve_wf R C st' ∧ carve_inv R C root T' st' ∧ c_stack st' = [].
Proof.
  revert T st. induction fuel as [|fuel IH]; intros T st Hwf Hinv Hfuel.
  - destruct (c_stack st) as [|x below] eqn:Hst; [|simpl in Hfuel; lia].
    exists st, T. simpl. by rewrite Hst.
  - destruct (c_stack st) as [|[r c] below] eqn:Hst.
    + exists st, T. simpl. by rewrite Hst.
    + cbn [carve_loop]. rewrite Hst.
      destruct (carve_body_inv root T st (r, c) below Hwf Hinv Hst)
        as (st' & T' & Hbody & _ & Hwf' & Hinv' & Hsize).
      simpl in Hbody. rewrite Hbody, bind_Ok.
      apply (IH T' st' Hwf' Hinv').
      pose proof (carve_inv_size root T' st' Hinv').
      pose proof (carve_inv_size root T st Hinv).
      rewrite Hst in Hsize. simpl in Hfuel, Hsize. lia.
Qed.

End CarveLoop.

(** * Walks and cycles *)

Section Graph.
Context {V : Type}.
Variable E : V → V → Prop.

(** [walk x y n]: [y] is reached from [x] along [n] edges. *)
Inductive walk : V → V → nat → Prop :=
  | walk_here x : walk x x O
  | walk_step x y z n : E x y → walk y z n → walk x z (Datatypes.S n).

(** [is_dist x y n]: [n] is the length of a shortest walk from [x] to [y]. *)
Definition is_dist (x y : V) (n : nat) : Prop :=
  walk x y n ∧ ∀ m, walk x y m → (n ≤ m)%nat.

(** Index of the vertex that follows the one at index [i] on a cycle of
    [n] vertices. *)
Definition cyclic_succ (n i : nat) : nat :=
  if decide (Datatypes.S i = n) then O else Datatypes.S i.

(** A simple cycle: at least three distinct vertices, each linked to the
    next one and the last one to the first. *)
Definition cycle (l : list V) : Prop :=
  NoDup l ∧ (3 ≤ length l)%nat ∧
  ∀ i a b, l !! i = Some a → l !! cyclic_succ (length l) i = Some b → E a b.

Definition connected (P : V → Prop) : Prop :=
  ∀ x y, P x → P y → ∃ n, walk x y n.

Definition acyclic : Prop := ∀ l, ¬ cycle l.

End Graph.

Lemma walk_impl {V} (E E' : V → V → Prop) x y n :
  (∀ a b, E a b → E' a b) → walk E x y n → walk E' x y n.
Proof.
  intros Himpl. induction 1 as [|x y z n Hxy Hw IH]; [constructor|].
  eapply walk_step; [by apply Himpl | done].
Qed.

Lemma is_dist_iff {V} (E E' : V → V → Prop) x y n :
  (∀ a b, E a b ↔ E' a b) → is_dist E x y n → is_dist E' x y n.
Proof.
  intros Hiff [Hw Hmin]. split.
  - apply (walk_impl E); [|done]. intros a b. apply Hiff.
  - intros m Hm. apply Hmin. apply (walk_impl E'); [|done]. intros a b. apply Hiff.
Qed.

Lemma cycle_impl {V} (E E' : V → V → Prop) l :
  (∀ a b, E a b → E' a b) → cycle E l → cycle E' l.
Proof. intros Himpl (Hnd & Hlen & Hedges). repeat split; eauto. Qed.

Section TreeGraph.
Context {V : Type} `{EqDecision V}.
Implicit Types (T : list (V * V)) (x y z root : V).

Lemma tree_walk root T x y :
  wf_tree root T → x ∈ nodes root T → y ∈ nodes root T →
  walk (tedge T) x y (tdist T x y).
Proof.
  intros Hwf Hx Hy. remember (tdist T x y) as n eqn:Hn.
  revert x Hx Hn. induction n as [|n IH]; intros x Hx Hn.
  - assert (x = y) as -> by (by apply (tdist_zero root T)). constructor.
  - assert (Hne : x ≠ y) by (intros ->; rewrite tdist_refl in Hn; lia).
    destruct (tdist_closer root T x y Hwf Hx Hy Hne) as (z & Hxz & Hz & Hd).
    eapply walk_step; [done|]. apply IH; [done | lia].
Qed.

Lemma tree_walk_lower_bound root T x y n :
  wf_tree root T → walk (tedge T) x y n → (tdist T x y ≤ n)%nat.
Proof.
  intros Hwf. induction 1 as [x | x y z n Hxy Hw IH].
  - by rewrite tdist_refl.
  - pose proof (tdist_triangle T x z y). pose proof (tdist_edge root T x y Hwf Hxy). lia.
Qed.

Lemma tree_is_dist root T x y :
  wf_tree root T → x ∈ nodes root T → y ∈ nodes root T →
  is_dist (tedge T) x y (tdist T x y).
Proof.
  intros Hwf Hx Hy. split; [by apply (tree_walk root) |].
  intros m Hm. by apply (tree_walk_lower_bound root).
Qed.

Lemma is_dist_unique (E : V → V → Prop) x y n m :
  is_dist E x y n → is_dist E x y m → n = m.
Proof. intros [Hn Hmin] [Hm Hmin']. apply Nat.le_antisymm; auto. Qed.

Lemma tree_acyclic root T : wf_tree root T → acyclic (tedge T).
Proof.
  induction T as [|[v u] T IH]; intros Hwf l (Hnd & Hlen & Hedges).
  - destruct l as [|a [|b l]]; simpl in Hlen; [lia..|].
    destruct (Hedges O a b) as [Hin | Hin]; [done | done | |];
      by apply elem_of_nil in Hin.
  - destruct Hwf as (Hu & Hv & Hwf).
    assert (Hvedge : ∀ a, tedge ((v, u) :: T) v a ∨ tedge ((v, u) :: T) a v → a = u).
    { intros a Hva.
      assert (tedge ((v, u) :: T) v a) as [Hin | Hin]
        by (destruct Hva; [done | by apply tedge_sym]).
      - apply elem_of_cons in Hin as [[=] | Hin]; [done|].
        destruct (tedge_nodes root T v a Hwf (or_introl Hin)). contradiction.
      - apply elem_of_cons in Hin as [[=] | Hin]; [by subst|].
        destruct (tedge_nodes root T a v Hwf (or_introl Hin)). contradiction. }
    destruct (decide (v ∈ l)) as [Hin | Hnin].
    + apply list_elem_of_lookup in Hin as [i Hi].
      pose proof (lookup_lt_Some _ _ _ Hi) as Hilt.
      set (j1 := cyclic_succ (length l) i).
      set (j2 := match i with O => (length l - 1)%nat | Datatypes.S i' => i' end).
      assert (Hj1 : (j1 < length l)%nat) by (unfold j1, cyclic_succ; case_decide; lia).
      assert (Hj2 : (j2 < length l)%nat) by (unfold j2; destruct i; lia).
      assert (Hj2i : cyclic_succ (length l) j2 = i).
      { unfold j2, cyclic_succ. destruct i; case_decide; lia. }
      assert (Hne : j1 ≠ j2).
      { unfold j1, j2, cyclic_succ. destruct i; case_decide; lia. }
      destruct (lookup_lt_is_Some_2 l j1 Hj1) as [b Hb].
      destruct (lookup_lt_is_Some_2 l j2 Hj2) as [a Ha].
      assert (b = u) as -> by (apply Hvedge; left; by apply (Hedges i)).
      assert (a = u) as ->.
      { apply Hvedge. right. apply (Hedges j2); [done | by rewrite Hj2i]. }
      apply Hne. by apply (NoDup_lookup l j1 j2 u).
    + apply (IH Hwf l). split; [done|]. split; [done|].
      intros i a b Ha Hb.
      assert (a ≠ v) by (intros ->; apply Hnin; by eapply list_elem_of_lookup_2).
      assert (b ≠ v) by (intros ->; apply Hnin; by eapply list_elem_of_lookup_2).
      destruct (Hedges i a b Ha Hb) as [Hin | Hin];
        apply elem_of_cons in Hin as [[=] | Hin]; try done; [by left | by right].
Qed.

End TreeGraph.

(** * Grids whose open walls are the edges of a tree *)

(** There is an open wall of [x] toward the adjacent cell [y] of the grid. *)
Definition linked (R C : Z) (gr : Grid) (x y : Z * Z) : Prop :=
  in_bounds R C x ∧ in_bounds R C y ∧ ∃ d, y = move x d ∧ wallb gr x d = false.

(** Walls agree on their two sides. *)
Definition wall_symmetric (R C : Z) (gr : Grid) : Prop :=
  ∀ x d, in_bounds R C x → in_bounds R C (move x d) →
    wallb gr x d = wallb gr (move x d) (OPPOSITE d).

(** The walls on the outer boundary are present. *)
Definition boundary_closed (R C : Z) (gr : Grid) : Prop :=
  ∀ x d, in_bounds R C x → ¬ in_bounds R C (move x d) → wallb gr x d = true.

Record wall_tree (R C : Z) (gr : Grid) (root : Z * Z)
    (T : list ((Z * Z) * (Z * Z))) : Prop := {
  wt_wf : wf_matrix R C gr;
  wt_tree : wf_tree root T;
  wt_nodes : ∀ x, x ∈ nodes root T → in_bounds R C x;
  wt_adjacent : ∀ x y, (x, y) ∈ T → ∃ d, y = move x d;
  wt_walls : ∀ x d, in_bounds R C x → wallb gr x d = false ↔ tedge T x (move x d);
  wt_count : open_flags R C gr [Dir.S; Dir.E] = length T
}.

Definition spanning (R C : Z) (root : Z * Z) (T : list ((Z * Z) * (Z * Z))) : Prop :=
  ∀ x, in_bounds R C x → x ∈ nodes root T.

Section WallTree.
Variables (R C : Z) (gr : Grid) (root : Z * Z) (T : list ((Z * Z) * (Z * Z))).
Hypothesis Hwt : wall_tree R C gr root T.

Lemma wall_tree_adjacent x y : tedge T x y → ∃ d, y = move x d.
Proof.
  intros [Hin | Hin].
  - by apply (wt_adjacent _ _ _ _ _ Hwt).
  - destruct (wt_adjacent _ _ _ _ _ Hwt y x Hin) as [d ->].
    exists (OPPOSITE d). by rewrite move_opposite.
Qed.

Lemma wall_tree_linked x y : linked R C gr x y ↔ tedge T x y.
Proof.
  split.
  - intros (Hx & Hy & d & -> & Hopen). by apply (wt_walls _ _ _ _ _ Hwt).
  - intros Hedge.
    destruct (tedge_nodes root T x y (wt_tree _ _ _ _ _ Hwt) Hedge) as [Hx Hy].
    apply (wt_nodes _ _ _ _ _ Hwt) in Hx, Hy.
    destruct (wall_tree_adjacent x y Hedge) as [d ->].
    split; [done|]. split; [done|]. exists d. split; [done|].
    by apply (wt_walls _ _ _ _ _ Hwt).
Qed.

Lemma wall_tree_symmetric : wall_symmetric R C gr.
Proof.
  intros x d Hx Hy.
  assert (wallb gr x d = false ↔ wallb gr (move x d) (OPPOSITE d) = false) as Hiff.
  { rewrite !(wt_walls _ _ _ _ _ Hwt) by done. rewrite move_opposite.
    split; apply tedge_sym. }
  destruct (wallb gr x d), (wallb gr (move x d) (OPPOSITE d)); try done.
  - by destruct Hiff as [_ ->].
  - by destruct Hiff as [-> _].
Qed.

Lemma wall_tree_boundary : boundary_closed R C gr.
Proof.
  intros x d Hx Hout. destruct (wallb gr x d) eqn:Hw; [done|].
  apply (wt_walls _ _ _ _ _ Hwt) in Hw; [|done].
  destruct (tedge_nodes root T _ _ (wt_tree _ _ _ _ _ Hwt) Hw) as [_ Hy].
  by apply (wt_nodes _ _ _ _ _ Hwt) in Hy.
Qed.

Lemma wall_tree_acyclic : acyclic (linked R C gr).
Proof.
  intros l Hcycle. apply (tree_acyclic root T (wt_tree _ _ _ _ _ Hwt) l).
  apply (cycle_impl (linked R C gr)); [|done]. intros a b. apply wall_tree_linked.
Qed.

Lemma wall_tree_pairs : open_wall_pairs R C gr = length T.
Proof.
  rewrite <- (wt_count _ _ _ _ _ Hwt). unfold open_wall_pairs, open_flags.
  f_equal. apply filter_ext_in.
  intros [x d] Hin. apply list_elem_of_In, in_prod_iff in Hin as [Hx _].
  apply list_elem_of_In, elem_of_all_cells in Hx.
  unfold open_pair. simpl. split; [tauto|]. intros Hopen.
  assert (Hy : in_bounds R C (move x d)).
  { destruct (decide (in_bounds R C (move x d))) as [|Hout]; [done|].
    rewrite wall_tree_boundary in Hopen; done. }
  split; [done|]. split; [done|]. by rewrite <- wall_tree_symmetric.
Qed.

Hypothesis Hspan : spanning R C root T.

Lemma wall_tree_connected : connected (linked R C gr) (in_bounds R C).
Proof.
  intros x y Hx Hy. exists (tdist T x y).
  apply (walk_impl (tedge T)); [intros a b; apply wall_tree_linked|].
  apply (tree_walk root); [apply Hwt | by apply Hspan..].
Qed.

Lemma wall_tree_is_dist x y :
  in_bounds R C x → in_bounds R C y → is_dist (linked R C gr) x y (tdist T x y).
Proof.
  intros Hx Hy. apply (is_dist_iff (tedge T)).
  - intros a b. symmetry. apply wall_tree_linked.
  - apply (tree_is_dist root); [apply Hwt | by apply Hspan..].
Qed.

Lemma wall_tree_edge_count :
  0 ≤ R → 0 ≤ C → Z.of_nat (open_wall_pairs R C gr) = R * C - 1.
Proof.
  intros HR HC. rewrite wall_tree_pairs, <- length_all_cells by done.
  assert (length (all_cells R C) = length (nodes root T)) as ->; [|rewrite nodes_length; lia].
  apply Nat.le_antisymm; apply submseteq_length, NoDup_submseteq.
  - apply NoDup_all_cells.
  - intros x Hx. apply Hspan. by apply elem_of_all_cells.
  - apply nodes_NoDup, Hwt.
  - intros x Hx. apply elem_of_all_cells. by apply (wt_nodes _ _ _ _ _ Hwt).
Qed.

End WallTree.

Section CarveFinal.
Context {G : Type}.
Variables (R C : Z).

Lemma carve_inv_wall_tree root T (st : carve_state G) :
  carve_wf R C st → carve_inv R C root T st → wall_tree R C (c_grid st) root T.
Proof.
  intros (Hgrid & _ & _) Hinv. split; [done | apply Hinv | | apply Hinv..].
  intros x Hx. by apply Hinv.
Qed.

(** When the stack is empty every cell has been reached. *)
Lemma carve_inv_spanning root T (st : carve_state G) :
  carve_inv R C root T st → c_stack st = [] → spanning R C root T.
Proof.
  intros Hinv Hempty.
  assert (Hroot : in_bounds R C root).
  { apply (ci_nodes _ _ _ _ _ Hinv). apply nodes_root. }
  assert (Hclosed : ∀ z d, z ∈ nodes root T → in_bounds R C (move z d) →
                           move z d ∈ nodes root T).
  { intros z d Hz Hin. destruct (ci_done _ _ _ _ _ Hinv z Hz) as [Hst | Hall]; [|auto].
    rewrite Hempty in Hst. by apply elem_of_nil in Hst. }
  assert (Hind : ∀ n x, in_bounds R C x →
            Z.abs (x.1 - root.1) + Z.abs (x.2 - root.2) = Z.of_nat n →
            x ∈ nodes root T).
  { induction n as [|n IH]; intros [r c] [Hr Hc] Hn; simpl in *.
    - assert ((r, c) = root) as -> by (destruct root; simpl in *; f_equal; lia).
      apply nodes_root.
    - destruct root as [r0 c0] eqn:Hroot0. simpl in *. destruct Hroot as [Hr0 Hc0].
      simpl in *.
      assert (∃ d, in_bounds R C (move (r, c) d) ∧
                Z.abs ((move (r, c) d).1 - r0) + Z.abs ((move (r, c) d).2 - c0)
                = Z.of_nat n) as (d & Hin & Hdist).
      { destruct (Z.lt_trichotomy r r0) as [Hlt | [Heq | Hgt]].
        - exists Dir.S. unfold in_bounds, move. simpl. lia.
        - destruct (Z.lt_trichotomy c c0) as [Hlt | [Heq' | Hgt]].
          + exists Dir.E. unfold in_bounds, move. simpl. lia.
          + lia.
          + exists Dir.W. unfold in_bounds, move. simpl. lia.
        - exists Dir.N. unfold in_bounds, move. simpl. lia. }
      rewrite <- (move_opposite (r, c) d). apply Hclosed.
      + by apply IH.
      + rewrite move_opposite. done. }
  intros x Hx. by eapply (Hind (Z.to_nat (Z.abs (x.1 - root.1) + Z.abs (x.2 - root.2)))); [|lia].
Qed.

End CarveFinal.

(** * The breadth-first search on a tree of walls *)

(** The entry of the distance matrix for cell [x]. *)
Definition dval (dist : list (list Z)) (x : Z * Z) : Z :=
  match at_ dist x with
  | Some k => k
  | None => -1
  end.

(** Number of cells that have been given a distance. *)
Definition discovered (R C : Z) (dist : list (list Z)) : nat :=
  length (filter (λ x, dval dist x ≠ -1) (all_cells R C)).

Section Bfs.
Variables (R C : Z) (gr : Grid) (root : Z * Z) (T : list ((Z * Z) * (Z * Z))).
Hypothesis Hwt : wall_tree R C gr root T.
Hypothesis Hspan : spanning R C root T.
Variable s : Z * Z.
Implicit Types (x y z far : Z * Z) (dist : list (list Z)) (q : list (Z * Z))
  (parent : gmap (Z * Z) (Z * Z)).

(** What one pass of the inner [for] loop does for direction [d] of the cell
    [x] being expanded. *)
Definition visit_rel x (d : Dir.t)
    (σ σ' : list (list Z) * gmap (Z * Z) (Z * Z) * list (Z * Z)) : Prop :=
  ((wallb gr x d = true ∨ dval σ.1.1 (move x d) ≠ -1) ∧ σ' = σ) ∨
  (wallb gr x d = false ∧ in_bounds R C (move x d) ∧ dval σ.1.1 (move x d) = -1 ∧
   wf_matrix R C σ'.1.1 ∧
   (∀ z, in_bounds R C z →
      dval σ'.1.1 z = if decide (z = move x d) then dval σ.1.1 x + 1 else dval σ.1.1 z) ∧
   σ'.1.2 = <[move x d := x]> σ.1.2 ∧ σ'.2 = σ.2 ++ [move x d]).

Lemma bfs_visit_spec x d dist parent q :
  wf_matrix R C dist → in_bounds R C x →
  ∃ σ', bfs_visit gr x.1 x.2 (Ok (dist, parent, q)) (d, DIR_VEC d) = Ok σ' ∧
        visit_rel x d (dist, parent, q) σ'.
Proof.
  intros Hdist Hx. unfold bfs_visit. rewrite bind_Ok.
  destruct (DIR_VEC d) as [dr dc] eqn:Hd.
  assert (Hmove : move x d = (x.1 + dr, x.2 + dc)) by (unfold move; by rewrite Hd).
  destruct (getitem2_in_bounds R C gr x (wt_wf _ _ _ _ _ Hwt) Hx) as (cl & Hcl & ->).
  rewrite bind_Ok.
  assert (Hwall : wallb gr x d = cell_get cl d) by (unfold wallb; by rewrite Hcl).
  destruct (cell_get cl d) eqn:Hcell.
  - eexists. split; [done|]. left. split; [by left | done].
  - assert (Hy : in_bounds R C (move x d)).
    { destruct (decide (in_bounds R C (move x d))) as [|Hout]; [done|].
      rewrite (wall_tree_boundary R C gr root T Hwt x d Hx Hout) in Hwall. done. }
    destruct (getitem2_in_bounds R C dist (move x d) Hdist Hy) as (dn & Hdn & Hget).
    rewrite Hmove in Hget. simpl in Hget. rewrite Hget, bind_Ok.
    assert (Hdval : dval dist (move x d) = dn) by (unfold dval; by rewrite Hdn).
    destruct (Z.eqb_spec dn (-1)) as [Heq | Hne].
    + destruct (getitem2_in_bounds R C dist x Hdist Hx) as (dx & Hdx & ->).
      rewrite bind_Ok.
      destruct (setitem2_in_bounds R C dist (move x d) (dx + 1) Hdist Hy)
        as (dist' & Hset & Hwf' & Hnew & Hold).
      rewrite Hmove in Hset. simpl in Hset. rewrite Hset, bind_Ok.
      eexists. split; [done|]. right. simpl.
      split; [done|]. split; [done|]. split; [congruence|]. split; [done|].
      split; [|rewrite Hmove; by destruct x].
      intros z Hz. unfold dval. case_decide as Hzy.
      * subst z. by rewrite Hnew, Hdx.
      * by rewrite Hold.
    + eexists. split; [done|]. left. split; [right; simpl; congruence | done].
Qed.

(** The state of the search in terms of the tree: recorded distances are
    tree distances from [s]; [pending x d] marks the directions of the cell
    being expanded that have not been looked at yet. *)
Record bfs_inv (pending : Z * Z → Dir.t → Prop) dist q far : Prop := {
  bi_wf : wf_matrix R C dist;
  bi_dist : ∀ x, in_bounds R C x → dval dist x ≠ -1 →
    dval dist x = Z.of_nat (tdist T s x);
  bi_source : in_bounds R C s ∧ dval dist s ≠ -1;
  bi_pred : ∀ x y, in_bounds R C x → dval dist x ≠ -1 → tedge T x y →
    Datatypes.S (tdist T s y) = tdist T s x → dval dist y ≠ -1;
  bi_queue : ∀ x, x ∈ q → in_bounds R C x ∧ dval dist x ≠ -1;
  bi_open : ∀ x d, in_bounds R C x → dval dist x ≠ -1 → wallb gr x d = false →
    dval dist (move x d) ≠ -1 ∨ x ∈ q ∨ pending x d;
  bi_far : in_bounds R C far ∧ dval dist far ≠ -1;
  bi_max : ∀ x, in_bounds R C x → dval dist x ≠ -1 → x ∉ q →
    dval dist x ≤ dval dist far
}.

Lemma bfs_inv_visit x d ds dist parent q far σ' :
  in_bounds R C x → dval dist x ≠ -1 →
  bfs_inv (λ x' d', x' = x ∧ d' ∈ d :: ds) dist q far →
  visit_rel x d (dist, parent, q) σ' →
  bfs_inv (λ x' d', x' = x ∧ d' ∈ ds) σ'.1.1 σ'.2 far ∧
  dval σ'.1.1 x ≠ -1 ∧
  (length σ'.2 + (length (all_cells R C) - discovered R C σ'.1.1)
   = length q + (length (all_cells R C) - discovered R C dist))%nat.
Proof.
  intros Hx Hdx [Hwf Hdist [Hs Hsrc] Hpred Hqueue Hopen [Hfar Hfard] Hmax] Hrel.
  destruct Hrel as [[Hskip ->] | (Hwall & Hy & Hnew & Hwf' & Hval & Hpar & Hq)]; simpl.
  - split; [|done]. split; try done.
    intros x' d' Hx' Hdx' Hw. destruct (Hopen x' d' Hx' Hdx' Hw) as [?|[?|[-> Hd']]];
      [by left | by right; left |].
    apply elem_of_cons in Hd' as [-> | Hd']; [|by right; right].
    left. destruct Hskip as [Hskip | Hskip]; [congruence | done].
  - destruct σ' as [[dist' parent'] q']. simpl in *. subst q'.
    set (y := move x d) in *.
    assert (Hedge : tedge T x y) by (by apply (wt_walls _ _ _ _ _ Hwt)).
    assert (Hkeep : ∀ z, in_bounds R C z → dval dist z ≠ -1 → dval dist' z = dval dist z).
    { intros z Hz Hdz. rewrite Hval by done. case_decide; [subst; congruence | done]. }
    assert (Hgrow : ∀ z, in_bounds R C z → dval dist z ≠ -1 → dval dist' z ≠ -1).
    { intros z Hz Hdz. by rewrite Hkeep. }
    assert (Hynew : dval dist' y = dval dist x + 1).
    { rewrite Hval by done. by rewrite decide_True. }
    assert (Hdisty : tdist T s y = Datatypes.S (tdist T s x)).
    { destruct (tdist_edge_step root T x y s (wt_tree _ _ _ _ _ Hwt) Hedge) as [? | Hback];
        [done|].
      exfalso. by apply (Hpred x y Hx Hdx Hedge). }
    assert (Hcases : ∀ z, in_bounds R C z → dval dist' z ≠ -1 → z = y ∨ dval dist z ≠ -1).
    { intros z Hz Hdz. rewrite Hval in Hdz by done. case_decide; [by left | by right]. }
    split; [split|split].
    + done.
    + intros z Hz Hdz. destruct (Hcases z Hz Hdz) as [-> | Hold].
      * rewrite Hynew, Hdist by done. lia.
      * rewrite Hkeep by done. by apply Hdist.
    + split; [done | by apply Hgrow].
    + intros z w Hz Hdz Hzw Hback. destruct (Hcases z Hz Hdz) as [-> | Hold].
      * assert (w = x) as ->; [|by apply Hgrow].
        apply (tdist_pred_unique root T s y w x); [apply Hwt | done | by apply tedge_sym | done |].
        by rewrite Hdisty.
      * assert (dval dist w ≠ -1) as Hw by (by apply (Hpred z w)).
        apply Hgrow; [|done].
        apply (wt_nodes _ _ _ _ _ Hwt).
        by destruct (tedge_nodes root T z w (wt_tree _ _ _ _ _ Hwt) Hzw).
    + intros z [Hz | ->%list_elem_of_singleton]%elem_of_app.
      * destruct (Hqueue z Hz). split; [done | by apply Hgrow].
      * split; [done|]. rewrite Hynew. rewrite Hdist by done. lia.
    + intros z d' Hz Hdz Hw. destruct (Hcases z Hz Hdz) as [-> | Hold].
      * right. left. apply elem_of_app. right. by apply list_elem_of_singleton.
      * destruct (Hopen z d' Hz Hold Hw) as [Hd | [Hin | [-> Hd']]].
        -- left. apply Hgrow; [|done].
           destruct (decide (in_bounds R C (move z d'))) as [|Hout]; [done|].
           rewrite (wall_tree_boundary R C gr root T Hwt z d' Hz Hout) in Hw. done.
        -- right. left. apply elem_of_app. by left.
        -- apply elem_of_cons in Hd' as [-> | Hd']; [|by right; right].
           left. fold y. rewrite Hynew, Hdist by done. lia.
    + split; [done | by apply Hgrow].
    + intros z Hz Hdz Hzq. destruct (Hcases z Hz Hdz) as [-> | Hold].
      * exfalso. apply Hzq. apply elem_of_app. right. by apply list_elem_of_singleton.
      * rewrite !Hkeep by done. apply Hmax; [done..|].
        intros Hin. apply Hzq. apply elem_of_app. by left.
    + by apply Hgrow.
    + rewrite length_app. simpl.
      assert (Hcount : discovered R C dist' = Datatypes.S (discovered R C dist)).
      { unfold discovered.
        rewrite (filter_length_flip (λ z, dval dist z ≠ -1) _ _ y).
        - rewrite decide_True by (by apply elem_of_all_cells). lia.
        - apply NoDup_all_cells.
        - intros z Hz%elem_of_all_cells Hne. rewrite Hval by done.
          by rewrite decide_False.
        - by intros ?.
        - rewrite Hynew, Hdist by done. lia. }
      assert (discovered R C dist' ≤ length (all_cells R C))%nat by apply length_filter.
      lia.
Qed.

Lemma bfs_inv_pending (p p' : Z * Z → Dir.t → Prop) dist q far :
  (∀ x d, p x d → p' x d) → bfs_inv p dist q far → bfs_inv p' dist q far.
Proof.
  intros Himpl [Hwf Hdist Hsrc Hpred Hqueue Hopen Hfar Hmax]. split; try done.
  intros x d Hx Hdx Hw. destruct (Hopen x d Hx Hdx Hw) as [?|[?|?]]; auto.
Qed.

(** The whole inner [for] loop. *)
Lemma bfs_fold_inv x ds dist parent q far :
  in_bounds R C x → dval dist x ≠ -1 →
  bfs_inv (λ x' d', x' = x ∧ d' ∈ ds) dist q far →
  ∃ dist' parent' q',
    foldl (bfs_visit gr x.1 x.2) (Ok (dist, parent, q)) ((λ d, (d, DIR_VEC d)) <$> ds)
      = Ok (dist', parent', q') ∧
    bfs_inv (λ _ _, False) dist' q' far ∧
    (length q' + (length (all_cells R C) - discovered R C dist')
     = length q + (length (all_cells R C) - discovered R C dist))%nat.
Proof.
  intros Hx. revert dist parent q.
  induction ds as [|d ds IH]; intros dist parent q Hdx Hinv.
  - exists dist, parent, q. split; [done|]. split; [|done].
    apply (bfs_inv_pending (λ x' d', x' = x ∧ d' ∈ [])); [|done].
    intros x' d' [_ Hd']. by apply elem_of_nil in Hd'.
  - rewrite fmap_cons. cbn [foldl].
    destruct (bfs_visit_spec x d dist parent q (bi_wf _ _ _ _ Hinv) Hx) as (σ' & -> & Hrel).
    destruct (bfs_inv_visit x d ds dist parent q far σ' Hx Hdx Hinv Hrel)
      as (Hinv' & Hdx' & Hmeasure).
    destruct σ' as [[dist1 parent1] q1]. simpl in *.
    destruct (IH dist1 parent1 q1 Hdx' Hinv') as (dist' & parent' & q' & Hfold & Hinv'' & Hm).
    exists dist', parent', q'. split; [done|]. split; [done|]. lia.
Qed.

(** One iteration of [while q:]. *)
Lemma bfs_body_inv st x rest :
  b_q st = x :: rest →
  bfs_inv (λ _ _, False) (b_dist st) (b_q st) (b_farthest st) →
  ∃ st', bfs_body gr st x.1 x.2 rest = Ok st' ∧
    bfs_inv (λ _ _, False) (b_dist st') (b_q st') (b_farthest st') ∧
    (Datatypes.S (length (b_q st') + (length (all_cells R C) - discovered R C (b_dist st')))
     = length (b_q st) + (length (all_cells R C) - discovered R C (b_dist st)))%nat.
Proof.
  intros Hq Hinv. unfold bfs_body.
  pose proof Hinv as [Hwf Hdist Hsrc Hpred Hqueue Hopen [Hfar Hfard] Hmax].
  destruct (Hqueue x) as [Hx Hdx]; [rewrite Hq; left|].
  destruct (getitem2_in_bounds R C (b_dist st) (b_farthest st) Hwf Hfar) as (kf & Hkf & ->).
  rewrite bind_Ok.
  destruct (getitem2_in_bounds R C (b_dist st) x Hwf Hx) as (kc & Hkc & ->).
  rewrite bind_Ok.
  assert (Hkf' : dval (b_dist st) (b_farthest st) = kf) by (unfold dval; by rewrite Hkf).
  assert (Hkc' : dval (b_dist st) x = kc) by (unfold dval; by rewrite Hkc).
  set (far := if kf <? kc then (x.1, x.2) else b_farthest st).
  assert (Hfar' : in_bounds R C far ∧ dval (b_dist st) far ≠ -1 ∧
                  kf ≤ dval (b_dist st) far ∧ kc ≤ dval (b_dist st) far).
  { unfold far. destruct (Z.ltb_spec kf kc); destruct x; simpl in *.
    - split; [done|]. split; [done|]. rewrite Hkc'. lia.
    - split; [done|]. split; [done|]. rewrite Hkf'. lia. }
  destruct Hfar' as (Hfar1 & Hfar2 & Hfar3 & Hfar4).
  destruct (bfs_fold_inv x [Dir.N; Dir.S; Dir.E; Dir.W] (b_dist st) (b_parent st) rest far Hx Hdx)
    as (dist' & parent' & q' & Hfold & Hinv' & Hm).
  { split; try done.
    - intros z Hz. apply Hqueue. rewrite Hq. by right.
    - intros z d Hz Hdz Hw. destruct (Hopen z d Hz Hdz Hw) as [?|[Hin|?]]; [by left | | done].
      rewrite Hq in Hin. apply elem_of_cons in Hin as [-> | Hin]; [|by right; left].
      right. right. split; [done|]. destruct d; repeat constructor.
    - intros z Hz Hdz Hzq. destruct (decide (z = x)) as [-> | Hne]; [lia|].
      etrans; [apply Hmax; try done|lia].
      rewrite Hq. intros [?|?]%elem_of_cons; done. }
  change DIR_VEC_items with ((λ d, (d, DIR_VEC d)) <$> [Dir.N; Dir.S; Dir.E; Dir.W]).
  rewrite Hfold, bind_Ok. eexists. split; [done|]. simpl. split; [done|].
  rewrite Hq. simpl. lia.
Qed.

Lemma bfs_loop_inv fuel st :
  bfs_inv (λ _ _, False) (b_dist st) (b_q st) (b_farthest st) →
  (length (b_q st) + (length (all_cells R C) - discovered R C (b_dist st)) ≤ fuel)%nat →
  ∃ st', bfs_loop fuel gr st = Ok st' ∧ b_q st' = [] ∧
         bfs_inv (λ _ _, False) (b_dist st') (b_q st') (b_farthest st').
Proof.
  revert st. induction fuel as [|fuel IH]; intros st Hinv Hfuel.
  - destruct (b_q st) as [|x rest] eqn:Hq; [|simpl in Hfuel; lia].
    rewrite <- Hq in Hinv. exists st. simpl. split; [by rewrite Hq | done].
  - destruct (b_q st) as [|[r c] rest] eqn:Hq; rewrite <- Hq in Hinv.
    + exists st. simpl. split; [by rewrite Hq | done].
    + cbn [bfs_loop]. rewrite Hq.
      destruct (bfs_body_inv st (r, c) rest Hq Hinv) as (st' & Hbody & Hinv' & Hm).
      simpl in Hbody. rewrite Hbody, bind_Ok. apply IH; [done|].
      rewrite Hq in Hm. simpl in *. lia.
Qed.

Lemma bfs_run_inv n st :
  bfs_inv (λ _ _, False) (b_dist st) (b_q st) (b_farthest st) →
  ∃ st', bfs_run n gr st = Ok st' ∧
         bfs_inv (λ _ _, False) (b_dist st') (b_q st') (b_farthest st').
Proof.
  revert st. induction n as [|n IH]; intros st Hinv; [by exists st|].
  cbn [bfs_run]. destruct (b_q st) as [|[r c] rest] eqn:Hq; rewrite <- Hq in Hinv;
    [by exists st|].
  destruct (bfs_body_inv st (r, c) rest Hq Hinv) as (st' & Hbody & Hinv' & _).
  simpl in Hbody. rewrite Hbody, bind_Ok. by apply IH.
Qed.

(** When the queue is empty every cell carries its distance from [s] and
    [far] is a farthest cell. *)
Lemma bfs_inv_final dist far :
  bfs_inv (λ _ _, False) dist [] far →
  in_bounds R C far ∧
  ∀ x, in_bounds R C x →
    dval dist x = Z.of_nat (tdist T s x) ∧ (tdist T s x ≤ tdist T s far)%nat.
Proof.
  intros [Hwf Hdist [Hs Hsrc] Hpred Hqueue Hopen [Hfar Hfard] Hmax].
  assert (Hall : ∀ n x, in_bounds R C x → tdist T x s = n → dval dist x ≠ -1).
  { induction n as [|n IH]; intros x Hx Hn.
    - assert (x = s) as -> by
        (apply (tdist_zero root T); [apply Hwt | by apply Hspan.. | done]).
      done.
    - assert (Hne : x ≠ s) by (intros ->; rewrite tdist_refl in Hn; lia).
      destruct (tdist_closer root T x s (wt_tree _ _ _ _ _ Hwt)) as (z & Hxz & Hz & Hd);
        [by apply Hspan.. | done |].
      apply (wt_nodes _ _ _ _ _ Hwt) in Hz.
      assert (Hdz : dval dist z ≠ -1) by (apply IH; [done | lia]).
      apply tedge_sym in Hxz.
      destruct (wall_tree_adjacent R C gr root T Hwt z x Hxz) as [d ->].
      apply (wt_walls _ _ _ _ _ Hwt) in Hxz; [|done].
      destruct (Hopen z d Hz Hdz Hxz) as [? | [Hin | []]]; [done|].
      by apply elem_of_nil in Hin. }
  split; [done|]. intros x Hx.
  assert (Hdx : dval dist x ≠ -1) by (by eapply Hall).
  split; [by apply Hdist|].
  assert (dval dist x ≤ dval dist far) as Hle.
  { apply Hmax; [done..|]. intros Hin. by apply elem_of_nil in Hin. }
  rewrite !Hdist in Hle by done. lia.
Qed.

End Bfs.

(** * The search and the carving as a whole *)

Section BfsWhole.
Variables (R C : Z) (self : MazeGenerator) (root : Z * Z)
  (T : list ((Z * Z) * (Z * Z))).
Hypothesis HR : rows self = R.
Hypothesis HC : cols self = C.
Hypothesis Hwt : wall_tree R C (grid self) root T.
Hypothesis Hspan : spanning R C root T.

Lemma bfs_init_inv s :
  in_bounds R C s →
  ∃ st0, bfs_init self s = Ok st0 ∧ b_q st0 = [s] ∧
    bfs_inv R C (grid self) T s (λ _ _, False) (b_dist st0) (b_q st0) (b_farthest st0).
Proof.
  intros Hs. unfold bfs_init. destruct s as [sr sc]. rewrite HR, HC.
  assert (0 ≤ R ∧ 0 ≤ C) as [HR0 HC0] by (unfold in_bounds in Hs; simpl in Hs; lia).
  destruct (setitem2_in_bounds R C
              (replicate (Z.to_nat R) (replicate (Z.to_nat C) (-1))) (sr, sc) 0)
    as (dist & Hset & Hwf & Hnew & Hold); [by apply wf_matrix_replicate | done |].
  simpl in Hset. rewrite Hset, bind_Ok. eexists. split; [done|]. split; [done|].
  assert (Hval : ∀ x, in_bounds R C x →
            dval dist x = if decide (x = (sr, sc)) then 0 else -1).
  { intros x Hx. unfold dval. case_decide as Hxs.
    - subst x. by rewrite Hnew.
    - rewrite Hold by done. by rewrite at_replicate. }
  assert (Hdisc : ∀ x, in_bounds R C x → dval dist x ≠ -1 → x = (sr, sc)).
  { intros x Hx Hdx. rewrite Hval in Hdx by done. by case_decide. }
  simpl. split.
  - done.
  - intros x Hx Hdx. rewrite (Hdisc x Hx Hdx). rewrite Hval by done.
    rewrite decide_True by done. by rewrite tdist_refl.
  - split; [done|]. rewrite Hval by done. by rewrite decide_True.
  - intros x y Hx Hdx _ Hback. rewrite (Hdisc x Hx Hdx) in Hback.
    rewrite tdist_refl in Hback. lia.
  - intros x ->%list_elem_of_singleton. split; [done|].
    rewrite Hval by done. by rewrite decide_True.
  - intros x d Hx Hdx _. right. left. rewrite (Hdisc x Hx Hdx). left.
  - split; [done|]. rewrite Hval by done. by rewrite decide_True.
  - intros x Hx Hdx Hnot. exfalso. apply Hnot. rewrite (Hdisc x Hx Hdx). left.
Qed.

(** [bfs(start)] returns a cell farthest from [start]. *)
Lemma bfs_farthest fuel s :
  in_bounds R C s → R * C + 1 ≤ Z.of_nat fuel →
  ∃ far dist parent, bfs fuel self s = Ok (far, dist, parent) ∧
    in_bounds R C far ∧
    ∀ x, in_bounds R C x →
      dval dist x = Z.of_nat (tdist T s x) ∧ (tdist T s x ≤ tdist T s far)%nat.
Proof.
  intros Hs Hfuel. unfold bfs.
  destruct (bfs_init_inv s Hs) as (st0 & -> & Hq0 & Hinv0). rewrite bind_Ok.
  assert (0 ≤ R ∧ 0 ≤ C) as [HR0 HC0] by (unfold in_bounds in Hs; lia).
  destruct (bfs_loop_inv R C (grid self) root T Hwt s fuel st0 Hinv0)
    as (st & -> & Hq & Hinv).
  { rewrite Hq0. simpl. pose proof (length_all_cells R C HR0 HC0). lia. }
  rewrite bind_Ok. exists (b_farthest st), (b_dist st), (b_parent st).
  split; [done|]. rewrite Hq in Hinv.
  by apply (bfs_inv_final R C (grid self) root T Hwt Hspan s).
Qed.

(** The two searches return the ends of a longest path of the tree. *)
Lemma longest_path_endpoints_tree fuel :
  0 < R → 0 < C → R * C + 1 ≤ Z.of_nat fuel →
  ∃ a b, _longest_path_endpoints fuel self = Ok (a, b) ∧
    in_bounds R C a ∧ in_bounds R C b ∧
    ∀ x y, in_bounds R C x → in_bounds R C y → (tdist T x y ≤ tdist T a b)%nat.
Proof.
  intros HR0 HC0 Hfuel. unfold _longest_path_endpoints.
  destruct (bfs_farthest fuel (0, 0)) as (a & dist & parent & -> & Ha & Hfar);
    [unfold in_bounds; simpl; lia | done |].
  rewrite bind_Ok.
  destruct (bfs_farthest fuel a Ha Hfuel) as (b & dist' & parent' & -> & Hb & Hfar').
  rewrite bind_Ok. exists a, b. split; [done|]. split; [done|]. split; [done|].
  intros x y Hx Hy.
  apply (double_sweep root T (0, 0) a b).
  - intros z Hz. apply Hfar. by apply (wt_nodes _ _ _ _ _ Hwt).
  - intros z Hz. apply Hfar'. by apply (wt_nodes _ _ _ _ _ Hwt).
  - by apply Hspan.
  - by apply Hspan.
Qed.

End BfsWhole.

Section CarveWhole.
Context {G : Type} `{RandomSource G}.
Variable fmul : Q → Q → Q.
Variables (R C : Z) (self : MazeGenerator).
Hypothesis HR : rows self = R.
Hypothesis HC : cols self = C.
Hypothesis HR2 : 2 ≤ R.
Hypothesis HC2 : 2 ≤ C.
Hypothesis Hgrid : wf_matrix R C (grid self).
Hypothesis Hwalls : all_walls R C (grid self).

(** The carving, started at a cell of a fully walled grid, runs to the end
    of its loop; the walls it leaves open are a spanning tree of the grid
    rooted at the start, and every cell is marked. *)
Lemma carve_loop_tree fuel (root : Z * Z) (g : G) :
  in_bounds R C root → 2 * (R * C) ≤ Z.of_nat fuel →
  ∃ st0 st T,
    carve_init self root.1 root.2 g = Ok st0 ∧
    carve_loop fmul fuel self st0 = Ok st ∧
    c_stack st = [] ∧
    wall_tree R C (c_grid st) root T ∧ spanning R C root T ∧
    ∀ x, in_bounds R C x → marked (c_visited st) x = true.
Proof.
  intros Hroot Hfuel.
  destruct (carve_init_inv self R C HR HC root g HR2 HC2 Hroot Hgrid Hwalls)
    as (st0 & Hinit & Hwf0 & Hinv0 & _ & Hst0 & _).
  destruct (carve_loop_inv fmul self R C HR HC fuel root [] st0 Hwf0 Hinv0)
    as (st & T & Hloop & Hwf & Hinv & Hempty).
  { rewrite Hst0. simpl. pose proof (length_all_cells R C ltac:(lia) ltac:(lia)). lia. }
  exists st0, st, T. split; [done|]. split; [done|]. split; [done|].
  pose proof (carve_inv_spanning R C root T st Hinv Hempty) as Hspan.
  split; [by apply carve_inv_wall_tree|]. split; [done|].
  intros x Hx. by apply (ci_nodes _ _ _ _ _ Hinv), Hspan.
Qed.

Lemma carve_passage_tree fuel (root : Z * Z) (g : G) :
  in_bounds R C root → 2 * (R * C) ≤ Z.of_nat fuel →
  ∃ self' g' T,
    _carve_passage fmul fuel self root.1 root.2 g = Ok (self', g') ∧
    rows self' = R ∧ cols self' = C ∧
    complexity self' = complexity self ∧ difficulty self' = difficulty self ∧
    cell_size self' = cell_size self ∧
    start self' = start self ∧ end_ self' = end_ self ∧
    wall_tree R C (grid self') root T ∧ spanning R C root T.
Proof.
  intros Hroot Hfuel.
  destruct (carve_loop_tree fuel root g Hroot Hfuel)
    as (st0 & st & T & Hinit & Hloop & _ & Hwt & Hspan & _).
  unfold _carve_passage. rewrite Hinit, bind_Ok, Hloop, bind_Ok.
  exists (set_grid self (c_grid st)), (c_rng st), T. by split_and!.
Qed.

End CarveWhole.

(** A successfully constructed generator has a fully walled grid of the
    requested size. *)
Lemma init_ok R C cs cx df self :
  __init__ R C cs cx df = Ok self →
  2 ≤ R ∧ 2 ≤ C ∧ (0 <= cx)%Q ∧ (cx <= 1)%Q ∧ (0 <= df)%Q ∧ (df <= 1)%Q ∧
  self = mkMaze R C cs cx df
           (replicate (Z.to_nat R) (replicate (Z.to_nat C) (mkCell true true true true)))
           None None.
Proof.
  unfold __init__.
  destruct (Z.ltb_spec R 2), (Z.ltb_spec C 2); simpl; try done.
  destruct (Qle_bool 0 cx) eqn:H1; simpl; [|done].
  destruct (Qle_bool cx 1) eqn:H2; simpl; [|done].
  destruct (Qle_bool 0 df) eqn:H3; simpl; [|done].
  destruct (Qle_bool df 1) eqn:H4; simpl; [|done].
  intros [= <-]. apply Qle_bool_iff in H1, H2, H3, H4. by split_and!.
Qed.

Lemma init_grid R C cs cx df self :
  __init__ R C cs cx df = Ok self →
  rows self = R ∧ cols self = C ∧ 2 ≤ R ∧ 2 ≤ C ∧
  wf_matrix R C (grid self) ∧ all_walls R C (grid self).
Proof.
  intros Hinit. apply init_ok in Hinit as (HR & HC & _ & _ & _ & _ & ->). simpl.
  split; [done|]. split; [done|]. split; [done|]. split; [done|]. split.
  - apply wf_matrix_replicate; lia.
  - intros x d Hx. unfold wallb. rewrite at_replicate by done. by destruct d.
Qed.

(** * The carving loop, iteration by iteration *)

(** Number of marked cells. *)
Definition visited_count (R C : Z) (visited : list (list bool)) : nat :=
  length (filter (λ x, marked visited x = true) (all_cells R C)).

Lemma filter_length_mono {A} (P Q : A → Prop)
    `{∀ x, Decision (P x)} `{∀ x, Decision (Q x)} (l : list A) :
  (∀ x, x ∈ l → P x → Q x) → (length (filter P l) ≤ length (filter Q l))%nat.
Proof.
  intros Himpl. induction l as [|a l IH]; [done|].
  assert (length (filter P l) ≤ length (filter Q l))%nat as IH'
    by (apply IH; intros x Hx; apply Himpl; by right).
  assert (P a → Q a) by (apply Himpl; left).
  rewrite !filter_cons. repeat case_decide; simpl; try tauto; lia.
Qed.

Section CarveRun.
Context {G : Type} `{RandomSource G}.
Variable fmul : Q → Q → Q.
Variable self : MazeGenerator.
Variables (R C : Z).
Hypothesis HR : rows self = R.
Hypothesis HC : cols self = C.
Implicit Types (x y z root : Z * Z) (T : list ((Z * Z) * (Z * Z)))
  (st : carve_state G).

Lemma carve_run_S n st :
  carve_run fmul (Datatypes.S n) self st
  = carve_run fmul n self st ≫= carve_run fmul 1 self.
Proof.
  revert st. induction n as [|n IH]; intros st; [done|].
  change (carve_run fmul (Datatypes.S (Datatypes.S n)) self st) with
    (match c_stack st with
     | [] => Ok st
     | (r, c) :: below =>
         carve_body fmul self st r c below ≫= carve_run fmul (Datatypes.S n) self
     end).
  change (carve_run fmul (Datatypes.S n) self st) with
    (match c_stack st with
     | [] => Ok st
     | (r, c) :: below => carve_body fmul self st r c below ≫= carve_run fmul n self
     end).
  destruct (c_stack st) as [|[r c] below] eqn:Hst.
  - simpl. by rewrite Hst.
  - destruct (carve_body fmul self st r c below) as [st'| |]; [|done..].
    rewrite !bind_Ok. apply IH.
Qed.

Lemma carve_loop_run fuel st st' :
  carve_loop fmul fuel self st = Ok st' → carve_run fmul fuel self st = Ok st'.
Proof.
  revert st. induction fuel as [|fuel IH]; intros st; simpl.
  - by destruct (c_stack st) as [|[r c] below].
  - destruct (c_stack st) as [|[r c] below]; [done|].
    destruct (carve_body fmul self st r c below) as [st1| |]; [|done..].
    rewrite !bind_Ok. apply IH.
Qed.

(** One more iteration from a state of the loop: the loop has exited, or
    the body makes a step. *)
Lemma carve_run_1 root T st :
  carve_wf R C st → carve_inv R C root T st →
  ∃ st' T', carve_run fmul 1 self st = Ok st' ∧
    carve_wf R C st' ∧ carve_inv R C root T' st' ∧
    ((c_stack st = [] ∧ st' = st) ∨ carve_step R C st st').
Proof.
  intros Hwf Hinv. simpl. destruct (c_stack st) as [|[r c] below] eqn:Hst.
  - exists st, T. split; [done|]. split; [done|]. split; [done|]. by left.
  - destruct (carve_body_inv fmul self R C HR HC root T st (r, c) below Hwf Hinv Hst)
      as (st' & T' & Hbody & Hstep & Hwf' & Hinv' & _).
    simpl in Hbody. rewrite Hbody, bind_Ok.
    exists st', T'. split; [done|]. split; [done|]. split; [done|]. by right.
Qed.

Lemma carve_run_inv n root T st :
  carve_wf R C st → carve_inv R C root T st →
  ∃ st' T', carve_run fmul n self st = Ok st' ∧
    carve_wf R C st' ∧ carve_inv R C root T' st'.
Proof.
  intros Hwf Hinv. induction n as [|n IH]; [by exists st, T|].
  destruct IH as (st1 & T1 & Hrun & Hwf1 & Hinv1).
  destruct (carve_run_1 root T1 st1 Hwf1 Hinv1) as (st' & T' & Hone & Hwf' & Hinv' & _).
  exists st', T'. rewrite carve_run_S, Hrun, bind_Ok. by split_and!.
Qed.

Lemma carve_step_marked st st' x :
  carve_step R C st st' → in_bounds R C x →
  marked (c_visited st) x = true → marked (c_visited st') x = true.
Proof.
  intros [x0 below _ _ _ _ Hvis | x0 below d _ _ _ _ Hvis] Hx Hm.
  - by rewrite Hvis.
  - rewrite Hvis by done. by case_decide.
Qed.

Lemma carve_step_count st st' :
  carve_step R C st st' →
  (visited_count R C (c_visited st) ≤ visited_count R C (c_visited st'))%nat.
Proof.
  intros Hstep. apply filter_length_mono.
  intros x Hx%elem_of_all_cells. by apply carve_step_marked.
Qed.

(** Marks are never removed as the loop runs. *)
Lemma carve_run_marked root T st n m sn sm x :
  carve_wf R C st → carve_inv R C root T st → (n ≤ m)%nat →
  carve_run fmul n self st = Ok sn → carve_run fmul m self st = Ok sm →
  in_bounds R C x →
  marked (c_visited sn) x = true → marked (c_visited sm) x = true.
Proof.
  intros Hwf Hinv Hle Hn Hm Hx Hmark. revert sm Hm.
  induction Hle as [|m Hle IH]; intros sm Hm; [congruence|].
  destruct (carve_run_inv m root T st Hwf Hinv) as (s1 & T1 & Hrun & Hwf1 & Hinv1).
  rewrite carve_run_S, Hrun, bind_Ok in Hm.
  destruct (carve_run_1 root T1 s1 Hwf1 Hinv1) as (s2 & T2 & Hone & _ & _ & Hcase).
  assert (s2 = sm) as -> by congruence.
  destruct Hcase as [[_ ->] | Hstep]; [by apply IH|].
  eapply carve_step_marked; [done..|]. by apply IH.
Qed.

(** [marked_at k x]: iteration [k] (counted from 0) of the loop started in
    [st] is the one that marks [x]. *)
Definition marked_at st (k : nat) x : Prop :=
  ∃ sk sk', carve_run fmul k self st = Ok sk ∧
    carve_run fmul (Datatypes.S k) self st = Ok sk' ∧
    marked (c_visited sk) x = false ∧ marked (c_visited sk') x = true.

Lemma marked_at_unique root T st k k' x :
  carve_wf R C st → carve_inv R C root T st → in_bounds R C x →
  marked_at st k x → marked_at st k' x → k = k'.
Proof.
  intros Hwf Hinv Hx (a & a' & Ha & Ha' & Hf & Ht) (b & b' & Hb & Hb' & Hf' & Ht').
  destruct (Nat.lt_trichotomy k k') as [Hlt | [? | Hlt]]; [|done|].
  - assert (marked (c_visited b) x = true); [|congruence].
    by apply (carve_run_marked root T st (Datatypes.S k) k' a' b x).
  - assert (marked (c_visited a) x = true); [|congruence].
    by apply (carve_run_marked root T st (Datatypes.S k') k b' a x).
Qed.

Lemma marked_at_exists root T st n sn x :
  carve_wf R C st → carve_inv R C root T st →
  carve_run fmul n self st = Ok sn →
  marked (c_visited st) x = false → marked (c_visited sn) x = true →
  ∃ k, marked_at st k x.
Proof.
  intros Hwf Hinv. revert sn. induction n as [|n IH]; intros sn Hn Hf Ht.
  - simpl in Hn. congruence.
  - destruct (carve_run_inv n root T st Hwf Hinv) as (s1 & T1 & Hrun & _).
    destruct (marked (c_visited s1) x) eqn:Hm1.
    + by apply (IH s1).
    + exists n, s1, sn. by split_and!.
Qed.

End CarveRun.

(** * Wall symmetry along the carving, from any symmetric grid *)

Lemma OPPOSITE_involutive d : OPPOSITE (OPPOSITE d) = d.
Proof. by destruct d. Qed.

Lemma move_cancel x y d : move x d = move y d → x = y.
Proof.
  destruct x as [r c], y as [r' c'], d; unfold move; simpl; intros [=]; f_equal; lia.
Qed.

Section CarveSymmetry.
Context {G : Type} `{RandomSource G}.
Variable fmul : Q → Q → Q.
Variable self : MazeGenerator.
Variables (R C : Z).
Hypothesis HR : rows self = R.
Hypothesis HC : cols self = C.

Lemma carve_step_symmetric (st st' : carve_state G) :
  carve_step R C st st' →
  wall_symmetric R C (c_grid st) → wall_symmetric R C (c_grid st').
Proof.
  intros [x below _ _ _ Hgr _ | x below d _ _ _ Hgr _] Hsym; [by rewrite Hgr|].
  intros z d' Hz Hz'. rewrite !Hgr by done.
  assert (Hiff : (z = x ∧ d' = d) ∨ (z = move x d ∧ d' = OPPOSITE d) ↔
                 (move z d' = x ∧ OPPOSITE d' = d) ∨
                 (move z d' = move x d ∧ OPPOSITE d' = OPPOSITE d)).
  { split.
    - intros [[-> ->] | [-> ->]]; [by right|].
      left. by rewrite move_opposite, OPPOSITE_involutive.
    - intros [[Hm Hd] | [Hm Hd]].
      + right. assert (d' = OPPOSITE d) as -> by (by rewrite <- Hd, OPPOSITE_involutive).
        split; [|done]. apply (move_cancel _ _ (OPPOSITE d)). by rewrite move_opposite.
      + left. assert (d' = d) as ->.
        { by rewrite <- (OPPOSITE_involutive d'), Hd, OPPOSITE_involutive. }
        split; [|done]. by apply (move_cancel z x d). }
  repeat case_decide; try done; try tauto. by apply Hsym.
Qed.

Lemma carve_init_wf (root : Z * Z) (g : G) :
  in_bounds R C root → wf_matrix R C (grid self) →
  ∃ st0, carve_init self root.1 root.2 g = Ok st0 ∧
         carve_wf R C st0 ∧ c_grid st0 = grid self.
Proof.
  intros Hroot Hgrid. unfold carve_init. rewrite HR, HC.
  assert (0 ≤ R ∧ 0 ≤ C) as [HR0 HC0] by (unfold in_bounds in Hroot; lia).
  destruct (setitem2_in_bounds R C
              (replicate (Z.to_nat R) (replicate (Z.to_nat C) false)) root true)
    as (vis & -> & Hvis & _); [by apply wf_matrix_replicate | done |].
  rewrite bind_Ok. eexists. split; [done|]. split; [|done].
  split; [done|]. split; [done|]. simpl. intros x Hx%list_elem_of_singleton.
  destruct root. simpl in *. by subst.
Qed.

(** From any well-shaped state the loop runs without raising, and a
    symmetric grid stays symmetric. *)
Lemma carve_run_symmetric n (st : carve_state G) :
  carve_wf R C st →
  ∃ st', carve_run fmul n self st = Ok st' ∧ carve_wf R C st' ∧
         (wall_symmetric R C (c_grid st) → wall_symmetric R C (c_grid st')).
Proof.
  revert st. induction n as [|n IH]; intros st Hwf; [by exists st|].
  cbn [carve_run]. destruct (c_stack st) as [|[r c] below] eqn:Hst; [by exists st|].
  destruct (carve_body_step fmul R C self st (r, c) below HR HC Hwf Hst)
    as (st1 & Hbody & Hstep & Hwf1).
  simpl in Hbody. rewrite Hbody, bind_Ok.
  destruct (IH st1 Hwf1) as (st' & Hrun & Hwf' & Hsym).
  exists st'. split; [done|]. split; [done|].
  intros Hs. by apply Hsym, (carve_step_symmetric st st1).
Qed.

End CarveSymmetry.

(** * Properties of the generator *)

(** A generator object whose grid is as the constructor leaves it: at least
    two rows and two columns, every wall present. *)
Definition valid_grid (self : MazeGenerator) : Prop :=
  2 ≤ rows self ∧ 2 ≤ cols self ∧
  wf_matrix (rows self) (cols self) (grid self) ∧
  all_walls (rows self) (cols self) (grid self).

Lemma init_valid_grid R C cs cx df self :
  __init__ R C cs cx df = Ok self → valid_grid self.
Proof.
  intros Hinit. destruct (init_grid R C cs cx df self Hinit) as (<- & <- & ? & ? & ? & ?).
  by split_and!.
Qed.

Section CarvingProperties.
Context {G : Type} `{RandomSource G}.
Variable fmul : Q → Q → Q.

(** C1. On a fully walled grid of at least 2 by 2 cells and from any start
    cell of the grid, [_carve_passage] returns; when its loop exits every
    cell is marked visited, the start cell was marked before the loop and by
    no iteration, every other cell was marked by exactly one iteration, and
    the open walls form a spanning tree of the grid: any two cells are joined
    by a walk through open walls, no simple cycle exists, and the number of
    open wall pairs is [rows * cols - 1]. *)
Theorem carve_passage_spanning_tree (self : MazeGenerator) (sr sc : Z) (g : G)
    (fuel : nat) :
  valid_grid self →
  in_bounds (rows self) (cols self) (sr, sc) →
  2 * (rows self * cols self) ≤ Z.of_nat fuel →
  ∃ st0 st,
    carve_init self sr sc g = Ok st0 ∧
    carve_loop fmul fuel self st0 = Ok st ∧
    _carve_passage fmul fuel self sr sc g = Ok (set_grid self (c_grid st), c_rng st) ∧
    (∀ x, in_bounds (rows self) (cols self) x → marked (c_visited st) x = true) ∧
    (marked (c_visited st0) (sr, sc) = true ∧
     ∀ k, ¬ marked_at fmul self st0 k (sr, sc)) ∧
    (∀ x, in_bounds (rows self) (cols self) x → x ≠ (sr, sc) →
       marked (c_visited st0) x = false ∧
       ∃ k, marked_at fmul self st0 k x ∧
            ∀ k', marked_at fmul self st0 k' x → k' = k) ∧
    connected (linked (rows self) (cols self) (c_grid st))
              (in_bounds (rows self) (cols self)) ∧
    acyclic (linked (rows self) (cols self) (c_grid st)) ∧
    Z.of_nat (open_wall_pairs (rows self) (cols self) (c_grid st))
      = rows self * cols self - 1.
Proof.
  intros (HR2 & HC2 & Hgrid & Hwalls) Hroot Hfuel.
  pose (R := rows self). pose (C := cols self).
  destruct (carve_init_inv self R C eq_refl eq_refl (sr, sc) g HR2 HC2 Hroot Hgrid Hwalls)
    as (st0 & Hinit & Hwf0 & Hinv0 & _ & _ & _ & Hmark0).
  destruct (carve_loop_tree fmul R C self eq_refl eq_refl HR2 HC2 Hgrid Hwalls
              fuel (sr, sc) g Hroot Hfuel)
    as (st0' & st & T & Hinit' & Hloop & _ & Hwt & Hspan & Hall).
  simpl in Hinit, Hinit'. assert (st0' = st0) as -> by congruence.
  pose proof (carve_loop_run fmul self fuel st0 st Hloop) as Hrun.
  exists st0, st. split; [done|]. split; [done|]. split.
  { unfold _carve_passage. by rewrite Hinit, bind_Ok, Hloop, bind_Ok. }
  split; [done|]. split; [|split; [|split; [|split]]].
  - assert (Hstart : marked (c_visited st0) (sr, sc) = true).
    { rewrite Hmark0 by done. by apply bool_decide_eq_true. }
    split; [done|]. intros k (sk & sk' & Hk & _ & Hfalse & _).
    assert (marked (c_visited sk) (sr, sc) = true); [|congruence].
    apply (carve_run_marked fmul self R C eq_refl eq_refl (sr, sc) [] st0 0 k st0 sk);
      (done || lia).
  - intros x Hx Hne.
    assert (Hfalse : marked (c_visited st0) x = false).
    { rewrite Hmark0 by done. by apply bool_decide_eq_false. }
    split; [done|].
    destruct (marked_at_exists fmul self R C eq_refl eq_refl (sr, sc) [] st0 fuel st x)
      as [k Hk]; [done..|by apply Hall|].
    exists k. split; [done|]. intros k' Hk'.
    by apply (marked_at_unique fmul self R C eq_refl eq_refl (sr, sc) [] st0 k' k x).
  - by apply (wall_tree_connected R C (c_grid st) (sr, sc) T).
  - by apply (wall_tree_acyclic R C (c_grid st) (sr, sc) T).
  - apply (wall_tree_edge_count R C (c_grid st) (sr, sc) T); (done || lia).
Qed.

(** C5. The constructor leaves every wall present.  From any grid of the
    right shape whose walls agree on their two sides (the freshly
    constructed grid is one), and any start cell of the grid, the walls
    agree on their two sides in every state the carving loop reaches, after
    any number of iterations, and in the grid [_carve_passage] returns: the
    two walls of a pair are opened in the same iteration. *)
Theorem wall_symmetry_invariant (self : MazeGenerator) (sr sc : Z) (g : G) :
  wf_matrix (rows self) (cols self) (grid self) →
  wall_symmetric (rows self) (cols self) (grid self) →
  in_bounds (rows self) (cols self) (sr, sc) →
  (∀ R C cs cx df, __init__ R C cs cx df = Ok self →
     all_walls R C (grid self) ∧ wall_symmetric R C (grid self)) ∧
  ∃ st0, carve_init self sr sc g = Ok st0 ∧
    (∀ n, ∃ st, carve_run fmul n self st0 = Ok st ∧
                wall_symmetric (rows self) (cols self) (c_grid st)) ∧
    (∀ fuel self' g', _carve_passage fmul fuel self sr sc g = Ok (self', g') →
                      wall_symmetric (rows self) (cols self) (grid self')).
Proof.
  intros Hgrid Hsym Hroot. split.
  { intros R C cs cx df Hinit.
    destruct (init_grid R C cs cx df self Hinit) as (_ & _ & _ & _ & _ & Hwalls).
    split; [done|]. intros x d Hx Hy. by rewrite !Hwalls. }
  destruct (carve_init_wf self (rows self) (cols self) eq_refl eq_refl (sr, sc) g
              Hroot Hgrid) as (st0 & Hinit0 & Hwf0 & Hgr0).
  simpl in Hinit0. exists st0. split; [done|].
  assert (Hall : ∀ n, ∃ st, carve_run fmul n self st0 = Ok st ∧
                   wall_symmetric (rows self) (cols self) (c_grid st)).
  { intros n.
    destruct (carve_run_symmetric fmul self (rows self) (cols self) eq_refl eq_refl
                n st0 Hwf0) as (st & Hrun & _ & Hs).
    exists st. split; [done|]. apply Hs. by rewrite Hgr0. }
  split; [done|]. intros fuel self' g' Hcarve.
  unfold _carve_passage in Hcarve. rewrite Hinit0, bind_Ok in Hcarve.
  destruct (carve_loop fmul fuel self st0) as [st| |] eqn:Hloop; [|done..].
  rewrite bind_Ok in Hcarve. injection Hcarve as <- <-. simpl.
  destruct (Hall fuel) as (st' & Hrun & Hs).
  apply carve_loop_run in Hloop. by assert (st' = st) as <- by congruence.
Qed.

(** C8. On a valid grid and from a start cell of the grid, [_carve_passage]
    returns whenever the model is given at least [2 * rows * cols]
    iterations; every iteration of the loop runs without raising, keeps
    every mark (so the number of marked cells never decreases, and it never
    exceeds [rows * cols]), and pops the stack when the top cell has no
    unvisited neighbour. *)
Theorem carve_passage_terminates (self : MazeGenerator) (sr sc : Z) (g : G) :
  valid_grid self →
  in_bounds (rows self) (cols self) (sr, sc) →
  (∀ fuel, 2 * (rows self * cols self) ≤ Z.of_nat fuel →
     ∃ self' g', _carve_passage fmul fuel self sr sc g = Ok (self', g')) ∧
  ∃ st0, carve_init self sr sc g = Ok st0 ∧
    ∀ n, ∃ sn sn',
      carve_run fmul n self st0 = Ok sn ∧
      carve_run fmul (Datatypes.S n) self st0 = Ok sn' ∧
      (∀ x, in_bounds (rows self) (cols self) x →
         marked (c_visited sn) x = true → marked (c_visited sn') x = true) ∧
      (visited_count (rows self) (cols self) (c_visited sn)
       ≤ visited_count (rows self) (cols self) (c_visited sn'))%nat ∧
      Z.of_nat (visited_count (rows self) (cols self) (c_visited sn'))
        ≤ rows self * cols self ∧
      (∀ x below, c_stack sn = x :: below →
         unvisited_dirs (rows self) (cols self) (c_visited sn) x = [] →
         c_stack sn' = below ∧ (length (c_stack sn') < length (c_stack sn))%nat).
Proof.
  intros (HR2 & HC2 & Hgrid & Hwalls) Hroot.
  pose (R := rows self). pose (C := cols self). split.
  - intros fuel Hfuel.
    destruct (carve_passage_tree fmul R C self eq_refl eq_refl HR2 HC2 Hgrid Hwalls
                fuel (sr, sc) g Hroot Hfuel) as (self' & g' & T & Hcarve & _).
    by exists self', g'.
  - destruct (carve_init_inv self R C eq_refl eq_refl (sr, sc) g HR2 HC2 Hroot Hgrid Hwalls)
      as (st0 & Hinit & Hwf0 & Hinv0 & _).
    simpl in Hinit. exists st0. split; [done|]. intros n.
    destruct (carve_run_inv fmul self R C eq_refl eq_refl n (sr, sc) [] st0 Hwf0 Hinv0)
      as (sn & T & Hrun & Hwf & Hinv).
    destruct (carve_run_1 fmul self R C eq_refl eq_refl (sr, sc) T sn Hwf Hinv)
      as (sn' & T' & Hone & Hwf' & Hinv' & Hcase).
    exists sn, sn'. split; [done|]. split.
    { by rewrite carve_run_S, Hrun, bind_Ok. }
    assert (Hbound : Z.of_nat (visited_count R C (c_visited sn')) ≤ R * C).
    { rewrite <- (length_all_cells R C) by lia. unfold visited_count.
      apply inj_le, length_filter. }
    destruct Hcase as [[Hempty ->] | Hstep].
    + split; [done|]. split; [done|]. split; [done|].
      intros x below Hst. congruence.
    + split; [intros x; by apply carve_step_marked|].
      split; [by apply carve_step_count|]. split; [done|].
      intros x below Hst Hnone.
      destruct Hstep as [x0 below0 Hst0 _ Hst' _ _ | x0 below0 d Hst0 Hd _ _ _].
      * rewrite Hst in Hst0. injection Hst0 as <- <-.
        split; [done|]. rewrite Hst, Hst'. simpl. lia.
      * rewrite Hst in Hst0. injection Hst0 as <- <-.
        assert (d ∈ @nil Dir.t) as Hd' by (rewrite <- Hnone; exact Hd).
        by apply elem_of_nil in Hd'.
Qed.

End CarvingProperties.

Section GenerateLemmas.
Context {G : Type} `{RandomSource G}.
Variable fmul : Q → Q → Q.

Lemma randrange_ok (n : Z) (g : G) :
  0 < n → ∃ k g', randrange n g = Ok (k, g') ∧ 0 ≤ k < n.
Proof.
  intros Hn. unfold randrange. destruct (Z.ltb_spec 0 n); [|lia].
  pose proof (randbelow_range n g Hn) as Hk.
  destruct (randbelow n g) as [k g']. by exists k, g'.
Qed.

(** [generate] on a valid grid: the carving starts at a cell of the grid and
    returns, and the endpoints are chosen from the carved generator. *)
Lemma generate_spec (self : MazeGenerator) (g : G) (fuel : nat) :
  valid_grid self → 2 * (rows self * cols self) ≤ Z.of_nat fuel →
  ∃ sr sc g1 g2 self1 g3 T,
    randrange (rows self) g = Ok (sr, g1) ∧
    randrange (cols self) g1 = Ok (sc, g2) ∧
    in_bounds (rows self) (cols self) (sr, sc) ∧
    _carve_passage fmul fuel self sr sc g2 = Ok (self1, g3) ∧
    rows self1 = rows self ∧ cols self1 = cols self ∧
    difficulty self1 = difficulty self ∧
    wall_tree (rows self) (cols self) (grid self1) (sr, sc) T ∧
    spanning (rows self) (cols self) (sr, sc) T ∧
    generate fmul fuel self g =
      if Qlt_le_dec (difficulty self) float_0_1 then
        Ok (set_endpoints self1 (0, 0) (1, 1), g3)
      else if Qlt_le_dec (difficulty self) float_0_5 then
        Ok (set_endpoints self1 (0, 0) (rows self - 1, cols self - 1), g3)
      else
        '(a, b) ← _longest_path_endpoints fuel self1;
        Ok (set_endpoints self1 a b, g3).
Proof.
  intros (HR2 & HC2 & Hgrid & Hwalls) Hfuel.
  destruct (randrange_ok (rows self) g ltac:(lia)) as (sr & g1 & Hsr & Hsrb).
  destruct (randrange_ok (cols self) g1 ltac:(lia)) as (sc & g2 & Hsc & Hscb).
  assert (Hroot : in_bounds (rows self) (cols self) (sr, sc)) by done.
  destruct (carve_passage_tree fmul (rows self) (cols self) self eq_refl eq_refl
              HR2 HC2 Hgrid Hwalls fuel (sr, sc) g2 Hroot Hfuel)
    as (self1 & g3 & T & Hcarve & HR1 & HC1 & _ & Hdf & _ & _ & _ & Hwt & Hspan).
  simpl in Hcarve.
  exists sr, sc, g1, g2, self1, g3, T. split_and!; try done.
  unfold generate. rewrite Hsr, bind_Ok, Hsc, bind_Ok, Hcarve, bind_Ok.
  by rewrite Hdf, HR1, HC1.
Qed.

(** [generate] on a valid grid returns, with both endpoints set. *)
Lemma generate_ok (self : MazeGenerator) (g : G) (fuel : nat) :
  valid_grid self → 2 * (rows self * cols self) ≤ Z.of_nat fuel →
  ∃ self' g' a b, generate fmul fuel self g = Ok (self', g') ∧
                  start self' = Some a ∧ end_ self' = Some b.
Proof.
  intros Hvalid Hfuel.
  destruct (generate_spec self g fuel Hvalid Hfuel) as
    (sr & sc & g1 & g2 & self1 & g3 & T & _ & _ & _ & Hcarve & HR1 & HC1 & _ & Hwt &
     Hspan & Hgen).
  destruct Hvalid as (HR2 & HC2 & _).
  destruct (longest_path_endpoints_tree (rows self) (cols self) self1 (sr, sc) T
              HR1 HC1 Hwt Hspan fuel)
    as (a & b & Hlpe & _); [lia | lia | nia |].
  rewrite Hlpe, bind_Ok in Hgen.
  destruct (Qlt_le_dec (difficulty self) float_0_1);
    [|destruct (Qlt_le_dec (difficulty self) float_0_5)]; by repeat eexists.
Qed.


End GenerateLemmas.

Section GeneratorProperties.
Context {G : Type} `{RandomSource G}.
Variable fmul : Q → Q → Q.

(** C2. Whatever the generator state and the complexity,
    [_unvisited_neighbours] returns the list exactly as its [for] loop built
    it, in the order N, S, E, W: the shuffle is applied to a slice, which is
    a copy, and never reaches the returned list.  So no generator state
    yields a reordered list. *)
Theorem unvisited_neighbours_not_shuffled (self : MazeGenerator) (r c : Z)
    (visited : list (list bool)) (g : G) (nbs : list Neighbour) (g' : G) :
  _unvisited_neighbours fmul self r c visited g = Ok (nbs, g') →
  foldl (neighbour_step self r c visited) (Ok []) DIR_VEC_items = Ok nbs ∧
  (wf_matrix (rows self) (cols self) visited →
   nbs = to_neighbour (r, c) <$> unvisited_dirs (rows self) (cols self) visited (r, c)).
Proof.
  intros Hret.
  assert (Hfold : foldl (neighbour_step self r c visited) (Ok []) DIR_VEC_items = Ok nbs).
  { unfold _unvisited_neighbours in Hret.
    destruct (foldl (neighbour_step self r c visited) (Ok []) DIR_VEC_items)
      as [nbs0| |]; [|done..].
    rewrite bind_Ok in Hret.
    destruct (shuffle _ g) as [[x' g'']| |]; [|done..].
    rewrite bind_Ok in Hret. by injection Hret as -> _. }
  split; [done|]. intros Hwf.
  change DIR_VEC_items with ((λ d, (d, DIR_VEC d)) <$> [Dir.N; Dir.S; Dir.E; Dir.W])
    in Hfold.
  rewrite (neighbour_fold self (rows self) (cols self) visited (r, c) _ []
             eq_refl eq_refl Hwf) in Hfold.
  by injection Hfold as <-.
Qed.

(** C3. [generate] on a freshly constructed generator returns, and picks the
    endpoints by the difficulty: below the float [0.1] they are [(0, 0)] and
    [(1, 1)]; from [0.1] and below [0.5] they are [(0, 0)] and
    [(rows - 1, cols - 1)]; from [0.5] on they are the pair that
    [_longest_path_endpoints] returns on the carved generator. *)
Theorem generate_endpoint_policy (R C cs : Z) (cx df : Q) (self : MazeGenerator)
    (g : G) (fuel : nat) :
  __init__ R C cs cx df = Ok self →
  2 * (R * C) ≤ Z.of_nat fuel →
  ∃ sr g1 sc g2 self1 self' g',
    randrange R g = Ok (sr, g1) ∧ randrange C g1 = Ok (sc, g2) ∧
    _carve_passage fmul fuel self sr sc g2 = Ok (self1, g') ∧
    generate fmul fuel self g = Ok (self', g') ∧
    grid self' = grid self1 ∧
    ((df < float_0_1)%Q → start self' = Some (0, 0) ∧ end_ self' = Some (1, 1)) ∧
    ((float_0_1 <= df)%Q → (df < float_0_5)%Q →
       start self' = Some (0, 0) ∧ end_ self' = Some (R - 1, C - 1)) ∧
    ((float_0_5 <= df)%Q →
       ∃ a b, _longest_path_endpoints fuel self1 = Ok (a, b) ∧
              start self' = Some a ∧ end_ self' = Some b).
Proof.
  intros Hinit Hfuel.
  pose proof (init_valid_grid R C cs cx df self Hinit) as Hvalid.
  apply init_ok in Hinit as (HR2 & HC2 & _ & _ & _ & _ & Hself).
  assert (rows self = R ∧ cols self = C ∧ difficulty self = df) as (HR & HC & Hdf)
    by (by rewrite Hself).
  destruct (generate_spec fmul self g fuel Hvalid) as
    (sr & sc & g1 & g2 & self1 & g3 & T & Hsr & Hsc & _ & Hcarve & HR1 & HC1 & _ & Hwt &
     Hspan & Hgen); [rewrite HR, HC; lia|].
  rewrite HR, HC, Hdf in *.
  destruct (longest_path_endpoints_tree R C self1 (sr, sc) T HR1 HC1 Hwt Hspan fuel)
    as (a & b & Hlpe & _); [lia | lia | nia |].
  rewrite Hlpe, bind_Ok in Hgen.
  destruct (Qlt_le_dec df float_0_1) as [Hlt1 | Hge1].
  - exists sr, g1, sc, g2, self1, (set_endpoints self1 (0, 0) (1, 1)), g3.
    split_and!; try done.
    + intros Hge. by apply Qle_not_lt in Hge.
    + intros Hge. exfalso. apply (Qle_not_lt _ _ Hge).
      eapply Qlt_trans; [exact Hlt1 | done].
  - destruct (Qlt_le_dec df float_0_5) as [Hlt5 | Hge5].
    + exists sr, g1, sc, g2, self1, (set_endpoints self1 (0, 0) (R - 1, C - 1)), g3.
      split_and!; try done.
      * intros Hlt. by apply Qle_not_lt in Hge1.
      * intros Hge. by apply Qle_not_lt in Hge.
    + exists sr, g1, sc, g2, self1, (set_endpoints self1 a b), g3.
      split_and!; try done.
      * intros Hlt. by apply Qle_not_lt in Hge1.
      * intros _ Hlt. by apply Qle_not_lt in Hge5.
      * intros _. by exists a, b.
Qed.

(** C4. On every maze carved from a valid grid, [_longest_path_endpoints]
    returns a pair of cells [(a, b)] whose distance in the open-wall graph
    is at least the distance between any two cells of the grid. *)
Theorem longest_path_endpoints_diameter (self : MazeGenerator) (sr sc : Z) (g : G)
    (fuel : nat) :
  valid_grid self →
  in_bounds (rows self) (cols self) (sr, sc) →
  2 * (rows self * cols self) ≤ Z.of_nat fuel →
  ∃ self' g' a b n,
    _carve_passage fmul fuel self sr sc g = Ok (self', g') ∧
    _longest_path_endpoints fuel self' = Ok (a, b) ∧
    in_bounds (rows self) (cols self) a ∧ in_bounds (rows self) (cols self) b ∧
    is_dist (linked (rows self) (cols self) (grid self')) a b n ∧
    ∀ x y m, in_bounds (rows self) (cols self) x → in_bounds (rows self) (cols self) y →
      is_dist (linked (rows self) (cols self) (grid self')) x y m → (m ≤ n)%nat.
Proof.
  intros (HR2 & HC2 & Hgrid & Hwalls) Hroot Hfuel.
  pose (R := rows self). pose (C := cols self).
  destruct (carve_passage_tree fmul R C self eq_refl eq_refl HR2 HC2 Hgrid Hwalls
              fuel (sr, sc) g Hroot Hfuel)
    as (self' & g' & T & Hcarve & HR' & HC' & _ & _ & _ & _ & _ & Hwt & Hspan).
  destruct (longest_path_endpoints_tree R C self' (sr, sc) T HR' HC' Hwt Hspan fuel)
    as (a & b & Hlpe & Ha & Hb & Hmax); [unfold R; lia | unfold C; lia | unfold R, C; nia |].
  exists self', g', a, b, (tdist T a b). split_and!; try done.
  - by apply (wall_tree_is_dist R C (grid self') (sr, sc) T).
  - intros x y m Hx Hy Hm.
    pose proof (wall_tree_is_dist R C (grid self') (sr, sc) T Hwt Hspan x y Hx Hy) as Hxy.
    rewrite (is_dist_unique _ x y m (tdist T x y) Hm Hxy). by apply Hmax.
Qed.

(** C10. The carving leaves every wall on the outer boundary of the grid
    present: the N walls of row 0, the S walls of the last row, the W walls
    of column 0 and the E walls of the last column.  Hence the search, from
    any start cell of the grid, only ever holds cells of the grid in its
    queue and as its farthest cell, every open wall of a queued cell leads
    to a cell of the grid, no iteration raises, and
    [_longest_path_endpoints] returns. *)
Theorem carved_boundary_closed_bfs_in_bounds (self : MazeGenerator) (sr sc : Z)
    (g : G) (fuel : nat) :
  valid_grid self →
  in_bounds (rows self) (cols self) (sr, sc) →
  2 * (rows self * cols self) ≤ Z.of_nat fuel →
  ∃ self' g',
    _carve_passage fmul fuel self sr sc g = Ok (self', g') ∧
    rows self' = rows self ∧ cols self' = cols self ∧
    (∀ c, 0 ≤ c < cols self → wallb (grid self') (0, c) Dir.N = true) ∧
    (∀ c, 0 ≤ c < cols self → wallb (grid self') (rows self - 1, c) Dir.S = true) ∧
    (∀ r, 0 ≤ r < rows self → wallb (grid self') (r, 0) Dir.W = true) ∧
    (∀ r, 0 ≤ r < rows self → wallb (grid self') (r, cols self - 1) Dir.E = true) ∧
    (∀ s, in_bounds (rows self) (cols self) s →
       ∃ b0, bfs_init self' s = Ok b0 ∧
         ∀ n, ∃ bn, bfs_run n (grid self') b0 = Ok bn ∧
           in_bounds (rows self) (cols self) (b_farthest bn) ∧
           ∀ x, x ∈ b_q bn →
             in_bounds (rows self) (cols self) x ∧
             ∀ d, wallb (grid self') x d = false →
                  in_bounds (rows self) (cols self) (move x d)) ∧
    ∃ a b, _longest_path_endpoints fuel self' = Ok (a, b).
Proof.
  intros (HR2 & HC2 & Hgrid & Hwalls) Hroot Hfuel.
  pose (R := rows self). pose (C := cols self).
  destruct (carve_passage_tree fmul R C self eq_refl eq_refl HR2 HC2 Hgrid Hwalls
              fuel (sr, sc) g Hroot Hfuel)
    as (self' & g' & T & Hcarve & HR' & HC' & _ & _ & _ & _ & _ & Hwt & Hspan).
  pose proof (wall_tree_boundary R C (grid self') (sr, sc) T Hwt) as Hboundary.
  exists self', g'. split_and!; try done.
  - intros c Hc. apply Hboundary; unfold in_bounds, move; simpl; unfold R, C; lia.
  - intros c Hc. apply Hboundary; unfold in_bounds, move; simpl; unfold R, C; lia.
  - intros r Hr. apply Hboundary; unfold in_bounds, move; simpl; unfold R, C; lia.
  - intros r Hr. apply Hboundary; unfold in_bounds, move; simpl; unfold R, C; lia.
  - intros s Hs.
    destruct (bfs_init_inv R C self' T HR' HC' s Hs) as (b0 & Hinit & _ & Hinv0).
    exists b0. split; [done|]. intros n.
    destruct (bfs_run_inv R C (grid self') (sr, sc) T Hwt s n b0 Hinv0)
      as (bn & Hrun & Hinv).
    exists bn. split; [done|].
    split; [by destruct (bi_far _ _ _ _ _ _ _ _ _ Hinv)|].
    intros x Hx. destruct (bi_queue _ _ _ _ _ _ _ _ _ Hinv x Hx) as [Hxb _].
    split; [done|]. intros d Hopen.
    destruct (decide (in_bounds R C (move x d))) as [|Hout]; [done|].
    rewrite Hboundary in Hopen; done.
  - destruct (longest_path_endpoints_tree R C self' (sr, sc) T HR' HC' Hwt Hspan fuel)
      as (a & b & Hlpe & _); [unfold R; lia | unfold C; lia | unfold R, C; nia |].
    by exists a, b.
Qed.

End GeneratorProperties.

(** The generator constructed by [__init__ 2 2 20 0.75 0.75]. *)
Definition fresh_2x2 : MazeGenerator :=
  mkMaze 2 2 20 (3 # 4) (3 # 4)
    [[mkCell true true true true; mkCell true true true true];
     [mkCell true true true true; mkCell true true true true]]
    None None.

Section ConstructorProperties.
Context {G : Type} `{RandomSource G}.
Variable fmul : Q → Q → Q.

(** C6. The constructor raises [ValueError] exactly when [rows < 2] or
    [cols < 2] or the complexity or the difficulty lies outside the closed
    interval from 0 to 1; it raises nothing else, and a raised result
    carries no generator object.  Otherwise it returns the generator with
    the given parameters, a grid of [rows] by [cols] cells with all four
    walls of every cell present, and both endpoints unset. *)
Theorem init_validation (R C cs : Z) (cx df : Q) :
  ((∃ msg, __init__ R C cs cx df = Raise (ValueError msg)) ↔
   (R < 2 ∨ C < 2 ∨ ¬ (0 <= cx ∧ cx <= 1)%Q ∨ ¬ (0 <= df ∧ df <= 1)%Q)) ∧
  ((∃ self, __init__ R C cs cx df = Ok self) ↔
   (2 ≤ R ∧ 2 ≤ C ∧ (0 <= cx ∧ cx <= 1)%Q ∧ (0 <= df ∧ df <= 1)%Q)) ∧
  (∀ e, __init__ R C cs cx df = Raise e → ∃ msg, e = ValueError msg) ∧
  __init__ R C cs cx df ≠ OutOfFuel ∧
  (∀ self, __init__ R C cs cx df = Ok self →
     self = mkMaze R C cs cx df
              (replicate (Z.to_nat R)
                 (replicate (Z.to_nat C) (mkCell true true true true)))
              None None ∧
     wf_matrix R C (grid self) ∧
     ∀ x d, in_bounds R C x → wallb (grid self) x d = true).
Proof.
  assert (Hcases :
    (R < 2 ∨ C < 2 ∨ ¬ (0 <= cx ∧ cx <= 1)%Q ∨ ¬ (0 <= df ∧ df <= 1)%Q) ∧
    (∃ msg, __init__ R C cs cx df = Raise (ValueError msg)) ∨
    (2 ≤ R ∧ 2 ≤ C ∧ (0 <= cx ∧ cx <= 1)%Q ∧ (0 <= df ∧ df <= 1)%Q) ∧
    (∃ self, __init__ R C cs cx df = Ok self)).
  { unfold __init__.
    destruct (Z.ltb_spec R 2); [left; split; [by left | by eexists]|].
    destruct (Z.ltb_spec C 2); [left; split; [by right; left | by eexists]|].
    simpl.
    destruct (Qle_bool 0 cx) eqn:Hq1; simpl.
    2: { left. split; [|by eexists]. right. right. left. intros [Hc _].
         apply Qle_bool_iff in Hc. congruence. }
    destruct (Qle_bool cx 1) eqn:Hq2; simpl.
    2: { left. split; [|by eexists]. right. right. left. intros [_ Hc].
         apply Qle_bool_iff in Hc. congruence. }
    destruct (Qle_bool 0 df) eqn:Hq3; simpl.
    2: { left. split; [|by eexists]. right. right. right. intros [Hc _].
         apply Qle_bool_iff in Hc. congruence. }
    destruct (Qle_bool df 1) eqn:Hq4; simpl.
    2: { left. split; [|by eexists]. right. right. right. intros [_ Hc].
         apply Qle_bool_iff in Hc. congruence. }
    right. apply Qle_bool_iff in Hq1, Hq2, Hq3, Hq4. split; [done | by eexists]. }
  split; [|split; [|split; [|split]]].
  - split; [|intros Hbad].
    + intros [msg Hmsg]. destruct Hcases as [[Hbad _] | [_ [self Hself]]]; [done|].
      congruence.
    + destruct Hcases as [[_ Hraise] | [(? & ? & ? & ?) _]]; [done|].
      destruct Hbad as [? | [? | [? | ?]]]; (lia || done).
  - split; [|intros Hgood].
    + intros [self Hself]. destruct Hcases as [[_ [msg Hmsg]] | [Hgood _]]; [|done].
      congruence.
    + destruct Hcases as [[Hbad _] | [_ Hok]]; [|done].
      destruct Hgood as (? & ? & ? & ?).
      destruct Hbad as [? | [? | [? | ?]]]; (lia || done).
  - intros e He. destruct Hcases as [[_ [msg Hmsg]] | [_ [self Hself]]].
    + exists msg. congruence.
    + congruence.
  - destruct Hcases as [[_ [msg Hmsg]] | [_ [self Hself]]]; congruence.
  - intros self Hself.
    destruct (init_grid R C cs cx df self Hself) as (_ & _ & _ & _ & Hwf & Hwalls).
    by apply init_ok in Hself as (_ & _ & _ & _ & _ & _ & ->).
Qed.

(** C7, as the code has it.  On a freshly constructed generator [start] and
    [end] read as [None] and every wall reads as present, without any
    error; [draw] takes the [None] as its sign that the maze has not been
    generated and runs [generate] first, after which both endpoints are
    set. *)
Theorem endpoints_unset_before_generate (R C cs : Z) (cx df : Q)
    (self : MazeGenerator) :
  __init__ R C cs cx df = Ok self →
  start self = None ∧ end_ self = None ∧
  (∀ r c, 0 ≤ r < R → 0 ≤ c < C →
     getitem2 (grid self) r c = Ok (mkCell true true true true)) ∧
  (∀ fuel (g : G), draw_generate fmul fuel self g = generate fmul fuel self g) ∧
  (∀ fuel (g : G), 2 * (R * C) ≤ Z.of_nat fuel →
     ∃ self' g' a b, generate fmul fuel self g = Ok (self', g') ∧
                     start self' = Some a ∧ end_ self' = Some b).
Proof.
  intros Hinit.
  pose proof (init_valid_grid R C cs cx df self Hinit) as Hvalid.
  destruct (init_grid R C cs cx df self Hinit) as (HR & HC & HR2 & HC2 & Hwf & Hwalls).
  pose proof Hinit as Hself. apply init_ok in Hself as (_ & _ & _ & _ & _ & _ & Hself).
  split_and!.
  - by rewrite Hself.
  - by rewrite Hself.
  - intros r c Hr Hc.
    destruct (getitem2_in_bounds R C (grid self) (r, c) Hwf) as (cl & Hat & Hget); [done|].
    simpl in Hget. rewrite Hget. f_equal.
    rewrite Hself in Hat. simpl in Hat. rewrite at_replicate in Hat by done. congruence.
  - intros fuel g. unfold draw_generate. by rewrite Hself.
  - intros fuel g Hfuel. apply generate_ok; [done|]. by rewrite HR, HC.
Qed.



End ConstructorProperties.

(** * The properties at concrete inputs *)

Lemma fresh_2x2_init : __init__ 2 2 20 (3 # 4) (3 # 4) = Ok fresh_2x2.
Proof. reflexivity. Defined.

Lemma fresh_2x2_valid : valid_grid fresh_2x2.
Proof.
  unfold valid_grid, fresh_2x2; simpl. split; [lia|]. split; [lia|]. split.
  - split; [reflexivity|]. repeat constructor.
  - intros [r c] d [Hr Hc]. simpl in Hr, Hc.
    assert (r = 0 ∨ r = 1) as [-> | ->] by lia;
      (assert (c = 0 ∨ c = 1) as [-> | ->] by lia); by destruct d.
Defined.

Lemma carve_passage_spanning_tree_witness :
  valid_grid fresh_2x2 ∧ in_bounds 2 2 (0, 0) ∧ 2 * (2 * 2) ≤ Z.of_nat 8 ∧
  ∃ st0 st,
    carve_init fresh_2x2 0 0 (42 : Z) = Ok st0 ∧
    carve_loop Qmult 8 fresh_2x2 st0 = Ok st ∧
    (∀ x, in_bounds 2 2 x → marked (c_visited st) x = true) ∧
    connected (linked 2 2 (c_grid st)) (in_bounds 2 2) ∧
    acyclic (linked 2 2 (c_grid st)) ∧
    Z.of_nat (open_wall_pairs 2 2 (c_grid st)) = 3.
Proof.
  assert (Hb : in_bounds 2 2 (0, 0)) by (unfold in_bounds; simpl; lia).
  assert (Hf : 2 * (2 * 2) ≤ Z.of_nat 8) by (simpl; lia).
  split; [exact fresh_2x2_valid|]. split; [exact Hb|]. split; [exact Hf|].
  destruct (carve_passage_spanning_tree Qmult fresh_2x2 0 0 (42 : Z) 8
              fresh_2x2_valid Hb Hf)
    as (st0 & st & H1 & H2 & _ & H3 & _ & _ & H4 & H5 & H6).
  exists st0, st. repeat (split; [assumption|]). exact H6.
Defined.

Lemma unvisited_neighbours_not_shuffled_witness :
  ∃ g' : Z,
    _unvisited_neighbours Qmult (mkMaze 3 3 20 1 (3 # 4) [] None None) 1 1
      [[false; false; false]; [false; false; false]; [false; false; false]] (42 : Z)
    = Ok ([(0, 1, Dir.N, Dir.S); (2, 1, Dir.S, Dir.N);
           (1, 2, Dir.E, Dir.W); (1, 0, Dir.W, Dir.E)], g') ∧
    foldl (neighbour_step (mkMaze 3 3 20 1 (3 # 4) [] None None) 1 1
             [[false; false; false]; [false; false; false]; [false; false; false]])
          (Ok []) DIR_VEC_items
    = Ok [(0, 1, Dir.N, Dir.S); (2, 1, Dir.S, Dir.N);
          (1, 2, Dir.E, Dir.W); (1, 0, Dir.W, Dir.E)].
Proof.
  eexists.
  assert (Hret : _unvisited_neighbours Qmult (mkMaze 3 3 20 1 (3 # 4) [] None None) 1 1
            [[false; false; false]; [false; false; false]; [false; false; false]] (42 : Z)
          = Ok ([(0, 1, Dir.N, Dir.S); (2, 1, Dir.S, Dir.N);
                 (1, 2, Dir.E, Dir.W); (1, 0, Dir.W, Dir.E)], _))
    by (vm_compute; reflexivity).
  split; [exact Hret|].
  exact (proj1 (unvisited_neighbours_not_shuffled Qmult _ _ _ _ _ _ _ Hret)).
Defined.

Lemma generate_endpoint_policy_witness :
  __init__ 2 2 20 (3 # 4) (3 # 4) = Ok fresh_2x2 ∧ 2 * (2 * 2) ≤ Z.of_nat 8 ∧
  ∃ self1 self' g' a b,
    generate Qmult 8 fresh_2x2 (42 : Z) = Ok (self', g') ∧
    _longest_path_endpoints 8 self1 = Ok (a, b) ∧
    grid self' = grid self1 ∧ start self' = Some a ∧ end_ self' = Some b.
Proof.
  assert (Hf : 2 * (2 * 2) ≤ Z.of_nat 8) by (simpl; lia).
  split; [exact fresh_2x2_init|]. split; [exact Hf|].
  destruct (generate_endpoint_policy Qmult 2 2 20 (3 # 4) (3 # 4) fresh_2x2 (42 : Z) 8
              fresh_2x2_init Hf)
    as (sr & g1 & sc & g2 & self1 & self' & g' & _ & _ & _ & Hgen & Hgrid & _ & _ & Hfar).
  destruct Hfar as (a & b & Hlpe & Ha & Hb); [unfold float_0_5, Qle; simpl; lia|].
  exists self1, self', g', a, b. repeat (split; [assumption|]). exact Hb.
Defined.

Lemma longest_path_endpoints_diameter_witness :
  valid_grid fresh_2x2 ∧ in_bounds 2 2 (0, 0) ∧ 2 * (2 * 2) ≤ Z.of_nat 8 ∧
  ∃ self' g' a b n,
    _carve_passage Qmult 8 fresh_2x2 0 0 (42 : Z) = Ok (self', g') ∧
    _longest_path_endpoints 8 self' = Ok (a, b) ∧
    is_dist (linked 2 2 (grid self')) a b n ∧
    ∀ x y m, in_bounds 2 2 x → in_bounds 2 2 y →
      is_dist (linked 2 2 (grid self')) x y m → (m ≤ n)%nat.
Proof.
  assert (Hb : in_bounds 2 2 (0, 0)) by (unfold in_bounds; simpl; lia).
  assert (Hf : 2 * (2 * 2) ≤ Z.of_nat 8) by (simpl; lia).
  split; [exact fresh_2x2_valid|]. split; [exact Hb|]. split; [exact Hf|].
  destruct (longest_path_endpoints_diameter Qmult fresh_2x2 0 0 (42 : Z) 8
              fresh_2x2_valid Hb Hf)
    as (self' & g' & a & b & n & H1 & H2 & _ & _ & H3 & H4).
  exists self', g', a, b, n. repeat (split; [assumption|]). exact H4.
Defined.

Lemma wall_symmetry_invariant_witness :
  wf_matrix 2 2 (grid fresh_2x2) ∧ wall_symmetric 2 2 (grid fresh_2x2) ∧
  in_bounds 2 2 (0, 0) ∧
  ∃ st0, carve_init fresh_2x2 0 0 (42 : Z) = Ok st0 ∧
    ∀ n, ∃ st, carve_run Qmult n fresh_2x2 st0 = Ok st ∧ wall_symmetric 2 2 (c_grid st).
Proof.
  assert (Hb : in_bounds 2 2 (0, 0)) by (unfold in_bounds; simpl; lia).
  destruct fresh_2x2_valid as (_ & _ & Hwf & Hwalls).
  assert (Hsym : wall_symmetric 2 2 (grid fresh_2x2)).
  { intros x d Hx Hy. rewrite (Hwalls x d Hx). symmetry. exact (Hwalls _ _ Hy). }
  split; [exact Hwf|]. split; [exact Hsym|]. split; [exact Hb|].
  destruct (wall_symmetry_invariant Qmult fresh_2x2 0 0 (42 : Z) Hwf Hsym Hb)
    as (_ & st0 & H1 & H2 & _).
  exists st0. split; assumption.
Defined.

Lemma init_validation_witness :
  (∃ msg, __init__ 1 5 20 (3 # 4) (3 # 4) = Raise (ValueError msg)) ∧
  (∃ msg, __init__ 5 5 20 (3 # 2) (3 # 4) = Raise (ValueError msg)) ∧
  (∃ self, __init__ 5 5 20 (3 # 4) (3 # 4) = Ok self).
Proof.
  split; [|split].
  - apply (proj1 (init_validation 1 5 20 (3 # 4) (3 # 4))). left. lia.
  - apply (proj1 (init_validation 5 5 20 (3 # 2) (3 # 4))). right. right. left.
    intros [_ Hle]. unfold Qle in Hle. simpl in Hle. lia.
  - apply (proj1 (proj2 (init_validation 5 5 20 (3 # 4) (3 # 4)))).
    unfold Qle. simpl. lia.
Defined.

(** C7 as claimed fails: on the freshly constructed 2 by 2 generator the
    reads of [start] and [end] succeed and give the default [None]. *)
Lemma fresh_endpoints_read_default :
  __init__ 2 2 20 (3 # 4) (3 # 4) = Ok fresh_2x2 ∧
  start fresh_2x2 = None ∧ end_ fresh_2x2 = None.
Proof. repeat split. Qed.

Lemma endpoints_unset_before_generate_witness :
  __init__ 2 2 20 (3 # 4) (3 # 4) = Ok fresh_2x2 ∧
  start fresh_2x2 = None ∧ end_ fresh_2x2 = None ∧
  draw_generate Qmult 8 fresh_2x2 (42 : Z) = generate Qmult 8 fresh_2x2 (42 : Z).
Proof.
  split; [exact fresh_2x2_init|].
  destruct (endpoints_unset_before_generate Qmult 2 2 20 (3 # 4) (3 # 4) fresh_2x2
              fresh_2x2_init) as (H1 & H2 & _ & H3 & _).
  split; [exact H1|]. split; [exact H2|]. apply H3.
Defined.

Lemma carve_passage_terminates_witness :
  valid_grid fresh_2x2 ∧ in_bounds 2 2 (0, 0) ∧
  ∃ self' g', _carve_passage Qmult 8 fresh_2x2 0 0 (42 : Z) = Ok (self', g').
Proof.
  assert (Hb : in_bounds 2 2 (0, 0)) by (unfold in_bounds; simpl; lia).
  split; [exact fresh_2x2_valid|]. split; [exact Hb|].
  destruct (carve_passage_terminates Qmult fresh_2x2 0 0 (42 : Z) fresh_2x2_valid Hb)
    as [Hterm _].
  apply Hterm. simpl. lia.
Defined.


Lemma carved_boundary_closed_bfs_in_bounds_witness :
  valid_grid fresh_2x2 ∧ in_bounds 2 2 (0, 0) ∧ 2 * (2 * 2) ≤ Z.of_nat 8 ∧
  ∃ self' g',
    _carve_passage Qmult 8 fresh_2x2 0 0 (42 : Z) = Ok (self', g') ∧
    (∀ c, 0 ≤ c < 2 → wallb (grid self') (0, c) Dir.N = true) ∧
    ∃ a b, _longest_path_endpoints 8 self' = Ok (a, b).
Proof.
  assert (Hb : in_bounds 2 2 (0, 0)) by (unfold in_bounds; simpl; lia).
  assert (Hf : 2 * (2 * 2) ≤ Z.of_nat 8) by (simpl; lia).
  split; [exact fresh_2x2_valid|]. split; [exact Hb|]. split; [exact Hf|].
  destruct (carved_boundary_closed_bfs_in_bounds Qmult fresh_2x2 0 0 (42 : Z) 8
              fresh_2x2_valid Hb Hf)
    as (self' & g' & H1 & _ & _ & H2 & _ & _ & _ & _ & H3).
  exists self', g'. split; [exact H1|]. split; [exact H2|exact H3].
Defined.

(** * Further properties of the carving and the search *)

Lemma getitem_out_of_range {A} (l : list A) (i : Z) :
  i < - Z.of_nat (length l) ∨ Z.of_nat (length l) ≤ i → getitem l i = Raise IndexError.
Proof.
  intros Hi. unfold getitem, py_index.
  destruct (Z.leb_spec 0 i).
  - destruct (Z.ltb_spec i (Z.of_nat (length l))); [lia | done].
  - destruct (Z.leb_spec (- Z.of_nat (length l)) i); [lia | done].
Qed.

Lemma setitem_out_of_range {A} (l : list A) (i : Z) (a : A) :
  i < - Z.of_nat (length l) ∨ Z.of_nat (length l) ≤ i → setitem l i a = Raise IndexError.
Proof.
  intros Hi. unfold setitem, py_index.
  destruct (Z.leb_spec 0 i).
  - destruct (Z.ltb_spec i (Z.of_nat (length l))); [lia | done].
  - destruct (Z.leb_spec (- Z.of_nat (length l)) i); [lia | done].
Qed.

(** An index Python accepts, negative ones included, reads an entry of the
    list. *)
Lemma getitem_accepted {A} (l : list A) (i : Z) :
  - Z.of_nat (length l) ≤ i < Z.of_nat (length l) → ∃ a, getitem l i = Ok a ∧ a ∈ l.
Proof.
  intros Hi. unfold getitem, py_index.
  destruct (Z.leb_spec 0 i).
  - destruct (Z.ltb_spec i (Z.of_nat (length l))); [|lia].
    destruct (lookup_lt_is_Some_2 l (Z.to_nat i)) as [a Ha]; [lia|].
    rewrite Ha. exists a. split; [done|]. by eapply list_elem_of_lookup_2.
  - destruct (Z.leb_spec (- Z.of_nat (length l)) i); [|lia].
    destruct (lookup_lt_is_Some_2 l (Z.to_nat (Z.of_nat (length l) + i))) as [a Ha]; [lia|].
    rewrite Ha. exists a. split; [done|]. by eapply list_elem_of_lookup_2.
Qed.

Section NeighbourProperties.
Context {G : Type} `{RandomSource G}.
Variable fmul : Q → Q → Q.

(** X1. On a visited matrix of the grid's shape, [_unvisited_neighbours]
    raises nothing and returns exactly the cells next to [(r, c)] that lie
    in the grid and are not visited, each once (so at most four), each with
    the direction that leads to it and the opposite direction. *)
Theorem unvisited_neighbours_exact (self : MazeGenerator) (r c : Z)
    (visited : list (list bool)) (g : G) :
  wf_matrix (rows self) (cols self) visited →
  ∃ nbs g', _unvisited_neighbours fmul self r c visited g = Ok (nbs, g') ∧
    NoDup nbs ∧ (length nbs ≤ 4)%nat ∧
    ∀ nr nc d od, (nr, nc, d, od) ∈ nbs ↔
      (nr, nc) = move (r, c) d ∧ od = OPPOSITE d ∧
      in_bounds (rows self) (cols self) (nr, nc) ∧ marked visited (nr, nc) = false.
Proof.
  intros Hwf.
  destruct (unvisited_neighbours_spec fmul self (rows self) (cols self) visited (r, c) g
              eq_refl eq_refl Hwf) as (g' & Hret).
  simpl in Hret. eexists _, g'. split; [exact Hret|].
  assert (Hnd : NoDup (unvisited_dirs (rows self) (cols self) visited (r, c))).
  { unfold unvisited_dirs. apply NoDup_filter.
    apply (bool_decide_unpack _). vm_compute. exact I. }
  split; [|split].
  - apply NoDup_fmap_2; [|done]. intros d d' Heq. unfold to_neighbour in Heq. congruence.
  - rewrite length_fmap. unfold unvisited_dirs.
    etrans; [apply length_filter | done].
  - intros nr nc d od. rewrite list_elem_of_fmap. split.
    + intros (d' & Heq & Hd'). apply unvisited_dirs_spec in Hd' as [Hin Hm].
      unfold to_neighbour in Heq. injection Heq as -> -> -> ->.
      by split_and!.
    + intros (Hmove & -> & Hin & Hm). exists d. split.
      * unfold to_neighbour. by rewrite <- Hmove.
      * apply unvisited_dirs_spec. by rewrite <- Hmove.
Qed.

(** X2. A start cell whose row or column index Python rejects for the
    visited matrix ([start_r] outside [-rows .. rows - 1] or [start_c]
    outside [-cols .. cols - 1]) makes [_carve_passage] raise [IndexError]
    before its loop: no wall is touched and the generator is not used. *)
Theorem carve_passage_start_out_of_range (fuel : nat) (self : MazeGenerator)
    (sr sc : Z) (g : G) :
  0 ≤ rows self → 0 ≤ cols self →
  sr < - rows self ∨ rows self ≤ sr ∨ sc < - cols self ∨ cols self ≤ sc →
  carve_init self sr sc g = Raise IndexError ∧
  _carve_passage fmul fuel self sr sc g = Raise IndexError.
Proof.
  intros HR HC Hout.
  assert (Hinit : carve_init self sr sc g = Raise IndexError).
  { unfold carve_init, setitem2.
    set (m := replicate (Z.to_nat (rows self)) (replicate (Z.to_nat (cols self)) false)).
    assert (Hlen : Z.of_nat (length m) = rows self)
      by (unfold m; rewrite length_replicate; lia).
    destruct (decide (sr < - rows self ∨ rows self ≤ sr)) as [Hr | Hr].
    - rewrite getitem_out_of_range by lia. done.
    - destruct (getitem_accepted m sr) as (row & -> & Hrow); [lia|].
      rewrite bind_Ok. apply elem_of_replicate in Hrow as [-> _].
      rewrite setitem_out_of_range; [done|]. rewrite length_replicate. lia. }
  split; [done|]. unfold _carve_passage. by rewrite Hinit.
Qed.

End NeighbourProperties.

Section EndpointProperties.
Context {G : Type} `{RandomSource G}.
Variable fmul : Q → Q → Q.

(** X3. After [generate] on a freshly constructed generator, [start] and
    [end] are two different cells of the grid, whatever the difficulty. *)
Theorem generate_endpoints_distinct (R C cs : Z) (cx df : Q) (self : MazeGenerator)
    (g : G) (fuel : nat) :
  __init__ R C cs cx df = Ok self →
  2 * (R * C) ≤ Z.of_nat fuel →
  ∃ self' g' a b,
    generate fmul fuel self g = Ok (self', g') ∧
    start self' = Some a ∧ end_ self' = Some b ∧
    in_bounds R C a ∧ in_bounds R C b ∧ a ≠ b.
Proof.
  intros Hinit Hfuel.
  pose proof (init_valid_grid R C cs cx df self Hinit) as Hvalid.
  destruct (init_grid R C cs cx df self Hinit) as (HR & HC & HR2 & HC2 & _).
  destruct (generate_spec fmul self g fuel Hvalid) as
    (sr & sc & g1 & g2 & self1 & g3 & T & _ & _ & _ & Hcarve & HR1 & HC1 & _ & Hwt &
     Hspan & Hgen); [rewrite HR, HC; lia|].
  rewrite HR, HC in *.
  destruct (longest_path_endpoints_tree R C self1 (sr, sc) T HR1 HC1 Hwt Hspan fuel)
    as (a & b & Hlpe & Ha & Hb & Hmax); [lia | lia | nia |].
  rewrite Hlpe, bind_Ok in Hgen.
  destruct (Qlt_le_dec (difficulty self) float_0_1);
    [|destruct (Qlt_le_dec (difficulty self) float_0_5)].
  - eexists _, _, (0, 0), (1, 1). split; [exact Hgen|]. simpl.
    split_and!; try done; unfold in_bounds; simpl; lia.
  - eexists _, _, (0, 0), (R - 1, C - 1). split; [exact Hgen|]. simpl.
    split_and!; try done; [unfold in_bounds; simpl; lia.. |].
    intros [= ? ?]. lia.
  - eexists _, _, a, b. split; [exact Hgen|]. simpl. split_and!; try done.
    intros ->.
    assert (H00 : in_bounds R C (0, 0)) by (unfold in_bounds; simpl; lia).
    assert (H01 : in_bounds R C (0, 1)) by (unfold in_bounds; simpl; lia).
    pose proof (Hmax (0, 0) (0, 1) H00 H01) as Hle. rewrite tdist_refl in Hle.
    assert ((0, 0) = (0, 1)) as [=].
    apply (tdist_zero (sr, sc) T); [apply Hwt | by apply Hspan.. | lia].
Qed.

(** X4. On a maze carved from a valid grid, [bfs(start)] from any cell of
    the grid returns a distance matrix whose entry for every cell is the
    length of a shortest walk through open walls from [start] to that cell
    (no entry is left at -1), and the returned farthest cell is at least as
    far from [start] as every cell. *)
Theorem bfs_distances_exact (self : MazeGenerator) (sr sc : Z) (g : G)
    (fuel : nat) (s : Z * Z) :
  valid_grid self →
  in_bounds (rows self) (cols self) (sr, sc) →
  2 * (rows self * cols self) ≤ Z.of_nat fuel →
  in_bounds (rows self) (cols self) s →
  ∃ self' g' far dist parent,
    _carve_passage fmul fuel self sr sc g = Ok (self', g') ∧
    bfs fuel self' s = Ok (far, dist, parent) ∧
    in_bounds (rows self) (cols self) far ∧
    ∀ x, in_bounds (rows self) (cols self) x →
      ∃ n m, getitem2 dist x.1 x.2 = Ok (Z.of_nat n) ∧
        is_dist (linked (rows self) (cols self) (grid self')) s x n ∧
        is_dist (linked (rows self) (cols self) (grid self')) s far m ∧
        (n ≤ m)%nat.
Proof.
  intros (HR2 & HC2 & Hgrid & Hwalls) Hroot Hfuel Hs.
  pose (R := rows self). pose (C := cols self).
  destruct (carve_passage_tree fmul R C self eq_refl eq_refl HR2 HC2 Hgrid Hwalls
              fuel (sr, sc) g Hroot Hfuel)
    as (self' & g' & T & Hcarve & HR' & HC' & _ & _ & _ & _ & _ & Hwt & Hspan).
  assert (Hfuel' : R * C + 1 ≤ Z.of_nat fuel) by (unfold R, C; nia).
  destruct (bfs_init_inv R C self' T HR' HC' s Hs) as (st0 & Hinit & Hq0 & Hinv0).
  destruct (bfs_loop_inv R C (grid self') (sr, sc) T Hwt s fuel st0 Hinv0)
    as (st & Hloop & Hq & Hinv).
  { rewrite Hq0. simpl.
    pose proof (length_all_cells R C ltac:(unfold R; lia) ltac:(unfold C; lia)). lia. }
  pose proof (bi_wf _ _ _ _ _ _ _ _ _ Hinv) as Hdwf.
  rewrite Hq in Hinv.
  destruct (bfs_inv_final R C (grid self') (sr, sc) T Hwt Hspan s _ _ Hinv) as [Hfar Hall].
  exists self', g', (b_farthest st), (b_dist st), (b_parent st).
  split; [done|]. split.
  { unfold bfs. by rewrite Hinit, bind_Ok, Hloop, bind_Ok. }
  split; [done|]. intros x Hx. destruct (Hall x Hx) as [Hval Hle].
  exists (tdist T s x), (tdist T s (b_farthest st)). split_and!.
  - destruct (getitem2_in_bounds R C (b_dist st) x Hdwf Hx) as (k & Hat & ->).
    f_equal. unfold dval in Hval. by rewrite Hat in Hval.
  - by apply (wall_tree_is_dist R C (grid self') (sr, sc) T).
  - by apply (wall_tree_is_dist R C (grid self') (sr, sc) T).
  - done.
Qed.

End EndpointProperties.

(** * Paths of a tree: one simple path between two vertices *)

Section Paths.
Context {V : Type}.
Variable E : V → V → Prop.

(** [path x p z]: the list [p] of vertices starts with [x], ends with [z],
    and each vertex is linked to the next. *)
Inductive path : V → list V → V → Prop :=
  | path_end x : path x [x] x
  | path_step x y p z : E x y → path y p z → path x (x :: p) z.

Lemma path_ends x p z : path x p z → x ∈ p ∧ z ∈ p.
Proof.
  induction 1 as [x | x y p z Hxy Hp [_ IH]].
  - split; apply list_elem_of_here.
  - split; [apply list_elem_of_here | by apply list_elem_of_further].
Qed.

Lemma path_walk x p z : path x p z → walk E x z (length p - 1).
Proof.
  induction 1 as [x | x y p z Hxy Hp IH]; [constructor|].
  assert (length p ≠ 0)%nat.
  { destruct (path_ends y p z Hp) as [Hin _]. by destruct p; [apply elem_of_nil in Hin|]. }
  replace (length (x :: p) - 1)%nat with (Datatypes.S (length p - 1)) by (simpl; lia).
  by eapply walk_step.
Qed.

End Paths.

Lemma path_impl {V} (E E' : V → V → Prop) x p z :
  (∀ a b, E a b → E' a b) → path E x p z → path E' x p z.
Proof.
  intros Himpl. induction 1 as [|x y p z Hxy Hp IH]; [constructor|].
  apply path_step with y; [by apply Himpl | done].
Qed.

Section TreePaths.
Context {V : Type} `{EqDecision V}.
Implicit Types (T : list (V * V)) (x y z root s : V) (p q : list V).

(** Once a simple path has stepped away from [s] it keeps moving away. *)
Lemma tree_path_away root T s a b p z n :
  wf_tree root T → tedge T a b → path (tedge T) b p z → NoDup (a :: p) →
  tdist T s a = n → tdist T s b = Datatypes.S n →
  tdist T s z = (n + length p)%nat.
Proof.
  intros Hwf Hab Hp. revert a n Hab.
  induction Hp as [b | b c p z Hbc Hp IH]; intros a n Hab Hnd Ha Hb.
  - simpl. lia.
  - assert (Hc : c ∈ p) by (by destruct (path_ends _ c p z Hp)).
    assert (Hca : c ≠ a).
    { intros ->. apply NoDup_cons in Hnd as [Hnin _]. apply Hnin.
      by apply list_elem_of_further. }
    destruct (tdist_edge_step root T b c s Hwf Hbc) as [Hfar | Hnear].
    + rewrite (IH b (Datatypes.S n)); [simpl; lia | done | | done | lia].
      by apply NoDup_cons in Hnd as [_ Hnd].
    + exfalso. apply Hca.
      apply (tdist_pred_unique root T s b c a); [done | done | by apply tedge_sym | lia | lia].
Qed.

(** A simple path of a tree is a shortest one. *)
Lemma tree_path_geodesic root T x p z :
  wf_tree root T → path (tedge T) x p z → NoDup p →
  length p = Datatypes.S (tdist T x z).
Proof.
  intros Hwf Hp Hnd. destruct Hp as [x | x y p z Hxy Hp].
  - by rewrite tdist_refl.
  - rewrite (tree_path_away root T x x y p z O Hwf Hxy Hp Hnd).
    + done.
    + apply tdist_refl.
    + by apply (tdist_edge root).
Qed.

Lemma tree_path_unique root T x z p q :
  wf_tree root T →
  path (tedge T) x p z → NoDup p → path (tedge T) x q z → NoDup q → p = q.
Proof.
  intros Hwf Hp. revert q. induction Hp as [x | x y p z Hxy Hp IH]; intros q Hndp Hq Hndq.
  - inversion Hq as [|x' y' q' z' Hxy' Hq']; subst; [done|].
    destruct (path_ends _ y' q' x Hq') as [_ Hin].
    apply NoDup_cons in Hndq as [Hnin _]. contradiction.
  - assert (Hz : z ∈ p) by (by destruct (path_ends _ y p z Hp)).
    apply NoDup_cons in Hndp as [Hxp Hndp].
    inversion Hq as [|x' y' q' z' Hxy' Hq']; subst; [contradiction|].
    apply NoDup_cons in Hndq as [Hxq Hndq'].
    pose proof (tree_path_geodesic root T y p z Hwf Hp Hndp) as H1.
    pose proof (tree_path_geodesic root T x (x :: p) z Hwf
                  (path_step _ x y p z Hxy Hp)) as H2.
    pose proof (tree_path_geodesic root T y' q' z Hwf Hq' Hndq') as H3.
    pose proof (tree_path_geodesic root T x (x :: q') z Hwf
                  (path_step _ x y' q' z Hxy' Hq')) as H4.
    specialize (H2 ltac:(by apply NoDup_cons)).
    specialize (H4 ltac:(by apply NoDup_cons)).
    simpl in H2, H4.
    assert (y = y') as <-.
    { apply (tdist_pred_unique root T z x y y'); [done..| |].
      - rewrite (tdist_sym T z y), (tdist_sym T z x). lia.
      - rewrite (tdist_sym T z y'), (tdist_sym T z x). lia. }
    f_equal. by apply IH.
Qed.

Lemma tree_path_exists root T x z :
  wf_tree root T → x ∈ nodes root T → z ∈ nodes root T →
  ∃ p, path (tedge T) x p z ∧ NoDup p.
Proof.
  intros Hwf Hx Hz.
  assert (Hgen : ∀ n x, x ∈ nodes root T → tdist T x z = n →
            ∃ p, path (tedge T) x p z ∧ NoDup p ∧ ∀ w, w ∈ p → (tdist T w z ≤ n)%nat).
  { induction n as [|n IH]; intros y Hy Hn.
    - assert (y = z) as -> by (by apply (tdist_zero root T)).
      exists [z]. split; [constructor|]. split; [apply NoDup_singleton|].
      intros w ->%list_elem_of_singleton. by rewrite tdist_refl.
    - assert (Hne : y ≠ z) by (intros ->; rewrite tdist_refl in Hn; lia).
      destruct (tdist_closer root T y z Hwf Hy Hz Hne) as (u & Hyu & Hu & Hd).
      destruct (IH u Hu ltac:(lia)) as (p & Hp & Hnd & Hbound).
      exists (y :: p). split; [by apply path_step with u|]. split.
      + apply NoDup_cons. split; [|done]. intros Hin. apply Hbound in Hin. lia.
      + intros w [-> | Hw]%elem_of_cons; [lia|]. apply Hbound in Hw. lia. }
  destruct (Hgen (tdist T x z) x Hx eq_refl) as (p & Hp & Hnd & _). by exists p.
Qed.

End TreePaths.

Section UniqueSolution.
Context {G : Type} `{RandomSource G}.
Variable fmul : Q → Q → Q.

(** X5. In a maze carved from a valid grid, any two cells of the grid are
    joined by exactly one simple path through open walls (a list of
    distinct cells, each with an open wall toward the next), and that path
    is a shortest one: the maze has exactly one solution between any
    entrance and exit. *)
Theorem carved_maze_unique_path (self : MazeGenerator) (sr sc : Z) (g : G)
    (fuel : nat) :
  valid_grid self →
  in_bounds (rows self) (cols self) (sr, sc) →
  2 * (rows self * cols self) ≤ Z.of_nat fuel →
  ∃ self' g',
    _carve_passage fmul fuel self sr sc g = Ok (self', g') ∧
    ∀ x z, in_bounds (rows self) (cols self) x → in_bounds (rows self) (cols self) z →
      ∃ p, path (linked (rows self) (cols self) (grid self')) x p z ∧ NoDup p ∧
           is_dist (linked (rows self) (cols self) (grid self')) x z (length p - 1) ∧
           ∀ q, path (linked (rows self) (cols self) (grid self')) x q z → NoDup q →
                q = p.
Proof.
  intros (HR2 & HC2 & Hgrid & Hwalls) Hroot Hfuel.
  pose (R := rows self). pose (C := cols self).
  destruct (carve_passage_tree fmul R C self eq_refl eq_refl HR2 HC2 Hgrid Hwalls
              fuel (sr, sc) g Hroot Hfuel)
    as (self' & g' & T & Hcarve & _ & _ & _ & _ & _ & _ & _ & Hwt & Hspan).
  exists self', g'. split; [done|]. intros x z Hx Hz.
  pose proof (wt_tree _ _ _ _ _ Hwt) as Hwf.
  destruct (tree_path_exists (sr, sc) T x z Hwf) as (p & Hp & Hnd); [by apply Hspan..|].
  assert (Hto : ∀ a b, tedge T a b → linked R C (grid self') a b)
    by (intros a b; apply (wall_tree_linked R C (grid self') (sr, sc) T Hwt)).
  assert (Hfrom : ∀ a b, linked R C (grid self') a b → tedge T a b)
    by (intros a b; apply (wall_tree_linked R C (grid self') (sr, sc) T Hwt)).
  exists p. split_and!.
  - by apply (path_impl (tedge T)).
  - done.
  - rewrite (tree_path_geodesic (sr, sc) T x p z Hwf Hp Hnd).
    replace (Datatypes.S (tdist T x z) - 1)%nat with (tdist T x z) by lia.
    by apply (wall_tree_is_dist R C (grid self') (sr, sc) T).
  - intros q Hq Hndq. apply (tree_path_unique (sr, sc) T x z q p Hwf); try done.
    by apply (path_impl (linked R C (grid self'))).
Qed.

End UniqueSolution.

(** * Carving a grid in any state *)

Lemma walk_snoc {V} (E : V → V → Prop) x y z n :
  walk E x y n → E y z → walk E x z (Datatypes.S n).
Proof.
  induction 1 as [x | x y' y n Hxy Hw IH]; intros Hyz.
  - eapply walk_step; [done | constructor].
  - eapply walk_step; [done | by apply IH].
Qed.

(** A set of cells that holds one cell of the grid and, with a cell, its
    neighbours in the grid, holds every cell of the grid. *)
Lemma grid_closure (R C : Z) (P : Z * Z → Prop) (root : Z * Z) :
  in_bounds R C root → P root →
  (∀ z d, in_bounds R C z → P z → in_bounds R C (move z d) → P (move z d)) →
  ∀ x, in_bounds R C x → P x.
Proof.
  intros Hroot Hbase Hstep.
  assert (Hind : ∀ n x, in_bounds R C x →
            Z.abs (x.1 - root.1) + Z.abs (x.2 - root.2) = Z.of_nat n → P x).
  { induction n as [|n IH]; intros [r c] [Hr Hc] Hn; simpl in *.
    - assert ((r, c) = root) as -> by (destruct root; simpl in *; f_equal; lia). done.
    - destruct root as [r0 c0]. simpl in *. destruct Hroot as [Hr0 Hc0]. simpl in *.
      assert (∃ d, in_bounds R C (move (r, c) d) ∧
                Z.abs ((move (r, c) d).1 - r0) + Z.abs ((move (r, c) d).2 - c0)
                = Z.of_nat n) as (d & Hin & Hdist).
      { destruct (Z.lt_trichotomy r r0) as [Hlt | [Heq | Hgt]].
        - exists Dir.S. unfold in_bounds, move. simpl. lia.
        - destruct (Z.lt_trichotomy c c0) as [Hlt | [Heq' | Hgt]].
          + exists Dir.E. unfold in_bounds, move. simpl. lia.
          + lia.
          + exists Dir.W. unfold in_bounds, move. simpl. lia.
        - exists Dir.N. unfold in_bounds, move. simpl. lia. }
      rewrite <- (move_opposite (r, c) d). apply Hstep.
      + done.
      + by apply IH.
      + by rewrite move_opposite. }
  intros x Hx.
  by eapply (Hind (Z.to_nat (Z.abs (x.1 - root.1) + Z.abs (x.2 - root.2)))); [|lia].
Qed.

Section CarveAnyGrid.
Context {G : Type} `{RandomSource G}.
Variable fmul : Q → Q → Q.
Variable self : MazeGenerator.
Variables (R C : Z).
Hypothesis HR : rows self = R.
Hypothesis HC : cols self = C.
Variable gr0 : Grid.
Variable root : Z * Z.
Implicit Types (x y z : Z * Z) (st : carve_state G).

(** The state of the carving loop started on the grid [gr0], whatever its
    walls: cells on the stack are marked, a marked cell off the stack has
    all its neighbours marked, every marked cell is joined to the start cell
    through open walls in both directions, no wall of [gr0] has been put
    back, and a wall opened since lies between two cells of the grid and is
    open on both sides. *)
Record any_inv st : Prop := {
  ai_root : marked (c_visited st) root = true;
  ai_stack : ∀ x, x ∈ c_stack st → marked (c_visited st) x = true;
  ai_done : ∀ x, in_bounds R C x → marked (c_visited st) x = true →
    x ∈ c_stack st ∨
    ∀ d, in_bounds R C (move x d) → marked (c_visited st) (move x d) = true;
  ai_reach : ∀ x, in_bounds R C x → marked (c_visited st) x = true →
    (∃ n, walk (linked R C (c_grid st)) root x n) ∧
    (∃ n, walk (linked R C (c_grid st)) x root n);
  ai_mono : ∀ x d, in_bounds R C x → wallb gr0 x d = false →
    wallb (c_grid st) x d = false;
  ai_new : ∀ x d, in_bounds R C x → wallb (c_grid st) x d = false →
    wallb gr0 x d = false ∨
    (in_bounds R C (move x d) ∧ wallb (c_grid st) (move x d) (OPPOSITE d) = false)
}.

Lemma carve_init_any (g : G) :
  in_bounds R C root → wf_matrix R C (grid self) → grid self = gr0 →
  ∃ st0, carve_init self root.1 root.2 g = Ok st0 ∧
         carve_wf R C st0 ∧ any_inv st0 ∧ c_grid st0 = gr0 ∧ c_stack st0 = [root] ∧
         visited_count R C (c_visited st0) = 1%nat.
Proof.
  intros Hroot Hgrid Hgr0. unfold carve_init. rewrite HR, HC.
  assert (0 ≤ R ∧ 0 ≤ C) as [HR0 HC0] by (unfold in_bounds in Hroot; lia).
  destruct (setitem2_in_bounds R C
              (replicate (Z.to_nat R) (replicate (Z.to_nat C) false)) root true)
    as (vis & -> & Hvis & Hnew & Hold); [by apply wf_matrix_replicate | done |].
  rewrite bind_Ok. eexists. split; [done|].
  assert (Hmarked : ∀ x, in_bounds R C x → marked vis x = bool_decide (x = root)).
  { intros x Hx. unfold marked. case_bool_decide as Hxr.
    - subst x. by rewrite Hnew.
    - rewrite Hold by done. by rewrite at_replicate. }
  assert (Honly : ∀ x, in_bounds R C x → marked vis x = true → x = root).
  { intros x Hx Hm. rewrite Hmarked in Hm by done. by apply bool_decide_eq_true in Hm. }
  split; [|split; [|split; [by rewrite Hgr0|split; [by destruct root|]]]].
  - split; [done|]. split; [done|]. simpl. intros x Hx%list_elem_of_singleton.
    destruct root. simpl in *. by subst.
  - split; simpl.
    + rewrite Hmarked by done. by apply bool_decide_eq_true.
    + intros x Hx%list_elem_of_singleton. destruct root. simpl in *. subst x.
      rewrite Hmarked by done. by apply bool_decide_eq_true.
    + intros x Hx Hm. left. rewrite (Honly x Hx Hm). destruct root. left.
    + intros x Hx Hm. rewrite (Honly x Hx Hm). split; exists O; constructor.
    + intros x d Hx. by rewrite Hgr0.
    + intros x d Hx Hw. left. by rewrite <- Hgr0.
  - simpl. unfold visited_count.
    rewrite (filter_ext_in _ (λ x, x = root)).
    + assert (Hin : root ∈ all_cells R C) by (by apply elem_of_all_cells).
      pose proof (NoDup_all_cells R C) as Hnd.
      induction Hnd as [|a l Ha Hnd IH]; [by apply elem_of_nil in Hin|].
      rewrite filter_cons. destruct (decide (a = root)) as [-> | Hne].
      * simpl. f_equal. apply length_zero_iff_nil.
        destruct (filter (λ x, x = root) l) as [|b l'] eqn:Hl; [done|].
        assert (Hb : b ∈ filter (λ x, x = root) l) by (rewrite Hl; left).
        apply list_elem_of_filter in Hb as [-> Hb]. contradiction.
      * apply IH. apply elem_of_cons in Hin as [? | ?]; [congruence | done].
    + intros x Hx%elem_of_all_cells. rewrite Hmarked by done.
      split; [by intros ?%bool_decide_eq_true | by intros ?; apply bool_decide_eq_true].
Qed.

Lemma linked_mono (gr gr' : Grid) x y :
  (∀ z d, in_bounds R C z → wallb gr z d = false → wallb gr' z d = false) →
  linked R C gr x y → linked R C gr' x y.
Proof.
  intros Hmono (Hx & Hy & d & -> & Hw). split; [done|]. split; [done|].
  exists d. split; [done|]. by apply Hmono.
Qed.

Lemma carve_step_any st st' :
  in_bounds R C root →
  carve_wf R C st → any_inv st → carve_step R C st st' →
  any_inv st' ∧
  ((visited_count R C (c_visited st') = Datatypes.S (visited_count R C (c_visited st)) ∧
    length (c_stack st') = Datatypes.S (length (c_stack st)))
   ∨ (visited_count R C (c_visited st') = visited_count R C (c_visited st) ∧
      Datatypes.S (length (c_stack st')) = length (c_stack st)))%nat.
Proof.
  intros Hrootb (Hgwf & Hvwf & Hsb) [Hroot Hstack Hdone Hreach Hmono Hnew] Hstep.
  destruct Hstep as [x below Hst Hnone Hst' Hgr Hvis | x below d Hst Hd Hst' Hgr Hvis].
  - split; [|right; rewrite Hvis, Hst, Hst'; by simpl].
    split; rewrite ?Hgr, ?Hvis, ?Hst'; try done.
    + intros y Hy. apply Hstack. rewrite Hst. by right.
    + intros y Hy Hm. destruct (decide (y = x)) as [-> | Hne].
      * right. intros d Hin.
        destruct (marked (c_visited st) (move x d)) eqn:Hmx; [done|].
        assert (d ∈ unvisited_dirs R C (c_visited st) x) as Hmem
          by (by apply unvisited_dirs_spec).
        rewrite Hnone in Hmem. by apply elem_of_nil in Hmem.
      * destruct (Hdone y Hy Hm) as [Hin | Hall]; [|by right].
        left. rewrite Hst in Hin. apply elem_of_cons in Hin as [? | ?]; done.
  - apply unvisited_dirs_spec in Hd as [Hy Hfresh].
    remember (move x d) as y eqn:Hyeq.
    assert (Hxb : in_bounds R C x) by (apply Hsb; rewrite Hst; left).
    assert (Hxm : marked (c_visited st) x = true) by (apply Hstack; rewrite Hst; left).
    assert (Hopen : ∀ z d', in_bounds R C z → wallb (c_grid st) z d' = false →
                            wallb (c_grid st') z d' = false).
    { intros z d' Hz Hw. rewrite Hgr by done. by case_decide. }
    assert (Hxy : linked R C (c_grid st') x y).
    { split; [done|]. split; [done|]. exists d. split; [done|].
      rewrite Hgr by done. rewrite decide_True; [done | by left]. }
    assert (Hyx : linked R C (c_grid st') y x).
    { split; [done|]. split; [done|]. exists (OPPOSITE d).
      split; [by rewrite Hyeq, move_opposite|].
      rewrite Hgr by done. rewrite decide_True; [done | by right]. }
    assert (Hkeep : ∀ z, in_bounds R C z → marked (c_visited st) z = true →
                         marked (c_visited st') z = true).
    { intros z Hz Hm. rewrite Hvis by done. by case_decide. }
    split; [split|].
    + by apply Hkeep.
    + intros z. rewrite Hst'. intros [-> | Hz]%elem_of_cons.
      * rewrite Hvis by done. by rewrite decide_True.
      * apply Hkeep; [apply Hsb | apply Hstack]; by rewrite Hst.
    + intros z Hz Hm. rewrite Hvis in Hm by done. rewrite Hst'.
      case_decide as Hzy; [left; subst; left|].
      destruct (Hdone z Hz Hm) as [Hin | Hall].
      * left. right. by rewrite <- Hst.
      * right. intros d' Hd'. apply Hkeep; [done | by apply Hall].
    + intros z Hz Hm. rewrite Hvis in Hm by done. case_decide as Hzy.
      * subst z. destruct (Hreach x Hxb Hxm) as [[n Hn] [m Hm']]. split.
        -- exists (Datatypes.S n). eapply walk_snoc; [|exact Hxy].
           apply (walk_impl (linked R C (c_grid st))); [|done].
           intros a b. by apply linked_mono.
        -- exists (Datatypes.S m). eapply walk_step; [exact Hyx|].
           apply (walk_impl (linked R C (c_grid st))); [|done].
           intros a b. by apply linked_mono.
      * destruct (Hreach z Hz Hm) as [[n Hn] [m Hm']]. split.
        -- exists n. apply (walk_impl (linked R C (c_grid st))); [|done].
           intros a b. by apply linked_mono.
        -- exists m. apply (walk_impl (linked R C (c_grid st))); [|done].
           intros a b. by apply linked_mono.
    + intros z d' Hz Hw. apply Hopen; [done|]. by apply Hmono.
    + intros z d' Hz Hw. rewrite Hgr in Hw by done. case_decide as Hcase.
      * right. destruct Hcase as [[-> ->] | [-> ->]].
        -- rewrite <- Hyeq. split; [done|]. rewrite Hgr by done.
           rewrite decide_True; [done | by right].
        -- rewrite Hyeq, move_opposite. split; [done|]. rewrite Hgr by done.
           rewrite decide_True; [done|]. left. by rewrite OPPOSITE_involutive.
      * destruct (Hnew z d' Hz Hw) as [? | [Hin Hpartner]]; [by left|].
        right. split; [done|]. by apply Hopen.
    + left. split; [|by rewrite Hst, Hst'].
      unfold visited_count.
      rewrite (filter_length_flip (λ z, marked (c_visited st) z = true) _ _ y).
      * rewrite decide_True by (by apply elem_of_all_cells). lia.
      * apply NoDup_all_cells.
      * intros z Hz%elem_of_all_cells Hne. rewrite Hvis by done. by rewrite decide_False.
      * congruence.
      * rewrite Hvis by done. by rewrite decide_True.
Qed.

Lemma carve_loop_any fuel st :
  in_bounds R C root →
  carve_wf R C st → any_inv st →
  (length (c_stack st) + 2 * (length (all_cells R C) - visited_count R C (c_visited st))
   ≤ fuel)%nat →
  ∃ st', carve_loop fmul fuel self st = Ok st' ∧
         carve_wf R C st' ∧ any_inv st' ∧ c_stack st' = [].
Proof.
  intros Hrootb.
  revert st. induction fuel as [|fuel IH]; intros st Hwf Hinv Hfuel.
  - destruct (c_stack st) as [|x below] eqn:Hst; [|simpl in Hfuel; lia].
    exists st. simpl. by rewrite Hst.
  - destruct (c_stack st) as [|[r c] below] eqn:Hst.
    + exists st. simpl. by rewrite Hst.
    + cbn [carve_loop]. rewrite Hst.
      destruct (carve_body_step fmul R C self st (r, c) below HR HC Hwf Hst)
        as (st' & Hbody & Hstep & Hwf').
      simpl in Hbody. rewrite Hbody, bind_Ok.
      destruct (carve_step_any st st' Hrootb Hwf Hinv Hstep) as [Hinv' Hsize].
      apply (IH st' Hwf' Hinv').
      assert (visited_count R C (c_visited st') ≤ length (all_cells R C))%nat
        by apply length_filter.
      rewrite Hst in Hsize. simpl in Hfuel, Hsize. lia.
Qed.

End CarveAnyGrid.


Lemma walk_app {V} (E : V → V → Prop) x y z n m :
  walk E x y n → walk E y z m → walk E x z (n + m).
Proof.
  induction 1 as [x | x y' y n Hxy Hw IH]; intros Hyz; [done|].
  simpl. eapply walk_step; [done | by apply IH].
Qed.

Section CarveAnyGridWhole.
Context {G : Type} `{RandomSource G}.
Variable fmul : Q → Q → Q.

Lemma carve_passage_any (self : MazeGenerator) (root : Z * Z) (g : G) (fuel : nat) :
  wf_matrix (rows self) (cols self) (grid self) →
  in_bounds (rows self) (cols self) root →
  2 * (rows self * cols self) ≤ Z.of_nat fuel →
  ∃ st, _carve_passage fmul fuel self root.1 root.2 g
          = Ok (set_grid self (c_grid st), c_rng st) ∧
        carve_wf (rows self) (cols self) st ∧
        any_inv (rows self) (cols self) (grid self) root st ∧
        ∀ x, in_bounds (rows self) (cols self) x → marked (c_visited st) x = true.
Proof.
  intros Hgrid Hroot Hfuel.
  destruct (carve_init_any self (rows self) (cols self) eq_refl eq_refl
              (grid self) root g Hroot Hgrid eq_refl)
    as (st0 & Hinit & Hwf0 & Hinv0 & Hgr0 & Hst0 & Hcount0).
  assert (0 ≤ rows self ∧ 0 ≤ cols self) as [HR0 HC0]
    by (unfold in_bounds in Hroot; lia).
  destruct (carve_loop_any fmul self (rows self) (cols self) eq_refl eq_refl
              (grid self) root fuel st0 Hroot Hwf0 Hinv0)
    as (st & Hloop & Hwf & Hinv & Hempty).
  { rewrite Hst0, Hcount0. cbn [length].
    pose proof (length_all_cells (rows self) (cols self) HR0 HC0).
    assert (1 ≤ rows self * cols self) by (unfold in_bounds in Hroot; nia). lia. }
  exists st. unfold _carve_passage. rewrite Hinit, bind_Ok, Hloop, bind_Ok.
  split; [done|]. split; [done|]. split; [done|].
  apply (grid_closure (rows self) (cols self) _ root Hroot).
  - by destruct Hinv.
  - intros z d Hz Hm Hin.
    destruct (ai_done _ _ _ _ _ Hinv z Hz Hm) as [Hs | Hall].
    + rewrite Hempty in Hs. by apply elem_of_nil in Hs.
    + by apply Hall.
Qed.

(** X6. [_carve_passage] run on a grid in any state (freshly built, already
    carved, or with walls set by hand), from a start cell of the grid,
    leaves its loop within [2 * rows * cols] iterations without raising, and
    in the grid it leaves every cell is joined to every other through open
    walls. *)
Theorem carve_passage_any_grid_connected (self : MazeGenerator) (sr sc : Z)
    (g : G) (fuel : nat) :
  wf_matrix (rows self) (cols self) (grid self) →
  in_bounds (rows self) (cols self) (sr, sc) →
  2 * (rows self * cols self) ≤ Z.of_nat fuel →
  ∃ self' g',
    _carve_passage fmul fuel self sr sc g = Ok (self', g') ∧
    rows self' = rows self ∧ cols self' = cols self ∧
    wf_matrix (rows self) (cols self) (grid self') ∧
    connected (linked (rows self) (cols self) (grid self'))
              (in_bounds (rows self) (cols self)).
Proof.
  intros Hgrid Hroot Hfuel.
  destruct (carve_passage_any self (sr, sc) g fuel Hgrid Hroot Hfuel)
    as (st & Hrun & Hwf & Hinv & Hall).
  simpl in Hrun. eexists _, _. split; [exact Hrun|]. simpl.
  split; [done|]. split; [done|]. split; [by destruct Hwf|].
  intros x y Hx Hy.
  destruct (ai_reach _ _ _ _ _ Hinv x Hx (Hall x Hx)) as [_ [n Hn]].
  destruct (ai_reach _ _ _ _ _ Hinv y Hy (Hall y Hy)) as [[m Hm] _].
  exists (n + m)%nat. by eapply walk_app.
Qed.

(** X7. [_carve_passage] only opens walls: a wall that is open before the
    call is open after it, a wall it opens lies between two cells of the
    grid and is opened on both sides, so a closed outer boundary stays
    closed and walls that agree on their two sides still agree. *)
Theorem carve_passage_only_opens (self : MazeGenerator) (sr sc : Z)
    (g : G) (fuel : nat) :
  wf_matrix (rows self) (cols self) (grid self) →
  in_bounds (rows self) (cols self) (sr, sc) →
  2 * (rows self * cols self) ≤ Z.of_nat fuel →
  ∃ self' g',
    _carve_passage fmul fuel self sr sc g = Ok (self', g') ∧
    (∀ x d, in_bounds (rows self) (cols self) x →
       wallb (grid self) x d = false → wallb (grid self') x d = false) ∧
    (∀ x d, in_bounds (rows self) (cols self) x →
       wallb (grid self) x d = true → wallb (grid self') x d = false →
       in_bounds (rows self) (cols self) (move x d) ∧
       wallb (grid self') (move x d) (OPPOSITE d) = false) ∧
    (boundary_closed (rows self) (cols self) (grid self) →
     boundary_closed (rows self) (cols self) (grid self')) ∧
    (wall_symmetric (rows self) (cols self) (grid self) →
     wall_symmetric (rows self) (cols self) (grid self')).
Proof.
  intros Hgrid Hroot Hfuel.
  destruct (carve_passage_any self (sr, sc) g fuel Hgrid Hroot Hfuel)
    as (st & Hrun & Hwf & Hinv & Hall).
  simpl in Hrun. eexists _, _. split; [exact Hrun|]. simpl.
  destruct Hinv as [_ _ _ _ Hmono Hnew].
  split; [done|]. split; [|split].
  - intros x d Hx Hclosed Hopen.
    destruct (Hnew x d Hx Hopen) as [Hold | ?]; [congruence | done].
  - intros Hb x d Hx Hout.
    destruct (wallb (c_grid st) x d) eqn:Hw; [done|].
    destruct (Hnew x d Hx Hw) as [Hold | [Hin _]]; [|done].
    rewrite (Hb x d Hx Hout) in Hold. done.
  - intros Hsym x d Hx Hy.
    destruct (wallb (c_grid st) x d) eqn:Hw,
             (wallb (c_grid st) (move x d) (OPPOSITE d)) eqn:Hw'; try done.
    + destruct (Hnew _ _ Hy Hw') as [Hold | [_ Hp]].
      * rewrite <- Hsym in Hold by done. rewrite (Hmono x d Hx Hold) in Hw. done.
      * rewrite move_opposite, OPPOSITE_involutive in Hp. congruence.
    + destruct (Hnew _ _ Hx Hw) as [Hold | [_ Hp]]; [|congruence].
      rewrite Hsym in Hold by done. rewrite (Hmono _ _ Hy Hold) in Hw'. done.
Qed.

End CarveAnyGridWhole.

(** * The fractal drawings *)

(** The distances of the [forward] calls of a drawing, in order. *)
Definition forwards (t : list turtle_call) : list Q :=
  flat_map (λ c, match c with Forward d => [d] | _ => [] end) t.

(** The net turn of a drawing, in degrees, counter-clockwise. *)
Definition turning (t : list turtle_call) : Z :=
  foldr (λ c acc, match c with
                  | Left a => a + acc
                  | Right a => acc - a
                  | _ => acc
                  end) 0 t.


(** The pen colour in force at each [forward] call of a drawing that starts
    with the pen colour [pen]; [None] is a colour that was not set by name. *)
Fixpoint pens (pen : option string) (t : list turtle_call) : list (option string) :=
  match t with
  | [] => []
  | Forward _ :: t' => pen :: pens pen t'
  | Pencolor c :: t' => pens (Some c) t'
  | Pencolor_rgb _ _ _ :: t' => pens None t'
  | Color c :: t' => pens (Some c) t'
  | _ :: t' => pens pen t'
  end.

(** The pen colour in force after a drawing. *)
Definition last_pen (pen : option string) (t : list turtle_call) : option string :=
  foldl (λ p c, match c with
                | Pencolor c => Some c
                | Color c => Some c
                | Pencolor_rgb _ _ _ => None
                | _ => p
                end) pen t.


Lemma forwards_app t1 t2 : forwards (t1 ++ t2) = forwards t1 ++ forwards t2.
Proof. unfold forwards. by rewrite flat_map_app. Qed.


Lemma turning_app t1 t2 : turning (t1 ++ t2) = turning t1 + turning t2.
Proof.
  unfold turning. induction t1 as [|c t1 IH]; simpl; [done|].
  destruct c; rewrite ?IH; lia.
Qed.


Lemma pens_app pen t1 t2 :
  pens pen (t1 ++ t2) = pens pen t1 ++ pens (last_pen pen t1) t2.
Proof.
  revert pen. induction t1 as [|c t1 IH]; intros pen; simpl; [done|].
  destruct c; simpl; by rewrite ?IH.
Qed.

Lemma last_pen_app pen t1 t2 :
  last_pen pen (t1 ++ t2) = last_pen (last_pen pen t1) t2.
Proof. unfold last_pen. by rewrite foldl_app. Qed.

Lemma item_in_range {A} (l : list A) (i : Z) :
  0 ≤ i < len l → ∃ a, item l i = Returned a ∧ l !! Z.to_nat i = Some a.
Proof.
  intros Hi. unfold item.
  destruct (getitem_in_range l i Hi) as (a & Ha & ->). by exists a.
Qed.

Section FractalProperties.
Context {G : Type} `{RandomSource G}.
Variable fmul : Q → Q → Q.
Variable fdiv : Q → Q → Q.
Variable fadd : Q → Q → Q.
Variable fpow : Q → Z → Q.
Variable hsv_to_rgb : Q → Q → Q → Q * Q * Q.















(** The colour [RAINBOW_COLORS[level % len(RAINBOW_COLORS)]]. *)
Definition rainbow (level : Z) : string :=
  default ""%string (RAINBOW_COLORS !! Z.to_nat (level mod 7)).

Lemma rainbow_item level :
  item RAINBOW_COLORS (level mod len RAINBOW_COLORS) = Returned (rainbow level) ∧
  rainbow level ∈ RAINBOW_COLORS.
Proof.
  change (len RAINBOW_COLORS) with 7.
  pose proof (Z.mod_pos_bound level 7 ltac:(lia)) as Hk.
  destruct (item_in_range RAINBOW_COLORS (level mod 7)) as (c & -> & Hc);
    [by change (len RAINBOW_COLORS) with 7|].
  unfold rainbow. rewrite Hc. simpl. split; [done|]. by eapply list_elem_of_lookup_2.
Qed.

Lemma rainbow_period level : rainbow (level + 7) = rainbow level.
Proof.
  unfold rainbow. replace (level + 7) with (level + 1 * 7) by lia.
  by rewrite Z_mod_plus_full.
Qed.

(** X11. [rainbow_color] returns a colour of [RAINBOW_COLORS] for every
    level, negative ones included, never raising [IndexError]; the colour
    does not depend on [max_level] and repeats with period seven. *)
Theorem rainbow_color_periodic (level max_level max_level' : Z) :
  ∃ c, rainbow_color level max_level = Returned c ∧ c ∈ RAINBOW_COLORS ∧
       rainbow_color (level + 7) max_level' = Returned c.
Proof.
  exists (rainbow level). unfold rainbow_color.
  destruct (rainbow_item level) as [-> Hin].
  destruct (rainbow_item (level + 7)) as [-> _].
  by rewrite rainbow_period.
Qed.

(** [n] successive calls of [next_rainbow_color]: the colours returned, in
    order, and the state left. *)
Fixpoint next_rainbow_colors (n : nat) (st : fractal_state)
  : run (list string * fractal_state) :=
  match n with
  | O => Returned ([], st)
  | Datatypes.S n' =>
      '(c, st1) ← next_rainbow_color st;
      '(cs, st2) ← next_rainbow_colors n' st1;
      Returned (c :: cs, st2)
  end.

Lemma next_rainbow_colors_run n : ∀ st,
  next_rainbow_colors n st
  = Returned ((λ j, rainbow (COLOR_INDEX st + j)) <$> seqZ 0 (Z.of_nat n),
              mkFractal (SEG_IDX st) (TOTAL_SEGMENTS st)
                        (COLOR_INDEX st + Z.of_nat n) (turtle st)).
Proof.
  induction n as [|n IH]; intros st.
  - simpl. destruct st. simpl. by rewrite Z.add_0_r.
  - cbn [next_rainbow_colors]. unfold next_rainbow_color.
    destruct (rainbow_item (COLOR_INDEX st)) as [-> _].
    rewrite !bind_Returned. rewrite IH. rewrite bind_Returned. simpl.
    f_equal. f_equal.
    + rewrite Nat2Z.inj_succ, <- Z.add_1_l, seqZ_app by lia.
      simpl. rewrite Z.add_0_r. f_equal.
      rewrite <- (fmap_add_seqZ 1 0), <- list_fmap_compose.
      apply list_fmap_ext. intros _ j _. simpl. f_equal. lia.
    + f_equal. lia.
Qed.

(** X12. Seven successive calls of [next_rainbow_color], from whatever
    value [COLOR_INDEX] has (a negative one included), return every colour
    of [RAINBOW_COLORS] exactly once and advance [COLOR_INDEX] by seven,
    touching nothing else. *)
Theorem next_rainbow_color_cycle (st : fractal_state) :
  ∃ cs st',
    next_rainbow_colors 7 st = Returned (cs, st') ∧
    cs ≡ₚ RAINBOW_COLORS ∧
    COLOR_INDEX st' = COLOR_INDEX st + 7 ∧
    SEG_IDX st' = SEG_IDX st ∧ TOTAL_SEGMENTS st' = TOTAL_SEGMENTS st ∧
    turtle st' = turtle st.
Proof.
  eexists _, _. split; [apply next_rainbow_colors_run|]. simpl.
  split; [|done].
  remember (COLOR_INDEX st) as i eqn:Hi. clear Hi.
  pose proof (Z.mod_pos_bound i 7 ltac:(lia)) as Hk.
  assert (Hshift : ∀ j, rainbow (i + j) = rainbow (i mod 7 + j)).
  { intros j. unfold rainbow. f_equal. f_equal. f_equal.
    rewrite (Z.add_mod i j 7), (Z.add_mod (i mod 7) j 7), Z.mod_mod by lia. done. }
  rewrite !Hshift.
  change (Z.of_nat 0 + 0) with 0. change (Z.of_nat 1 + 0) with 1.
  change (Z.of_nat 2 + 0) with 2. change (Z.of_nat 3 + 0) with 3.
  change (Z.of_nat 4 + 0) with 4. change (Z.of_nat 5 + 0) with 5.
  change (Z.of_nat 6 + 0) with 6.
  assert (Hrot : ∃ k : nat, (k ≤ 7)%nat ∧
            [rainbow (i mod 7 + 0); rainbow (i mod 7 + 1); rainbow (i mod 7 + 2);
             rainbow (i mod 7 + 3); rainbow (i mod 7 + 4); rainbow (i mod 7 + 5);
             rainbow (i mod 7 + 6)]
            = drop k RAINBOW_COLORS ++ take k RAINBOW_COLORS).
  { exists (Z.to_nat (i mod 7)). split; [lia|].
    assert (i mod 7 = 0 ∨ i mod 7 = 1 ∨ i mod 7 = 2 ∨ i mod 7 = 3 ∨ i mod 7 = 4 ∨
            i mod 7 = 5 ∨ i mod 7 = 6) as Hcases by lia.
    destruct Hcases as [-> | [-> | [-> | [-> | [-> | [-> | ->]]]]]]; reflexivity. }
  destruct Hrot as (k & _ & ->).
  rewrite Permutation_app_comm. by rewrite take_drop.
Qed.

(** The calls of one [dragon_curve] of level [n]. *)
Fixpoint dragon_calls (n : nat) (length : Q) (angle : Z) : list turtle_call :=
  match n with
  | O => [Pencolor (rainbow 0); Forward length]
  | Datatypes.S n' =>
      [Pencolor (rainbow (Z.of_nat n)); Right angle] ++
      dragon_calls n' length (- angle) ++ [Left (angle * 2)] ++
      dragon_calls n' length angle ++ [Right angle]
  end.

Lemma dragon_run (n : nat) : ∀ (depth : nat) (st : fractal_state) (length : Q) angle ml,
  (n < depth)%nat →
  dragon_curve depth st length (Z.of_nat n) angle ml
  = Returned (mkFractal (SEG_IDX st) (TOTAL_SEGMENTS st) (COLOR_INDEX st)
                (turtle st ++ dragon_calls n length angle)).
Proof.
  induction n as [|n IH]; intros depth st length angle ml Hdepth.
  - destruct depth as [|depth]; [lia|]. cbn [dragon_curve].
    destruct (rainbow_item (Z.of_nat 0)) as [-> _]. rewrite bind_Returned.
    simpl. unfold call. simpl. by rewrite <- app_assoc.
  - destruct depth as [|depth]; [lia|]. cbn [dragon_curve].
    destruct (rainbow_item (Z.of_nat (Datatypes.S n))) as [-> _].
    rewrite bind_Returned.
    replace (Z.of_nat (Datatypes.S n) =? 0) with false by (symmetry; apply Z.eqb_neq; lia).
    replace (Z.of_nat (Datatypes.S n) - 1) with (Z.of_nat n) by lia.
    rewrite IH by lia. rewrite bind_Returned.
    rewrite IH by lia. rewrite bind_Returned.
    unfold call. simpl. f_equal. f_equal. rewrite <- !app_assoc. done.
Qed.

Lemma dragon_calls_forwards n length angle :
  forwards (dragon_calls n length angle) = replicate (2 ^ n) length.
Proof.
  revert angle. induction n as [|n IH]; intros angle; [done|].
  cbn [dragon_calls]. rewrite !forwards_app, !IH.
  change (forwards [Pencolor (rainbow (Z.of_nat (Datatypes.S n))); Right angle])
    with (@nil Q).
  change (forwards [Left (angle * 2)]) with (@nil Q).
  change (forwards [Right angle]) with (@nil Q). cbn [app]. rewrite app_nil_r.
  rewrite <- replicate_add. f_equal. simpl. lia.
Qed.

Lemma dragon_calls_turning n length angle :
  turning (dragon_calls n length angle) = 0.
Proof.
  revert angle. induction n as [|n IH]; intros angle; [done|].
  cbn [dragon_calls]. rewrite !turning_app, !IH. simpl. lia.
Qed.

Lemma dragon_calls_pens n length angle pen :
  pens pen (dragon_calls n length angle) = replicate (2 ^ n) (Some (rainbow 0)) ∧
  last_pen pen (dragon_calls n length angle) = Some (rainbow 0).
Proof.
  revert angle pen. induction n as [|n IH]; intros angle pen; [done|].
  cbn [dragon_calls]. rewrite !pens_app, !last_pen_app.
  destruct (IH (- angle) (Some (rainbow (Z.of_nat (Datatypes.S n))))) as [Hp1 Hl1].
  destruct (IH angle (Some (rainbow 0))) as [Hp2 Hl2].
  change (last_pen pen [Pencolor (rainbow (Z.of_nat (Datatypes.S n))); Right angle])
    with (Some (rainbow (Z.of_nat (Datatypes.S n)))).
  rewrite Hl1, Hp1.
  change (last_pen (Some (rainbow 0)) [Left (angle * 2)]) with (Some (rainbow 0)).
  rewrite Hl2, Hp2. simpl pens. cbn [app]. rewrite app_nil_r. split; [|done].
  rewrite <- replicate_add. f_equal. simpl. lia.
Qed.

Lemma pow2_nat n : Z.to_nat (2 ^ Z.of_nat n) = (2 ^ n)%nat.
Proof.
  rewrite <- (Nat2Z.id (2 ^ n)). f_equal. rewrite Nat2Z.inj_pow. done.
Qed.

(** X13. [dragon_curve] with a level from 0 and enough recursion depth
    returns; it draws [2 ** level] segments of the length given, leaves the
    turtle with the heading it had and the globals alone, and every segment
    is drawn with the pen colour [RAINBOW_COLORS[0]]: the colours set at the
    levels above 0 are all replaced before anything is drawn. *)
Theorem dragon_curve_segments (depth : nat) (st : fractal_state) (length : Q)
    (level angle max_level : Z) (pen : option string) :
  0 ≤ level → level < Z.of_nat depth →
  ∃ st' new,
    dragon_curve depth st length level angle max_level = Returned st' ∧
    turtle st' = turtle st ++ new ∧
    SEG_IDX st' = SEG_IDX st ∧ TOTAL_SEGMENTS st' = TOTAL_SEGMENTS st ∧
    COLOR_INDEX st' = COLOR_INDEX st ∧
    forwards new = replicate (Z.to_nat (2 ^ level)) length ∧
    pens pen new = replicate (Z.to_nat (2 ^ level)) (Some "#FF0000"%string) ∧
    turning new = 0.
Proof.
  intros Hlevel Hdepth.
  rewrite <- (Z2Nat.id level) by done.
  eexists _, _. split; [apply dragon_run; lia|]. simpl.
  rewrite pow2_nat.
  split; [done|]. split; [done|]. split; [done|]. split; [done|].
  split; [apply dragon_calls_forwards|].
  split; [apply dragon_calls_pens | apply dragon_calls_turning].
Qed.

(** X14. [dragon_curve] with a negative level, or with a level that is not
    below the recursion depth left, does not return: its calls nest until
    the depth is used up. *)
Theorem dragon_curve_unbounded (depth : nat) (st : fractal_state) (length : Q)
    (level angle max_level : Z) :
  level < 0 ∨ Z.of_nat depth ≤ level →
  dragon_curve depth st length level angle max_level = Exhausted.
Proof.
  revert st level angle. induction depth as [|depth IH]; intros st level angle Hl.
  - done.
  - cbn [dragon_curve]. destruct (rainbow_item level) as [-> _].
    rewrite bind_Returned.
    replace (level =? 0) with false by (symmetry; apply Z.eqb_neq; lia).
    rewrite IH by lia. done.
Qed.

End FractalProperties.

Section SierpinskiProperties.
Variable fdiv : Q → Q → Q.
Variable fadd : Q → Q → Q.







End SierpinskiProperties.

(** ** Bright colours *)

Lemma string_length_append (s1 s2 : string) :
  String.length (String.append s1 s2) = (String.length s1 + String.length s2)%nat.
Proof. induction s1 as [|c s1 IH]; simpl; [done | by rewrite IH]. Qed.

Lemma format_02x_bright (n : Z) :
  150 ≤ n ≤ 255 → String.length (format_02x n) = 2%nat.
Proof.
  intros Hn.
  assert (Hall : Forall (λ n, String.length (format_02x n) = 2%nat) (seqZ 150 106)).
  { apply Forall_forall. intros k Hk. apply elem_of_seqZ in Hk.
    assert (∃ j : nat, k = 150 + Z.of_nat j ∧ (j < 106)%nat) as (j & -> & Hj)
      by (exists (Z.to_nat (k - 150)); lia).
    clear Hk. do 106 (destruct j as [|j]; [vm_compute; reflexivity|]). lia. }
  rewrite Forall_forall in Hall. apply Hall, elem_of_seqZ. lia.
Qed.

Section BrightColour.
Context {G : Type} `{RandomSource G}.

Lemma randint_bright (g : G) :
  ∃ r g', randint 150 255 g = Ok (r, g') ∧ 150 ≤ r ≤ 255.
Proof.
  unfold randint. simpl.
  pose proof (randbelow_range 106 g ltac:(lia)) as Hr.
  destruct (randbelow 106 g) as [k g'] eqn:Hk. simpl in Hr.
  exists (150 + k), g'. change (255 + 1 - 150) with 106. rewrite Hk.
  split; [done | lia].
Qed.

(** X17. [random_bright_color] never raises, whatever the state of the
    generator: it draws three channels between 150 and 255 and returns the
    seven characters [#rrggbb], two hexadecimal digits for each channel. *)
Theorem random_bright_color_format (g : G) :
  ∃ r gr b g',
    random_bright_color g
    = Ok (String.append "#"
            (String.append (format_02x r) (String.append (format_02x gr) (format_02x b))),
          g') ∧
    150 ≤ r ≤ 255 ∧ 150 ≤ gr ≤ 255 ∧ 150 ≤ b ≤ 255 ∧
    String.length
      (String.append "#"
         (String.append (format_02x r) (String.append (format_02x gr) (format_02x b))))
    = 7%nat.
Proof.
  unfold random_bright_color.
  destruct (randint_bright g) as (r & g1 & -> & Hr). rewrite bind_Ok.
  destruct (randint_bright g1) as (gr & g2 & -> & Hg). rewrite bind_Ok.
  destruct (randint_bright g2) as (b & g3 & -> & Hb). rewrite bind_Ok.
  exists r, gr, b, g3. split; [done|]. split; [done|]. split; [done|]. split; [done|].
  rewrite !string_length_append, !format_02x_bright by done. done.
Qed.

End BrightColour.

(** * The further properties at concrete inputs *)

Lemma unvisited_neighbours_exact_witness :
  wf_matrix 2 2 [[true; false]; [false; false]] ∧
  ∃ nbs g',
    _unvisited_neighbours Qmult fresh_2x2 0 0 [[true; false]; [false; false]] (42 : Z)
      = Ok (nbs, g') ∧
    NoDup nbs ∧ (length nbs ≤ 4)%nat ∧
    ∀ nr nc d od, (nr, nc, d, od) ∈ nbs ↔
      (nr, nc) = move (0, 0) d ∧ od = OPPOSITE d ∧
      in_bounds 2 2 (nr, nc) ∧
      marked [[true; false]; [false; false]] (nr, nc) = false.
Proof.
  assert (Hwf : wf_matrix 2 2 [[true; false]; [false; false]])
    by (split; [reflexivity | repeat constructor]).
  split; [exact Hwf|].
  exact (unvisited_neighbours_exact Qmult fresh_2x2 0 0
           [[true; false]; [false; false]] (42 : Z) Hwf).
Defined.

Lemma carve_passage_start_out_of_range_witness :
  0 ≤ 2 ∧ (2 < - 2 ∨ 2 ≤ 2 ∨ 0 < - 2 ∨ 2 ≤ 0) ∧
  carve_init fresh_2x2 2 0 (42 : Z) = Raise IndexError ∧
  _carve_passage Qmult 8 fresh_2x2 2 0 (42 : Z) = Raise IndexError.
Proof.
  assert (H0 : 0 ≤ 2) by lia.
  assert (Hout : 2 < - 2 ∨ 2 ≤ 2 ∨ 0 < - 2 ∨ 2 ≤ 0) by lia.
  split; [exact H0|]. split; [exact Hout|].
  exact (carve_passage_start_out_of_range Qmult 8 fresh_2x2 2 0 (42 : Z) H0 H0 Hout).
Defined.

Lemma generate_endpoints_distinct_witness :
  __init__ 2 2 20 (3 # 4) (3 # 4) = Ok fresh_2x2 ∧ 2 * (2 * 2) ≤ Z.of_nat 8 ∧
  ∃ self' g' a b,
    generate Qmult 8 fresh_2x2 (42 : Z) = Ok (self', g') ∧
    start self' = Some a ∧ end_ self' = Some b ∧
    in_bounds 2 2 a ∧ in_bounds 2 2 b ∧ a ≠ b.
Proof.
  assert (Hf : 2 * (2 * 2) ≤ Z.of_nat 8) by (simpl; lia).
  split; [exact fresh_2x2_init|]. split; [exact Hf|].
  exact (generate_endpoints_distinct Qmult 2 2 20 (3 # 4) (3 # 4) fresh_2x2 (42 : Z) 8
           fresh_2x2_init Hf).
Defined.

Lemma bfs_distances_exact_witness :
  valid_grid fresh_2x2 ∧ in_bounds 2 2 (0, 0) ∧ 2 * (2 * 2) ≤ Z.of_nat 8 ∧
  in_bounds 2 2 (1, 1) ∧
  ∃ self' g' far dist parent,
    _carve_passage Qmult 8 fresh_2x2 0 0 (42 : Z) = Ok (self', g') ∧
    bfs 8 self' (1, 1) = Ok (far, dist, parent) ∧
    in_bounds 2 2 far ∧
    ∀ x, in_bounds 2 2 x →
      ∃ n m, getitem2 dist x.1 x.2 = Ok (Z.of_nat n) ∧
        is_dist (linked 2 2 (grid self')) (1, 1) x n ∧
        is_dist (linked 2 2 (grid self')) (1, 1) far m ∧
        (n ≤ m)%nat.
Proof.
  assert (Hb : in_bounds 2 2 (0, 0)) by (unfold in_bounds; simpl; lia).
  assert (Hs : in_bounds 2 2 (1, 1)) by (unfold in_bounds; simpl; lia).
  assert (Hf : 2 * (2 * 2) ≤ Z.of_nat 8) by (simpl; lia).
  split; [exact fresh_2x2_valid|]. split; [exact Hb|]. split; [exact Hf|].
  split; [exact Hs|].
  exact (bfs_distances_exact Qmult fresh_2x2 0 0 (42 : Z) 8 (1, 1)
           fresh_2x2_valid Hb Hf Hs).
Defined.

Lemma carved_maze_unique_path_witness :
  valid_grid fresh_2x2 ∧ in_bounds 2 2 (0, 0) ∧ 2 * (2 * 2) ≤ Z.of_nat 8 ∧
  ∃ self' g',
    _carve_passage Qmult 8 fresh_2x2 0 0 (42 : Z) = Ok (self', g') ∧
    ∀ x z, in_bounds 2 2 x → in_bounds 2 2 z →
      ∃ p, path (linked 2 2 (grid self')) x p z ∧ NoDup p ∧
           is_dist (linked 2 2 (grid self')) x z (length p - 1) ∧
           ∀ q, path (linked 2 2 (grid self')) x q z → NoDup q → q = p.
Proof.
  assert (Hb : in_bounds 2 2 (0, 0)) by (unfold in_bounds; simpl; lia).
  assert (Hf : 2 * (2 * 2) ≤ Z.of_nat 8) by (simpl; lia).
  split; [exact fresh_2x2_valid|]. split; [exact Hb|]. split; [exact Hf|].
  exact (carved_maze_unique_path Qmult fresh_2x2 0 0 (42 : Z) 8 fresh_2x2_valid Hb Hf).
Defined.

(** A 2 x 2 grid that has been carved before: open walls around three sides
    of its square. *)
Definition carved_2x2 : MazeGenerator :=
  mkMaze 2 2 20 (3 # 4) (3 # 4)
    [[mkCell true false true true; mkCell true false true true];
     [mkCell false true false true; mkCell false true true false]]
    (Some (0, 0)) (Some (0, 1)).

Lemma carved_2x2_wf : wf_matrix 2 2 (grid carved_2x2).
Proof. split; [reflexivity | repeat constructor]. Defined.

Lemma carve_passage_any_grid_connected_witness :
  wf_matrix 2 2 (grid carved_2x2) ∧ in_bounds 2 2 (0, 0) ∧
  2 * (2 * 2) ≤ Z.of_nat 8 ∧
  ∃ self' g',
    _carve_passage Qmult 8 carved_2x2 0 0 (42 : Z) = Ok (self', g') ∧
    rows self' = 2 ∧ cols self' = 2 ∧
    wf_matrix 2 2 (grid self') ∧
    connected (linked 2 2 (grid self')) (in_bounds 2 2).
Proof.
  assert (Hb : in_bounds 2 2 (0, 0)) by (unfold in_bounds; simpl; lia).
  assert (Hf : 2 * (2 * 2) ≤ Z.of_nat 8) by (simpl; lia).
  split; [exact carved_2x2_wf|]. split; [exact Hb|]. split; [exact Hf|].
  exact (carve_passage_any_grid_connected Qmult carved_2x2 0 0 (42 : Z) 8
           carved_2x2_wf Hb Hf).
Defined.

Lemma carve_passage_only_opens_witness :
  wf_matrix 2 2 (grid carved_2x2) ∧ in_bounds 2 2 (0, 0) ∧
  2 * (2 * 2) ≤ Z.of_nat 8 ∧
  ∃ self' g',
    _carve_passage Qmult 8 carved_2x2 0 0 (42 : Z) = Ok (self', g') ∧
    (∀ x d, in_bounds 2 2 x →
       wallb (grid carved_2x2) x d = false → wallb (grid self') x d = false) ∧
    (∀ x d, in_bounds 2 2 x →
       wallb (grid carved_2x2) x d = true → wallb (grid self') x d = false →
       in_bounds 2 2 (move x d) ∧
       wallb (grid self') (move x d) (OPPOSITE d) = false) ∧
    (boundary_closed 2 2 (grid carved_2x2) → boundary_closed 2 2 (grid self')) ∧
    (wall_symmetric 2 2 (grid carved_2x2) → wall_symmetric 2 2 (grid self')).
Proof.
  assert (Hb : in_bounds 2 2 (0, 0)) by (unfold in_bounds; simpl; lia).
  assert (Hf : 2 * (2 * 2) ≤ Z.of_nat 8) by (simpl; lia).
  split; [exact carved_2x2_wf|]. split; [exact Hb|]. split; [exact Hf|].
  exact (carve_passage_only_opens Qmult carved_2x2 0 0 (42 : Z) 8
           carved_2x2_wf Hb Hf).
Defined.





Lemma dragon_curve_segments_witness :
  0 ≤ 3 ∧ 3 < Z.of_nat 4 ∧
  ∃ st' new,
    dragon_curve 4 (module_state []) 8 3 45 3 = Returned st' ∧
    turtle st' = turtle (module_state []) ++ new ∧
    SEG_IDX st' = SEG_IDX (module_state []) ∧
    TOTAL_SEGMENTS st' = TOTAL_SEGMENTS (module_state []) ∧
    COLOR_INDEX st' = COLOR_INDEX (module_state []) ∧
    forwards new = replicate (Z.to_nat (2 ^ 3)) 8%Q ∧
    pens None new = replicate (Z.to_nat (2 ^ 3)) (Some "#FF0000"%string) ∧
    turning new = 0.
Proof.
  assert (H0 : 0 ≤ 3) by lia.
  assert (H1 : 3 < Z.of_nat 4) by (simpl; lia).
  split; [exact H0|]. split; [exact H1|].
  exact (dragon_curve_segments 4 (module_state []) 8 3 45 3 None H0 H1).
Defined.

Lemma dragon_curve_unbounded_witness :
  (2 < 0 ∨ Z.of_nat 2 ≤ 2) ∧
  dragon_curve 2 (module_state []) 8 2 45 2 = Exhausted.
Proof.
  assert (Hl : 2 < 0 ∨ Z.of_nat 2 ≤ 2) by (right; simpl; lia).
  split; [exact Hl|].
  exact (dragon_curve_unbounded 2 (module_state []) 8 2 45 2 Hl).
Defined.



(** * Drawing the maze: the lines drawn *)















Section DrawingProperties.
Context {G : Type} `{RandomSource G}.
Variable fmul : Q → Q → Q.
Variable fdiv : Q → Q → Q.
Variable fadd : Q → Q → Q.
Variable fsub : Q → Q → Q.









End DrawingProperties.

(** * Carving with complexity 0 *)

Section ComplexityZero.
Context {G : Type} `{RandomSource G}.
Variable fmul : Q → Q → Q.
Variable self : MazeGenerator.
Variables (R C : Z).
Hypothesis HR : rows self = R.
Hypothesis HC : cols self = C.
Hypothesis Hcx : (complexity self <= 0)%Q.

(** One iteration of the carving loop that takes the first unvisited
    neighbour in the order N, S, E, W: what it leaves of the grid, the
    visited matrix and the stack. *)
Definition first_step (gr : Grid) (visited : list (list bool)) (x : Z * Z)
    (below : list (Z * Z)) : result (Grid * list (list bool) * list (Z * Z)) :=
  match unvisited_dirs R C visited x with
  | [] => Ok (gr, visited, below)
  | d :: _ =>
      gr1 ← knock_down gr x.1 x.2 d;
      gr2 ← knock_down gr1 (move x d).1 (move x d).2 (OPPOSITE d);
      visited' ← setitem2 visited (move x d).1 (move x d).2 true;
      Ok (gr2, visited', move x d :: x :: below)
  end.

(** The loop variables without the state of [random]. *)
Definition forget (st : carve_state G) : Grid * list (list bool) * list (Z * Z) :=
  (c_grid st, c_visited st, c_stack st).

Definition outcome (r : result (carve_state G))
  : result (Grid * list (list bool) * list (Z * Z)) :=
  st ← r; Ok (forget st).

Lemma carve_body_first (st : carve_state G) (x : Z * Z) below :
  wf_matrix R C (c_visited st) →
  outcome (carve_body fmul self st x.1 x.2 below)
  = first_step (c_grid st) (c_visited st) x below.
Proof.
  intros Hvis. unfold carve_body, first_step.
  destruct (unvisited_neighbours_spec fmul self R C (c_visited st) x (c_rng st) HR HC Hvis)
    as (g1 & ->).
  rewrite bind_Ok.
  destruct (unvisited_dirs R C (c_visited st) x) as [|d ds]; [done|].
  rewrite fmap_cons. pose proof (random_range g1) as [Hlo _].
  destruct (random g1) as [x0 g2]. simpl in Hlo.
  destruct (Qlt_le_dec x0 (complexity self)) as [Hlt | _].
  { exfalso. apply (Qlt_not_le _ _ Hlt). by eapply Qle_trans. }
  rewrite bind_Ok. unfold to_neighbour. destruct x as [r c]. simpl.
  destruct (knock_down (c_grid st) r c d) as [gr1| |]; [|done..]. rewrite !bind_Ok.
  destruct (knock_down gr1 _ _ (OPPOSITE d)) as [gr2| |]; [|done..]. rewrite !bind_Ok.
  destruct (setitem2 (c_visited st) _ _ true) as [v'| |]; [|done..]. done.
Qed.

Lemma first_step_wf gr visited x below gr' visited' stack' :
  wf_matrix R C visited →
  first_step gr visited x below = Ok (gr', visited', stack') →
  wf_matrix R C visited'.
Proof.
  intros Hvis. unfold first_step.
  destruct (unvisited_dirs R C visited x) as [|d ds] eqn:Hdirs.
  - by intros [= <- <- <-].
  - assert (Hd : d ∈ unvisited_dirs R C visited x) by (rewrite Hdirs; left).
    apply unvisited_dirs_spec in Hd as [Hy _].
    destruct (knock_down gr x.1 x.2 d) as [gr1| |]; [|done..]. rewrite bind_Ok.
    destruct (knock_down gr1 _ _ (OPPOSITE d)) as [gr2| |]; [|done..]. rewrite bind_Ok.
    destruct (setitem2_in_bounds R C visited (move x d) true Hvis Hy)
      as (v' & -> & Hv' & _).
    rewrite bind_Ok. by intros [= <- <- <-].
Qed.

Lemma carve_loop_first (fuel : nat) : ∀ st1 st2 : carve_state G,
  wf_matrix R C (c_visited st1) → forget st1 = forget st2 →
  outcome (carve_loop fmul fuel self st1) = outcome (carve_loop fmul fuel self st2).
Proof.
  induction fuel as [|fuel IH]; intros st1 st2 Hvis Hsame.
  - unfold forget in Hsame. injection Hsame as Hg Hv Hs. simpl. rewrite <- Hs.
    destruct (c_stack st1) as [|[r c] below] eqn:Hst; [|done].
    simpl. unfold forget. by rewrite Hg, Hv, Hst, Hs.
  - pose proof Hsame as Hsame'. unfold forget in Hsame'.
    injection Hsame' as Hg Hv Hs.
    cbn [carve_loop]. rewrite <- Hs.
    destruct (c_stack st1) as [|[r c] below] eqn:Hst.
    { simpl. unfold forget. by rewrite Hg, Hv, Hst, Hs. }
    pose proof (carve_body_first st1 (r, c) below Hvis) as H1.
    pose proof (carve_body_first st2 (r, c) below ltac:(by rewrite <- Hv)) as H2.
    rewrite <- Hg, <- Hv in H2. simpl in H1, H2.
    destruct (first_step (c_grid st1) (c_visited st1) (r, c) below)
      as [[[gr' v'] s']| |] eqn:Hfirst.
    + destruct (carve_body fmul self st1 r c below) as [st1'| |]; [|done..].
      destruct (carve_body fmul self st2 r c below) as [st2'| |]; [|done..].
      rewrite !bind_Ok. simpl in H1, H2. apply IH.
      * unfold forget in H1. injection H1 as _ Hv1 _.
        rewrite Hv1. by eapply first_step_wf.
      * unfold forget in *. congruence.
    + destruct (carve_body fmul self st1 r c below) as [st1'| |]; [done| |done].
      destruct (carve_body fmul self st2 r c below) as [st2'| |]; [done| |done].
      simpl in H1, H2. simpl. congruence.
    + destruct (carve_body fmul self st1 r c below) as [st1'| |]; [done|done|].
      destruct (carve_body fmul self st2 r c below) as [st2'| |]; [done|done|].
      done.
Qed.

End ComplexityZero.

Section ComplexityZeroWhole.
Context {G : Type} `{RandomSource G}.
Variable fmul : Q → Q → Q.

(** X19. With a complexity of 0, [random.random() < self.complexity] never
    holds, so [_carve_passage] always takes the first unvisited neighbour in
    the order N, S, E, W: from a given start cell it carves the same maze
    whatever the state of the random generator. *)
Theorem carve_passage_complexity_zero (self : MazeGenerator) (sr sc : Z) (fuel : nat)
    (g1 g2 : G) :
  wf_matrix (rows self) (cols self) (grid self) →
  in_bounds (rows self) (cols self) (sr, sc) →
  (complexity self <= 0)%Q →
  2 * (rows self * cols self) ≤ Z.of_nat fuel →
  ∃ self' g1' g2',
    _carve_passage fmul fuel self sr sc g1 = Ok (self', g1') ∧
    _carve_passage fmul fuel self sr sc g2 = Ok (self', g2').
Proof.
  intros Hgrid Hroot Hcx Hfuel.
  destruct (carve_passage_any fmul self (sr, sc) g1 fuel Hgrid Hroot Hfuel)
    as (st1 & Hrun1 & _).
  simpl in Hrun1. exists (set_grid self (c_grid st1)), (c_rng st1).
  unfold _carve_passage in *. unfold carve_init in *.
  destruct (setitem2_in_bounds (rows self) (cols self)
              (replicate (Z.to_nat (rows self)) (replicate (Z.to_nat (cols self)) false))
              (sr, sc) true) as (vis & Hset & Hvis & _);
    [apply wf_matrix_replicate; unfold in_bounds in Hroot; simpl in Hroot; lia
    | done |].
  simpl in Hset. rewrite Hset in *. rewrite !bind_Ok in *.
  pose proof (carve_loop_first fmul self (rows self) (cols self) eq_refl eq_refl Hcx
                fuel (mkCarve (grid self) vis [(sr, sc)] g1)
                (mkCarve (grid self) vis [(sr, sc)] g2) Hvis eq_refl) as Hsame.
  destruct (carve_loop fmul fuel self (mkCarve (grid self) vis [(sr, sc)] g1))
    as [st1'| |]; [|done..].
  destruct (carve_loop fmul fuel self (mkCarve (grid self) vis [(sr, sc)] g2))
    as [st2| |]; [|done..].
  rewrite !bind_Ok in *. unfold outcome, forget in Hsame. rewrite !bind_Ok in Hsame.
  injection Hsame as Hg _ _.
  exists (c_rng st2). split; [done|].
  injection Hrun1 as Hrun1 _. by rewrite <- Hrun1, Hg.
Qed.

End ComplexityZeroWhole.

(** * The breadth-first search on any grid with a closed boundary *)

Lemma walk_last {V} (E : V → V → Prop) x z n :
  walk E x z (Datatypes.S n) → ∃ y, walk E x y n ∧ E y z.
Proof.
  revert x. induction n as [|n IH]; intros x Hw.
  - inversion Hw as [|? y ? ? Hxy Hyz]; subst. inversion Hyz; subst.
    exists x. split; [constructor | done].
  - inversion Hw as [|? y ? ? Hxy Hyz]; subst.
    destruct (IH y Hyz) as (y' & Hy' & Hlast).
    exists y'. split; [by eapply walk_step | done].
Qed.

Section BfsAny.
Variables (R C : Z) (gr : Grid).
Hypothesis Hgr : wf_matrix R C gr.
Hypothesis Hb : boundary_closed R C gr.
Variable s : Z * Z.
Hypothesis Hs : in_bounds R C s.
Implicit Types (x y z w far : Z * Z) (dist : list (list Z)) (q : list (Z * Z))
  (parent : gmap (Z * Z) (Z * Z)).

Lemma bfs_visit_any x d dist parent q :
  wf_matrix R C dist → in_bounds R C x →
  ∃ σ', bfs_visit gr x.1 x.2 (Ok (dist, parent, q)) (d, DIR_VEC d) = Ok σ' ∧
        visit_rel R C gr x d (dist, parent, q) σ'.
Proof.
  intros Hdist Hx. unfold bfs_visit. rewrite bind_Ok.
  destruct (DIR_VEC d) as [dr dc] eqn:Hd.
  assert (Hmove : move x d = (x.1 + dr, x.2 + dc)) by (unfold move; by rewrite Hd).
  destruct (getitem2_in_bounds R C gr x Hgr Hx) as (cl & Hcl & ->).
  rewrite bind_Ok.
  assert (Hwall : wallb gr x d = cell_get cl d) by (unfold wallb; by rewrite Hcl).
  destruct (cell_get cl d) eqn:Hcell.
  - eexists. split; [done|]. left. split; [by left | done].
  - assert (Hy : in_bounds R C (move x d)).
    { destruct (decide (in_bounds R C (move x d))) as [|Hout]; [done|].
      rewrite (Hb x d Hx Hout) in Hwall. done. }
    destruct (getitem2_in_bounds R C dist (move x d) Hdist Hy) as (dn & Hdn & Hget).
    rewrite Hmove in Hget. simpl in Hget. rewrite Hget, bind_Ok.
    assert (Hdval : dval dist (move x d) = dn) by (unfold dval; by rewrite Hdn).
    destruct (Z.eqb_spec dn (-1)) as [Heq | Hne].
    + destruct (getitem2_in_bounds R C dist x Hdist Hx) as (dx & Hdx & ->).
      rewrite bind_Ok.
      destruct (setitem2_in_bounds R C dist (move x d) (dx + 1) Hdist Hy)
        as (dist' & Hset & Hwf' & Hnew & Hold).
      rewrite Hmove in Hset. simpl in Hset. rewrite Hset, bind_Ok.
      eexists. split; [done|]. right. simpl.
      split; [done|]. split; [done|]. split; [congruence|]. split; [done|].
      split; [|rewrite Hmove; by destruct x].
      intros z Hz. unfold dval. case_decide as Hzy.
      * subst z. by rewrite Hnew, Hdx.
      * by rewrite Hold.
    + eexists. split; [done|]. left. split; [right; simpl; congruence | done].
Qed.

(** The state of the search while cell [x] is being expanded, [pend]
    marking the directions of [x] not looked at yet: recorded distances are
    lengths of shortest walks from [s]; the queue holds cells at the
    distance of [x] followed by cells one step farther; a cell that has
    left the queue has all its open neighbours discovered and is not farther
    than [x]; and every cell within the distance of [x] is discovered. *)
Record level_inv x (pend : Dir.t → Prop) dist q far : Prop := {
  li_wf : wf_matrix R C dist;
  li_cur : in_bounds R C x ∧ dval dist x ≠ -1;
  li_exact : ∀ z, in_bounds R C z → dval dist z ≠ -1 →
    ∃ n, dval dist z = Z.of_nat n ∧ is_dist (linked R C gr) s z n;
  li_queue : ∃ q1 q2, q = q1 ++ q2 ∧
    (∀ y, y ∈ q1 → dval dist y = dval dist x) ∧
    (∀ y, y ∈ q2 → dval dist y = dval dist x + 1);
  li_queue_in : ∀ y, y ∈ q → in_bounds R C y;
  li_closed : ∀ z d, in_bounds R C z → dval dist z ≠ -1 → z ∉ q →
    wallb gr z d = false → dval dist (move z d) ≠ -1 ∨ (z = x ∧ pend d);
  li_small : ∀ z, in_bounds R C z → dval dist z ≠ -1 → z ∉ q →
    dval dist z ≤ dval dist x;
  li_level : ∀ w n, walk (linked R C gr) s w n → Z.of_nat n ≤ dval dist x →
    dval dist w ≠ -1;
  li_far : in_bounds R C far ∧ dval dist far ≠ -1;
  li_max : ∀ z, in_bounds R C z → dval dist z ≠ -1 → z ∉ q →
    dval dist z ≤ dval dist far
}.

Lemma level_inv_queue x pend dist q far y :
  level_inv x pend dist q far → y ∈ q → in_bounds R C y ∧ dval dist y ≠ -1.
Proof.
  intros Hinv Hy. split; [by apply (li_queue_in _ _ _ _ _ Hinv)|].
  destruct (li_cur _ _ _ _ _ Hinv) as [Hx Hdx].
  destruct (li_exact _ _ _ _ _ Hinv x Hx Hdx) as (n & Hn & _).
  destruct (li_queue _ _ _ _ _ Hinv) as (q1 & q2 & -> & H1 & H2).
  apply elem_of_app in Hy as [Hy | Hy]; [rewrite (H1 y Hy) | rewrite (H2 y Hy)]; lia.
Qed.

Lemma level_inv_visit x d ds dist parent q far σ' :
  level_inv x (λ d', d' ∈ d :: ds) dist q far →
  visit_rel R C gr x d (dist, parent, q) σ' →
  level_inv x (λ d', d' ∈ ds) σ'.1.1 σ'.2 far ∧
  (length σ'.2 + (length (all_cells R C) - discovered R C σ'.1.1)
   = length q + (length (all_cells R C) - discovered R C dist))%nat.
Proof.
  intros Hinv Hrel.
  pose proof Hinv as [Hwf [Hx Hdx] Hexact Hqueue Hqin Hclosed Hsmall Hlevel
                        [Hfar Hfard] Hmax].
  destruct Hrel as [[Hskip ->] | (Hwall & Hy & Hnew & Hwf' & Hval & Hpar & Hq)]; simpl.
  - split; [|done]. split; try done.
    intros z d' Hz Hdz Hzq Hw.
    destruct (Hclosed z d' Hz Hdz Hzq Hw) as [? | [-> Hd']]; [by left|].
    apply elem_of_cons in Hd' as [-> | Hd']; [|by right].
    left. destruct Hskip as [Hskip | Hskip]; [congruence | done].
  - destruct σ' as [[dist' parent'] q']. simpl in *. subst q'.
    remember (move x d) as y eqn:Hyeq.
    assert (Hkeep : ∀ z, in_bounds R C z → dval dist z ≠ -1 → dval dist' z = dval dist z).
    { intros z Hz Hdz. rewrite Hval by done. case_decide; [subst; congruence | done]. }
    assert (Hgrow : ∀ z, in_bounds R C z → dval dist z ≠ -1 → dval dist' z ≠ -1).
    { intros z Hz Hdz. by rewrite Hkeep. }
    assert (Hynew : dval dist' y = dval dist x + 1).
    { rewrite Hval by done. by rewrite decide_True. }
    assert (Hcases : ∀ z, in_bounds R C z → dval dist' z ≠ -1 → z = y ∨ dval dist z ≠ -1).
    { intros z Hz Hdz. rewrite Hval in Hdz by done. case_decide; [by left | by right]. }
    destruct (Hexact x Hx Hdx) as (n & Hn & Hxdist).
    assert (Hyq : ∀ z, ¬ (z ∈ q ++ [y]) → ¬ (z ∈ q) ∧ z ≠ y).
    { intros z Hz. split.
      - intros Hin. apply Hz, elem_of_app. by left.
      - intros ->. apply Hz, elem_of_app. right. by apply list_elem_of_singleton. }
    assert (Hxy : linked R C gr x y).
    { split; [done|]. split; [done|]. by exists d. }
    split; [split|].
    + done.
    + split; [done | by apply Hgrow].
    + intros z Hz Hdz. destruct (Hcases z Hz Hdz) as [-> | Hold].
      * exists (Datatypes.S n). split; [rewrite Hynew; lia|]. split.
        -- eapply walk_snoc; [apply Hxdist | done].
        -- intros m Hm. destruct (le_lt_dec m n) as [Hle|]; [|lia].
           exfalso. apply (Hlevel y m Hm); [lia | done].
      * rewrite Hkeep by done. by apply Hexact.
    + destruct Hqueue as (q1 & q2 & -> & H1 & H2).
      exists q1, (q2 ++ [y]). split; [by rewrite app_assoc|].
      rewrite (Hkeep x Hx Hdx). split.
      * intros z Hz. rewrite Hkeep; [by apply H1 | |].
        -- apply Hqin, elem_of_app. by left.
        -- rewrite (H1 z Hz). lia.
      * intros z [Hz | ->%list_elem_of_singleton]%elem_of_app; [|done].
        rewrite Hkeep; [by apply H2 | |].
        -- apply Hqin, elem_of_app. by right.
        -- rewrite (H2 z Hz). lia.
    + intros z [Hz | ->%list_elem_of_singleton]%elem_of_app; [by apply Hqin | done].
    + intros z d' Hz Hdz Hzq Hw. apply Hyq in Hzq as [Hzq Hzy].
      destruct (Hcases z Hz Hdz) as [-> | Hold]; [done|].
      destruct (Hclosed z d' Hz Hold Hzq Hw) as [Hd | [-> Hd']].
      * left. apply Hgrow; [|done].
        destruct (decide (in_bounds R C (move z d'))) as [|Hout]; [done|].
        rewrite (Hb z d' Hz Hout) in Hw. done.
      * apply elem_of_cons in Hd' as [-> | Hd']; [|by right].
        left. rewrite <- Hyeq, Hynew. lia.
    + intros z Hz Hdz Hzq. apply Hyq in Hzq as [Hzq Hzy].
      destruct (Hcases z Hz Hdz) as [-> | Hold]; [done|].
      rewrite !Hkeep by done. by apply Hsmall.
    + intros w m Hw Hm. rewrite Hkeep in Hm by done.
      assert (Hdw : dval dist w ≠ -1) by (by eapply Hlevel).
      apply Hgrow; [|done].
      destruct m as [|m]; [by inversion Hw; subst|].
      apply walk_last in Hw as (w' & _ & _ & Hwb & _). done.
    + split; [done | by apply Hgrow].
    + intros z Hz Hdz Hzq. apply Hyq in Hzq as [Hzq Hzy].
      destruct (Hcases z Hz Hdz) as [-> | Hold]; [done|].
      rewrite !Hkeep by done. by apply Hmax.
    + rewrite length_app. simpl.
      assert (Hcount : discovered R C dist' = Datatypes.S (discovered R C dist)).
      { unfold discovered.
        rewrite (filter_length_flip (λ z, dval dist z ≠ -1) _ _ y).
        - rewrite decide_True by (by apply elem_of_all_cells). lia.
        - apply NoDup_all_cells.
        - intros z Hz%elem_of_all_cells Hne. rewrite Hval by done.
          by rewrite decide_False.
        - by intros ?.
        - rewrite Hynew. lia. }
      assert (discovered R C dist' ≤ length (all_cells R C))%nat by apply length_filter.
      lia.
Qed.

Lemma level_inv_pending x (p p' : Dir.t → Prop) dist q far :
  (∀ d, p d → p' d) → level_inv x p dist q far → level_inv x p' dist q far.
Proof.
  intros Himpl [Hwf Hcur Hexact Hqueue Hqin Hclosed Hsmall Hlevel Hfar Hmax].
  split; try done.
  intros z d Hz Hdz Hzq Hw. destruct (Hclosed z d Hz Hdz Hzq Hw) as [?|[? ?]]; auto.
Qed.

(** The [parent] dictionary: its keys are the discovered cells other than
    [s], and the value for a key is a discovered cell with an open wall
    toward the key, recorded one step nearer to [s]. *)
Record parent_inv dist parent : Prop := {
  pi_edge : ∀ y p, parent !! y = Some p →
    in_bounds R C y ∧ dval dist y ≠ -1 ∧ in_bounds R C p ∧ dval dist p ≠ -1 ∧
    linked R C gr p y ∧ dval dist y = dval dist p + 1;
  pi_keys : ∀ y, in_bounds R C y → dval dist y ≠ -1 → y ≠ s →
    is_Some (parent !! y);
  pi_source : parent !! s = None ∧ dval dist s ≠ -1
}.

Lemma parent_inv_visit x d dist parent q σ' :
  in_bounds R C x → 0 ≤ dval dist x →
  parent_inv dist parent →
  visit_rel R C gr x d (dist, parent, q) σ' →
  parent_inv σ'.1.1 σ'.1.2.
Proof.
  intros Hx Hx0 [Hedge Hkeys [Hsrc Hsd]] Hrel.
  assert (Hdx : dval dist x ≠ -1) by lia.
  destruct Hrel as [[_ ->] | (Hwall & Hy & Hnew & Hwf' & Hval & Hpar & Hq)]; [done|].
  destruct σ' as [[dist' parent'] q']. simpl in *. subst parent'.
  assert (Hkeep : ∀ z, in_bounds R C z → dval dist z ≠ -1 → dval dist' z = dval dist z).
  { intros z Hz Hdz. rewrite Hval by done. case_decide; [subst; congruence | done]. }
  assert (Hys : move x d ≠ s) by (intros Heq; rewrite Heq in Hnew; done).
  split.
  - intros y p. destruct (decide (y = move x d)) as [-> | Hne].
    + rewrite lookup_insert_eq. intros [= <-].
      assert (dval dist' (move x d) = dval dist x + 1) as Hynew
        by (rewrite Hval by done; by rewrite decide_True).
      split; [done|]. split.
      { rewrite Hynew. lia. }
      split; [done|]. split; [by rewrite Hkeep|].
      split; [|by rewrite Hynew, Hkeep].
      split; [done|]. split; [done|]. by exists d.
    + rewrite lookup_insert_ne by done. intros Hp.
      destruct (Hedge y p Hp) as (Hyb & Hdy & Hpb & Hdp & Hlink & Hstep).
      rewrite !Hkeep by done. done.
  - intros y Hyb Hdy Hne. destruct (decide (y = move x d)) as [-> | Hne'].
    + rewrite lookup_insert_eq. done.
    + rewrite lookup_insert_ne by done. apply Hkeys; [done| |done].
      rewrite Hval in Hdy by done. by rewrite decide_False in Hdy.
  - split; [by rewrite lookup_insert_ne | by rewrite Hkeep].
Qed.

(** The whole inner [for] loop. *)
Lemma level_fold_inv x ds dist parent q far :
  level_inv x (λ d', d' ∈ ds) dist q far →
  parent_inv dist parent →
  ∃ dist' parent' q',
    foldl (bfs_visit gr x.1 x.2) (Ok (dist, parent, q)) ((λ d, (d, DIR_VEC d)) <$> ds)
      = Ok (dist', parent', q') ∧
    level_inv x (λ _, False) dist' q' far ∧
    parent_inv dist' parent' ∧
    (length q' + (length (all_cells R C) - discovered R C dist')
     = length q + (length (all_cells R C) - discovered R C dist))%nat.
Proof.
  revert dist parent q.
  induction ds as [|d ds IH]; intros dist parent q Hinv Hpar.
  - exists dist, parent, q. split; [done|]. split; [|done].
    apply (level_inv_pending x (λ d', d' ∈ [])); [|done].
    intros d' Hd'. by apply elem_of_nil in Hd'.
  - rewrite fmap_cons. cbn [foldl].
    destruct (li_cur _ _ _ _ _ Hinv) as [Hx Hdx].
    destruct (bfs_visit_any x d dist parent q (li_wf _ _ _ _ _ Hinv) Hx)
      as (σ' & -> & Hrel).
    destruct (level_inv_visit x d ds dist parent q far σ' Hinv Hrel) as (Hinv' & Hmeasure).
    assert (Hx0 : 0 ≤ dval dist x).
    { destruct (li_exact _ _ _ _ _ Hinv x Hx Hdx) as (n & -> & _). lia. }
    pose proof (parent_inv_visit x d dist parent q σ' Hx Hx0 Hpar Hrel) as Hpar'.
    destruct σ' as [[dist1 parent1] q1]. simpl in *.
    destruct (IH dist1 parent1 q1 Hinv' Hpar')
      as (dist' & parent' & q' & Hfold & Hinv'' & Hpar'' & Hm).
    exists dist', parent', q'. split; [done|]. split; [done|]. split; [done|]. lia.
Qed.

(** From a cell whose expansion is over to the next cell of the queue. *)
Lemma level_inv_advance x x' rest dist far :
  level_inv x (λ _, False) dist (x' :: rest) far →
  level_inv x' (λ _, True) dist rest
            (if dval dist far <? dval dist x' then x' else far).
Proof.
  intros Hinv.
  pose proof Hinv as [Hwf [Hx Hdx] Hexact Hqueue Hqin Hclosed Hsmall Hlevel
                        [Hfar Hfard] Hmax].
  destruct (level_inv_queue x _ dist (x' :: rest) far x' Hinv ltac:(left))
    as [Hx' Hdx'].
  assert (Hk : dval dist x ≤ dval dist x').
  { destruct Hqueue as (q1 & q2 & Hq & H1 & H2).
    assert (x' ∈ q1 ++ q2) as [Hin | Hin]%elem_of_app by (rewrite <- Hq; left).
    - rewrite (H1 x' Hin). lia.
    - rewrite (H2 x' Hin). lia. }
  assert (Hout : ∀ z, z ∉ rest → z ≠ x' → z ∉ x' :: rest).
  { intros z Hz Hne [?|?]%elem_of_cons; done. }
  split.
  - done.
  - done.
  - done.
  - destruct Hqueue as (q1 & q2 & Hq & H1 & H2). destruct q1 as [|y q1].
    + simpl in Hq. subst q2.
      exists rest, []. split; [by rewrite app_nil_r|]. split.
      * intros y Hy. rewrite (H2 y), (H2 x'); [done | left | by right].
      * intros y Hy. by apply elem_of_nil in Hy.
    + injection Hq as <- ->.
      exists q1, q2. split; [done|].
      rewrite (H1 x') by left. split.
      * intros z Hz. apply H1. by right.
      * done.
  - intros y Hy. apply Hqin. by right.
  - intros z d Hz Hdz Hzq Hw.
    destruct (decide (z = x')) as [-> | Hne]; [by right|].
    destruct (Hclosed z d Hz Hdz (Hout z Hzq Hne) Hw) as [? | [_ []]]. by left.
  - intros z Hz Hdz Hzq.
    destruct (decide (z = x')) as [-> | Hne]; [lia|].
    etrans; [apply (Hsmall z Hz Hdz (Hout z Hzq Hne)) | done].
  - intros w n Hw Hn.
    destruct (decide (Z.of_nat n ≤ dval dist x)) as [Hle | Hgt]; [by eapply Hlevel|].
    destruct Hqueue as (q1 & q2 & Hq & H1 & H2). destruct q1 as [|y q1].
    + simpl in Hq. subst q2.
      assert (Hk' : dval dist x' = dval dist x + 1) by (apply H2; left).
      destruct n as [|n]; [lia|].
      apply walk_last in Hw as (w' & Hw' & Hlast).
      assert (Hdw' : dval dist w' ≠ -1) by (apply (Hlevel w' n Hw'); lia).
      pose proof Hlast as (Hw'b & Hwb & d & -> & Hopen).
      destruct (Hexact w' Hw'b Hdw') as (n0 & Hn0 & [_ Hmin]).
      pose proof (Hmin n Hw') as Hle.
      assert (Hnotin : w' ∉ x' :: rest).
      { intros Hin. rewrite (H2 w' Hin) in Hn0. lia. }
      destruct (Hclosed w' d Hw'b Hdw' Hnotin Hopen) as [? | [_ []]]. done.
    + injection Hq as <- ->. rewrite (H1 x') in Hn by left. lia.
  - destruct (Z.ltb_spec (dval dist far) (dval dist x')); done.
  - intros z Hz Hdz Hzq.
    destruct (Z.ltb_spec (dval dist far) (dval dist x')) as [Hlt | Hge].
    + destruct (decide (z = x')) as [-> | Hne]; [lia|].
      etrans; [apply (Hmax z Hz Hdz (Hout z Hzq Hne)) | lia].
    + destruct (decide (z = x')) as [-> | Hne]; [lia|].
      apply (Hmax z Hz Hdz (Hout z Hzq Hne)).
Qed.

(** The state of the search at the head of [while q:]: the loop is being
    entered, or some cell has just been expanded. *)
Definition head_inv dist q far : Prop :=
  (q = [s] ∧ far = s ∧ wf_matrix R C dist ∧ dval dist s = 0 ∧
   ∀ z, in_bounds R C z → z ≠ s → dval dist z = -1) ∨
  (∃ x, level_inv x (λ _, False) dist q far).

Lemma head_inv_start dist x rest far :
  head_inv dist (x :: rest) far →
  level_inv x (λ _, True) dist rest (if dval dist far <? dval dist x then x else far).
Proof.
  intros [(Hq & -> & Hwf & Hs0 & Hrest) | [xp Hinv]];
    [|by apply (level_inv_advance xp)].
  injection Hq as -> ->. rewrite Z.ltb_irrefl.
  assert (Honly : ∀ z, in_bounds R C z → dval dist z ≠ -1 → z = s).
  { intros z Hz Hdz. destruct (decide (z = s)); [done|]. by rewrite Hrest in Hdz. }
  split.
  - done.
  - split; [done | lia].
  - intros z Hz Hdz. rewrite (Honly z Hz Hdz). exists O. split; [by rewrite Hs0|].
    split; [constructor | lia].
  - exists [], []. split; [done|]. split; intros y Hy; by apply elem_of_nil in Hy.
  - intros y Hy. by apply elem_of_nil in Hy.
  - intros z d Hz Hdz _ _. right. by rewrite (Honly z Hz Hdz).
  - intros z Hz Hdz _. rewrite (Honly z Hz Hdz). lia.
  - intros w n Hw Hn. rewrite Hs0 in Hn.
    destruct n as [|n]; [|lia]. inversion Hw; subst. lia.
  - split; [done | lia].
  - intros z Hz Hdz _. rewrite (Honly z Hz Hdz). lia.
Qed.

(** One iteration of [while q:]. *)
Lemma bfs_body_any st x rest :
  b_q st = x :: rest →
  head_inv (b_dist st) (b_q st) (b_farthest st) →
  parent_inv (b_dist st) (b_parent st) →
  ∃ st', bfs_body gr st x.1 x.2 rest = Ok st' ∧
    head_inv (b_dist st') (b_q st') (b_farthest st') ∧
    parent_inv (b_dist st') (b_parent st') ∧
    (Datatypes.S (length (b_q st') + (length (all_cells R C) - discovered R C (b_dist st')))
     = length (b_q st) + (length (all_cells R C) - discovered R C (b_dist st)))%nat.
Proof.
  intros Hq Hhead Hpar. rewrite Hq in Hhead.
  pose proof (head_inv_start _ _ _ _ Hhead) as Hinv.
  assert (Hfar : in_bounds R C (b_farthest st)).
  { destruct Hhead as [(_ & -> & _) | [xp Hxp]]; [done|].
    apply (li_far _ _ _ _ _ Hxp). }
  pose proof (li_wf _ _ _ _ _ Hinv) as Hwf.
  destruct (li_cur _ _ _ _ _ Hinv) as [Hx Hdx].
  unfold bfs_body.
  destruct (getitem2_in_bounds R C (b_dist st) (b_farthest st) Hwf Hfar) as (kf & Hkf & ->).
  rewrite bind_Ok.
  destruct (getitem2_in_bounds R C (b_dist st) x Hwf Hx) as (kc & Hkc & ->).
  rewrite bind_Ok.
  assert (Hkf' : dval (b_dist st) (b_farthest st) = kf) by (unfold dval; by rewrite Hkf).
  assert (Hkc' : dval (b_dist st) x = kc) by (unfold dval; by rewrite Hkc).
  rewrite Hkf', Hkc' in Hinv.
  assert ((if kf <? kc then (x.1, x.2) else b_farthest st)
          = (if kf <? kc then x else b_farthest st)) as Hfareq by (by destruct x).
  destruct (level_fold_inv x [Dir.N; Dir.S; Dir.E; Dir.W] (b_dist st) (b_parent st) rest
              (if kf <? kc then x else b_farthest st))
    as (dist' & parent' & q' & Hfold & Hinv' & Hpar' & Hm).
  { apply (level_inv_pending x (λ _, True)); [|done].
    intros d _. destruct d; repeat constructor. }
  { done. }
  change DIR_VEC_items with ((λ d, (d, DIR_VEC d)) <$> [Dir.N; Dir.S; Dir.E; Dir.W]).
  rewrite Hfold, bind_Ok. eexists. split; [done|]. simpl. split; [|split].
  - right. exists x. by rewrite Hfareq.
  - done.
  - rewrite Hq. simpl. lia.
Qed.

Lemma bfs_loop_any fuel st :
  head_inv (b_dist st) (b_q st) (b_farthest st) →
  parent_inv (b_dist st) (b_parent st) →
  (length (b_q st) + (length (all_cells R C) - discovered R C (b_dist st)) ≤ fuel)%nat →
  ∃ st', bfs_loop fuel gr st = Ok st' ∧ b_q st' = [] ∧
         head_inv (b_dist st') (b_q st') (b_farthest st') ∧
         parent_inv (b_dist st') (b_parent st').
Proof.
  revert st. induction fuel as [|fuel IH]; intros st Hinv Hpar Hfuel.
  - destruct (b_q st) as [|x rest] eqn:Hq; [|simpl in Hfuel; lia].
    rewrite <- Hq in Hinv. exists st. simpl. split; [by rewrite Hq | done].
  - destruct (b_q st) as [|[r c] rest] eqn:Hq; rewrite <- Hq in Hinv.
    + exists st. simpl. split; [by rewrite Hq | done].
    + cbn [bfs_loop]. rewrite Hq.
      destruct (bfs_body_any st (r, c) rest Hq Hinv Hpar)
        as (st' & Hbody & Hinv' & Hpar' & Hm).
      simpl in Hbody. rewrite Hbody, bind_Ok. apply IH; [done | done |].
      rewrite Hq in Hm. simpl in *. lia.
Qed.

(** When the queue is empty, the cells that carry a distance are the cells
    that can be reached from [s], the distance is the length of a shortest
    walk, and [far] is a farthest one. *)
Lemma head_inv_final dist far :
  head_inv dist [] far →
  wf_matrix R C dist ∧ in_bounds R C far ∧
  (∃ m, dval dist far = Z.of_nat m ∧ is_dist (linked R C gr) s far m) ∧
  ∀ x, in_bounds R C x →
    (dval dist x = -1 ∧ ∀ n, ¬ walk (linked R C gr) s x n) ∨
    (∃ n, dval dist x = Z.of_nat n ∧ is_dist (linked R C gr) s x n ∧
          dval dist x ≤ dval dist far).
Proof.
  intros [(Hq & _) | [xp Hinv]]; [done|].
  pose proof Hinv as [Hwf [Hx Hdx] Hexact Hqueue Hqin Hclosed Hsmall Hlevel
                        [Hfar Hfard] Hmax].
  assert (Hsd : dval dist s ≠ -1).
  { apply (Hlevel s O); [constructor|].
    destruct (Hexact xp Hx Hdx) as (n & -> & _). lia. }
  assert (Hreach : ∀ n w, walk (linked R C gr) s w n → dval dist w ≠ -1).
  { induction n as [|n IH]; intros w Hw.
    - by inversion Hw; subst.
    - apply walk_last in Hw as (w' & Hw' & Hw'b & Hwb & d & -> & Hopen).
      destruct (Hclosed w' d Hw'b (IH w' Hw') ltac:(by intros ?%elem_of_nil) Hopen)
        as [? | [_ []]]. done. }
  split; [done|]. split; [done|]. split; [by apply Hexact|].
  intros x Hxb. destruct (decide (dval dist x = -1)) as [Hun | Hdisc].
  - left. split; [done|]. intros n Hw. by apply (Hreach n x Hw).
  - right. destruct (Hexact x Hxb Hdisc) as (n & Hn & Hd). exists n.
    split; [done|]. split; [done|].
    apply Hmax; [done..|]. by intros ?%elem_of_nil.
Qed.

End BfsAny.



Lemma dval_getitem2 (R C : Z) (dist : list (list Z)) (x : Z * Z) :
  wf_matrix R C dist → in_bounds R C x → getitem2 dist x.1 x.2 = Ok (dval dist x).
Proof.
  intros Hwf Hx. destruct (getitem2_in_bounds R C dist x Hwf Hx) as (k & Hk & ->).
  unfold dval. by rewrite Hk.
Qed.

Section BfsAnyWhole.
Variables (R C : Z) (self : MazeGenerator).
Hypothesis HR : rows self = R.
Hypothesis HC : cols self = C.
Hypothesis Hgr : wf_matrix R C (grid self).
Hypothesis Hb : boundary_closed R C (grid self).

Lemma bfs_init_head s :
  in_bounds R C s →
  ∃ st0, bfs_init self s = Ok st0 ∧ b_q st0 = [s] ∧
    head_inv R C (grid self) s (b_dist st0) (b_q st0) (b_farthest st0) ∧
    parent_inv R C (grid self) s (b_dist st0) (b_parent st0).
Proof.
  intros Hs. unfold bfs_init. destruct s as [sr sc]. rewrite HR, HC.
  assert (0 ≤ R ∧ 0 ≤ C) as [HR0 HC0] by (unfold in_bounds in Hs; simpl in Hs; lia).
  destruct (setitem2_in_bounds R C
              (replicate (Z.to_nat R) (replicate (Z.to_nat C) (-1))) (sr, sc) 0)
    as (dist & Hset & Hwf & Hnew & Hold); [by apply wf_matrix_replicate | done |].
  simpl in Hset. rewrite Hset, bind_Ok. eexists. split; [done|]. split; [done|].
  assert (Hs0 : dval dist (sr, sc) = 0) by (unfold dval; by rewrite Hnew).
  assert (Hrest : ∀ z, in_bounds R C z → z ≠ (sr, sc) → dval dist z = -1).
  { intros z Hz Hne. unfold dval. rewrite Hold by done. by rewrite at_replicate. }
  simpl. split.
  - left. by split_and!.
  - split.
    + intros y p Hp. by rewrite lookup_empty in Hp.
    + intros y Hy Hdy Hne. by rewrite Hrest in Hdy.
    + split; [apply lookup_empty | lia].
Qed.

(** [bfs(start)] on any grid with a closed boundary. *)
Lemma bfs_any fuel s :
  in_bounds R C s → R * C + 1 ≤ Z.of_nat fuel →
  ∃ far dist parent m, bfs fuel self s = Ok (far, dist, parent) ∧
    wf_matrix R C dist ∧ in_bounds R C far ∧
    dval dist far = Z.of_nat m ∧ is_dist (linked R C (grid self)) s far m ∧
    parent_inv R C (grid self) s dist parent ∧
    ∀ x, in_bounds R C x →
      (dval dist x = -1 ∧ ∀ n, ¬ walk (linked R C (grid self)) s x n) ∨
      (∃ n, dval dist x = Z.of_nat n ∧ is_dist (linked R C (grid self)) s x n ∧
            (n ≤ m)%nat).
Proof.
  intros Hs Hfuel. unfold bfs.
  destruct (bfs_init_head s Hs) as (st0 & -> & Hq0 & Hinv0 & Hpar0). rewrite bind_Ok.
  assert (0 ≤ R ∧ 0 ≤ C) as [HR0 HC0] by (unfold in_bounds in Hs; lia).
  destruct (bfs_loop_any R C (grid self) Hgr Hb s Hs fuel st0 Hinv0 Hpar0)
    as (st & -> & Hq & Hinv & Hpar).
  { rewrite Hq0. simpl. pose proof (length_all_cells R C HR0 HC0). lia. }
  rewrite bind_Ok. rewrite Hq in Hinv.
  destruct (head_inv_final R C (grid self) s _ _ Hinv)
    as (Hwf & Hfar & (m & Hm & Hdm) & Hall).
  exists (b_farthest st), (b_dist st), (b_parent st), m.
  split; [done|]. split; [done|]. split; [done|]. split; [done|]. split; [done|].
  split; [done|].
  intros x Hx. destruct (Hall x Hx) as [? | (n & Hn & Hd & Hle)]; [by left|].
  right. exists n. split; [done|]. split; [done|]. lia.
Qed.

End BfsAnyWhole.

Section SearchProperties.

(** X20. On any grid of the right shape whose outer boundary is closed
    (walls on the two sides of a cell border need not agree, and the open
    walls may form loops or leave cells cut off), [bfs(start)] returns
    within [rows * cols] iterations without raising; the distance matrix
    holds -1 exactly for the cells that cannot be reached from [start]
    through open walls and the length of a shortest walk for the others, and
    the cell returned is a reachable cell farthest from [start]. *)
Theorem bfs_any_grid (self : MazeGenerator) (s : Z * Z) (fuel : nat) :
  wf_matrix (rows self) (cols self) (grid self) →
  boundary_closed (rows self) (cols self) (grid self) →
  in_bounds (rows self) (cols self) s →
  rows self * cols self + 1 ≤ Z.of_nat fuel →
  ∃ far dist parent m,
    bfs fuel self s = Ok (far, dist, parent) ∧
    in_bounds (rows self) (cols self) far ∧
    is_dist (linked (rows self) (cols self) (grid self)) s far m ∧
    ∀ x, in_bounds (rows self) (cols self) x →
      (getitem2 dist x.1 x.2 = Ok (-1) ∧
       ∀ n, ¬ walk (linked (rows self) (cols self) (grid self)) s x n) ∨
      (∃ n, getitem2 dist x.1 x.2 = Ok (Z.of_nat n) ∧
            is_dist (linked (rows self) (cols self) (grid self)) s x n ∧
            (n ≤ m)%nat).
Proof.
  intros Hgr Hb Hs Hfuel.
  destruct (bfs_any (rows self) (cols self) self eq_refl eq_refl Hgr Hb fuel s Hs Hfuel)
    as (far & dist & parent & m & Hrun & Hwf & Hfar & _ & Hdm & _ & Hall).
  exists far, dist, parent, m. split; [done|]. split; [done|]. split; [done|].
  intros x Hx. rewrite (dval_getitem2 _ _ dist x Hwf Hx).
  destruct (Hall x Hx) as [[-> Hun] | (n & -> & Hd & Hle)]; [by left|].
  right. by exists n.
Qed.

(** X24. On any grid of the right shape whose outer boundary is closed, the
    [parent] dictionary that [bfs(start)] returns is a shortest-path tree:
    [start] has no entry, every other cell that can be reached from [start]
    has one and no unreachable cell has, and the entry of a cell is a cell
    with an open wall toward it that is exactly one step nearer to
    [start]. *)
Theorem bfs_parent_tree (self : MazeGenerator) (s : Z * Z) (fuel : nat) :
  wf_matrix (rows self) (cols self) (grid self) →
  boundary_closed (rows self) (cols self) (grid self) →
  in_bounds (rows self) (cols self) s →
  rows self * cols self + 1 ≤ Z.of_nat fuel →
  ∃ far dist parent,
    bfs fuel self s = Ok (far, dist, parent) ∧
    parent !! s = None ∧
    (∀ y, in_bounds (rows self) (cols self) y → y ≠ s →
       is_Some (parent !! y) ↔
       ∃ n, walk (linked (rows self) (cols self) (grid self)) s y n) ∧
    ∀ y p, parent !! y = Some p →
      linked (rows self) (cols self) (grid self) p y ∧
      ∃ n, is_dist (linked (rows self) (cols self) (grid self)) s p n ∧
           is_dist (linked (rows self) (cols self) (grid self)) s y (Datatypes.S n).
Proof.
  intros Hgr Hb Hs Hfuel.
  destruct (bfs_any (rows self) (cols self) self eq_refl eq_refl Hgr Hb fuel s Hs Hfuel)
    as (far & dist & parent & m & Hrun & Hwf & Hfar & _ & Hdm & Hpar & Hall).
  destruct Hpar as [Hedge Hkeys [Hsrc Hsd]].
  assert (Hexact : ∀ x k, in_bounds (rows self) (cols self) x → dval dist x ≠ -1 →
            dval dist x = Z.of_nat k →
            is_dist (linked (rows self) (cols self) (grid self)) s x k).
  { intros x k Hx Hdx Hk. destruct (Hall x Hx) as [[Hun _] | (n & Hn & Hd & _)]; [done|].
    by assert (k = n) as -> by lia. }
  exists far, dist, parent. split; [done|]. split; [done|]. split.
  - intros y Hy Hne. split.
    + intros [p Hp]. destruct (Hedge y p Hp) as (_ & Hdy & _).
      destruct (Hall y Hy) as [[Hun _] | (n & _ & [Hw _] & _)]; [done|]. by exists n.
    + intros [n Hw]. apply Hkeys; [done| |done].
      destruct (Hall y Hy) as [[_ Hun] | (k & Hk & _)]; [by destruct (Hun n) | lia].
  - intros y p Hp. destruct (Hedge y p Hp) as (Hy & Hdy & Hpb & Hdp & Hlink & Hstep).
    split; [done|].
    destruct (Hall p Hpb) as [[Hun _] | (n & Hn & Hd & _)]; [done|].
    exists n. split; [done|]. apply Hexact; [done..|]. lia.
Qed.


End SearchProperties.

(** * Generating again *)

Section AnyInvFacts.
Context {G : Type}.
Variables (R C : Z) (gr0 : Grid) (root : Z * Z) (st : carve_state G).
Hypothesis Hinv : any_inv R C gr0 root st.

Lemma any_inv_boundary :
  boundary_closed R C gr0 → boundary_closed R C (c_grid st).
Proof.
  intros Hb x d Hx Hout. destruct (wallb (c_grid st) x d) eqn:Hw; [done|].
  destruct (ai_new _ _ _ _ _ Hinv x d Hx Hw) as [Hold | [Hin _]]; [|done].
  rewrite (Hb x d Hx Hout) in Hold. done.
Qed.

Lemma any_inv_connected :
  (∀ x, in_bounds R C x → marked (c_visited st) x = true) →
  connected (linked R C (c_grid st)) (in_bounds R C).
Proof.
  intros Hall x y Hx Hy.
  destruct (ai_reach _ _ _ _ _ Hinv x Hx (Hall x Hx)) as [_ [n Hn]].
  destruct (ai_reach _ _ _ _ _ Hinv y Hy (Hall y Hy)) as [[m Hm] _].
  exists (n + m)%nat. by eapply walk_app.
Qed.

End AnyInvFacts.

Section GenerateAgain.
Context {G : Type} `{RandomSource G}.
Variable fmul : Q → Q → Q.

(** X22. [generate] can be called on a grid in any state with a closed
    boundary, in particular on the maze an earlier call produced: it
    returns with both endpoints set, for every difficulty, and the grid it
    leaves has a closed boundary, joins every cell to every other and has
    every wall open that was open before the call.  A later call thus never
    closes a passage of an earlier maze. *)
Theorem generate_again (self : MazeGenerator) (g : G) (fuel : nat) :
  0 < rows self → 0 < cols self →
  wf_matrix (rows self) (cols self) (grid self) →
  boundary_closed (rows self) (cols self) (grid self) →
  2 * (rows self * cols self) ≤ Z.of_nat fuel →
  ∃ self' g' a b,
    generate fmul fuel self g = Ok (self', g') ∧
    start self' = Some a ∧ end_ self' = Some b ∧
    rows self' = rows self ∧ cols self' = cols self ∧
    wf_matrix (rows self) (cols self) (grid self') ∧
    boundary_closed (rows self) (cols self) (grid self') ∧
    connected (linked (rows self) (cols self) (grid self'))
              (in_bounds (rows self) (cols self)) ∧
    ∀ x d, in_bounds (rows self) (cols self) x →
      wallb (grid self) x d = false → wallb (grid self') x d = false.
Proof.
  intros HR HC Hgr Hb Hfuel.
  destruct (randrange_ok (rows self) g HR) as (sr & g1 & Hsr & Hsrb).
  destruct (randrange_ok (cols self) g1 HC) as (sc & g2 & Hsc & Hscb).
  assert (Hroot : in_bounds (rows self) (cols self) (sr, sc)) by done.
  destruct (carve_passage_any fmul self (sr, sc) g2 fuel Hgr Hroot Hfuel)
    as (st & Hcarve & Hwf & Hinv & Hall).
  simpl in Hcarve.
  pose proof (any_inv_boundary _ _ _ _ _ Hinv Hb) as Hb'.
  pose proof (any_inv_connected _ _ _ _ _ Hinv Hall) as Hconn.
  pose proof (ai_mono _ _ _ _ _ Hinv) as Hmono.
  destruct Hwf as (Hgr' & _).
  unfold generate. rewrite Hsr, bind_Ok, Hsc, bind_Ok, Hcarve, bind_Ok.
  destruct (Qlt_le_dec (difficulty (set_grid self (c_grid st))) float_0_1);
    [|destruct (Qlt_le_dec (difficulty (set_grid self (c_grid st))) float_0_5)].
  - eexists _, _, _, _. split; [done|]. simpl. by split_and!.
  - eexists _, _, _, _. split; [done|]. simpl. by split_and!.
  - assert (Ho : in_bounds (rows self) (cols self) (0, 0))
      by (unfold in_bounds; simpl; lia).
    assert (Hfuel' : rows self * cols self + 1 ≤ Z.of_nat fuel) by nia.
    unfold _longest_path_endpoints.
    destruct (bfs_any (rows self) (cols self) (set_grid self (c_grid st))
                eq_refl eq_refl Hgr' Hb' fuel (0, 0) Ho Hfuel')
      as (a & dist & parent & e & -> & _ & Ha & _).
    rewrite bind_Ok.
    destruct (bfs_any (rows self) (cols self) (set_grid self (c_grid st))
                eq_refl eq_refl Hgr' Hb' fuel a Ha Hfuel')
      as (b & dist' & parent' & m & -> & _).
    rewrite !bind_Ok.
    eexists _, _, _, _. split; [done|]. simpl. by split_and!.
Qed.

End GenerateAgain.

(** * The number of iterations of the carving loop *)

Lemma filter_all {A} (P : A → Prop) `{∀ x, Decision (P x)} (l : list A) :
  (∀ x, x ∈ l → P x) → filter P l = l.
Proof.
  intros Hall. induction l as [|a l IH]; [done|].
  rewrite filter_cons, decide_True by (apply Hall; left).
  f_equal. apply IH. intros x Hx. apply Hall. by right.
Qed.

Section CarveIterations.
Context {G : Type} `{RandomSource G}.
Variable fmul : Q → Q → Q.
Variable self : MazeGenerator.
Variables (R C : Z).
Hypothesis HR : rows self = R.
Hypothesis HC : cols self = C.
Variable gr0 : Grid.
Variable root : Z * Z.
Hypothesis Hroot : in_bounds R C root.

(** Iterations the loop still has to run: one for every cell on the stack
    and two for every cell not visited yet. *)
Definition iterations_left (st : carve_state G) : nat :=
  (length (c_stack st)
   + 2 * (length (all_cells R C) - visited_count R C (c_visited st)))%nat.

Lemma any_inv_empty (st : carve_state G) :
  any_inv R C gr0 root st → c_stack st = [] →
  visited_count R C (c_visited st) = length (all_cells R C).
Proof.
  intros Hinv Hempty. unfold visited_count. f_equal. apply filter_all.
  intros x Hx%elem_of_all_cells. revert x Hx.
  apply (grid_closure R C _ root Hroot).
  - by destruct Hinv.
  - intros z d Hz Hm Hin.
    destruct (ai_done _ _ _ _ _ Hinv z Hz Hm) as [Hs | Hall].
    + rewrite Hempty in Hs. by apply elem_of_nil in Hs.
    + by apply Hall.
Qed.

Lemma carve_loop_exact (fuel : nat) : ∀ st : carve_state G,
  carve_wf R C st → any_inv R C gr0 root st →
  if decide (iterations_left st ≤ fuel)%nat
  then ∃ st', carve_loop fmul fuel self st = Ok st'
  else carve_loop fmul fuel self st = OutOfFuel.
Proof.
  induction fuel as [|fuel IH]; intros st Hwf Hinv.
  - destruct (c_stack st) as [|[r c] below] eqn:Hst.
    + pose proof (any_inv_empty st Hinv Hst) as Hcount.
      rewrite decide_True by (unfold iterations_left; rewrite Hst, Hcount; simpl; lia).
      exists st. simpl. by rewrite Hst.
    + rewrite decide_False by (unfold iterations_left; rewrite Hst; simpl; lia).
      simpl. by rewrite Hst.
  - destruct (c_stack st) as [|[r c] below] eqn:Hst.
    + pose proof (any_inv_empty st Hinv Hst) as Hcount.
      rewrite decide_True by (unfold iterations_left; rewrite Hst, Hcount; simpl; lia).
      exists st. simpl. by rewrite Hst.
    + cbn [carve_loop]. rewrite Hst.
      destruct (carve_body_step fmul R C self st (r, c) below HR HC Hwf Hst)
        as (st' & Hbody & Hstep & Hwf').
      simpl in Hbody. rewrite Hbody, bind_Ok.
      destruct (carve_step_any self R C HR HC gr0 root st st' Hroot Hwf Hinv Hstep)
        as [Hinv' Hsize].
      assert (visited_count R C (c_visited st') ≤ length (all_cells R C))%nat
        by apply length_filter.
      assert (Hleft : iterations_left st = Datatypes.S (iterations_left st')).
      { unfold iterations_left. rewrite Hst in *. simpl in *. lia. }
      specialize (IH st' Hwf' Hinv').
      destruct (decide (iterations_left st' ≤ fuel)%nat).
      * rewrite decide_True by lia. done.
      * rewrite decide_False by lia. done.
Qed.

End CarveIterations.

Section CarveIterationsWhole.
Context {G : Type} `{RandomSource G}.
Variable fmul : Q → Q → Q.

(** X23. From a start cell of the grid, and whatever the walls of the grid
    and the random choices, the loop of [_carve_passage] runs exactly
    [2 * rows * cols - 1] times (every cell but the start is pushed once and
    every cell is popped once): the call returns when that many iterations
    are allowed and is still running after any smaller number. *)
Theorem carve_passage_iterations (self : MazeGenerator) (sr sc : Z) (g : G)
    (fuel : nat) :
  wf_matrix (rows self) (cols self) (grid self) →
  in_bounds (rows self) (cols self) (sr, sc) →
  (2 * (rows self * cols self) - 1 ≤ Z.of_nat fuel →
   ∃ self' g', _carve_passage fmul fuel self sr sc g = Ok (self', g')) ∧
  (Z.of_nat fuel < 2 * (rows self * cols self) - 1 →
   _carve_passage fmul fuel self sr sc g = OutOfFuel).
Proof.
  intros Hgrid Hroot.
  destruct (carve_init_any self (rows self) (cols self) eq_refl eq_refl
              (grid self) (sr, sc) g Hroot Hgrid eq_refl)
    as (st0 & Hinit & Hwf0 & Hinv0 & Hgr0 & Hst0 & Hcount0).
  simpl in Hinit.
  assert (0 ≤ rows self ∧ 0 ≤ cols self) as [HR0 HC0]
    by (unfold in_bounds in Hroot; simpl in Hroot; lia).
  pose proof (length_all_cells (rows self) (cols self) HR0 HC0) as Hlen.
  assert (1 ≤ rows self * cols self)
    by (unfold in_bounds in Hroot; simpl in Hroot; nia).
  assert (Hleft : Z.of_nat (iterations_left (rows self) (cols self) st0)
                  = 2 * (rows self * cols self) - 1).
  { unfold iterations_left. rewrite Hst0, Hcount0. cbn [length]. lia. }
  pose proof (carve_loop_exact fmul self (rows self) (cols self) eq_refl eq_refl
                (grid self) (sr, sc) Hroot fuel st0 Hwf0 Hinv0) as Hexact.
  unfold _carve_passage. rewrite Hinit, bind_Ok. split; intros Hfuel.
  - rewrite decide_True in Hexact by lia. destruct Hexact as [st ->].
    rewrite bind_Ok. by eexists _, _.
  - rewrite decide_False in Hexact by lia. by rewrite Hexact.
Qed.

End CarveIterationsWhole.

(** * The later properties at concrete inputs *)

Lemma carved_2x2_boundary : boundary_closed 2 2 (grid carved_2x2).
Proof.
  intros [r c] d [Hr Hc] Hout. simpl in Hr, Hc.
  assert (r = 0 ∨ r = 1) as [-> | ->] by lia;
    (assert (c = 0 ∨ c = 1) as [-> | ->] by lia);
    destruct d; try reflexivity; exfalso; apply Hout; unfold in_bounds, move; simpl; lia.
Defined.





(** A fresh 2 x 2 generator of complexity 0. *)
Definition straight_2x2 : MazeGenerator :=
  mkMaze 2 2 20 0 (3 # 4) (grid fresh_2x2) None None.

Lemma carve_passage_complexity_zero_witness :
  wf_matrix 2 2 (grid straight_2x2) ∧ in_bounds 2 2 (0, 0) ∧
  (complexity straight_2x2 <= 0)%Q ∧ 2 * (2 * 2) ≤ Z.of_nat 8 ∧
  ∃ self' g1' g2',
    _carve_passage Qmult 8 straight_2x2 0 0 (42 : Z) = Ok (self', g1') ∧
    _carve_passage Qmult 8 straight_2x2 0 0 (7 : Z) = Ok (self', g2').
Proof.
  assert (Hwf : wf_matrix 2 2 (grid straight_2x2))
    by (split; [reflexivity | repeat constructor]).
  assert (Hb : in_bounds 2 2 (0, 0)) by (unfold in_bounds; simpl; lia).
  assert (Hcx : (complexity straight_2x2 <= 0)%Q) by (unfold Qle; simpl; lia).
  assert (Hf : 2 * (2 * 2) ≤ Z.of_nat 8) by (simpl; lia).
  split; [exact Hwf|]. split; [exact Hb|]. split; [exact Hcx|]. split; [exact Hf|].
  exact (carve_passage_complexity_zero Qmult straight_2x2 0 0 8 (42 : Z) (7 : Z)
           Hwf Hb Hcx Hf).
Defined.

Lemma bfs_any_grid_witness :
  wf_matrix 2 2 (grid carved_2x2) ∧ boundary_closed 2 2 (grid carved_2x2) ∧
  in_bounds 2 2 (0, 0) ∧ 2 * 2 + 1 ≤ Z.of_nat 5 ∧
  ∃ far dist parent m,
    bfs 5 carved_2x2 (0, 0) = Ok (far, dist, parent) ∧
    in_bounds 2 2 far ∧
    is_dist (linked 2 2 (grid carved_2x2)) (0, 0) far m ∧
    ∀ x, in_bounds 2 2 x →
      (getitem2 dist x.1 x.2 = Ok (-1) ∧
       ∀ n, ¬ walk (linked 2 2 (grid carved_2x2)) (0, 0) x n) ∨
      (∃ n, getitem2 dist x.1 x.2 = Ok (Z.of_nat n) ∧
            is_dist (linked 2 2 (grid carved_2x2)) (0, 0) x n ∧ (n ≤ m)%nat).
Proof.
  assert (Hs : in_bounds 2 2 (0, 0)) by (unfold in_bounds; simpl; lia).
  assert (Hf : 2 * 2 + 1 ≤ Z.of_nat 5) by (simpl; lia).
  split; [exact carved_2x2_wf|]. split; [exact carved_2x2_boundary|].
  split; [exact Hs|]. split; [exact Hf|].
  exact (bfs_any_grid carved_2x2 (0, 0) 5 carved_2x2_wf carved_2x2_boundary Hs Hf).
Defined.


Lemma generate_again_witness :
  0 < 2 ∧ wf_matrix 2 2 (grid carved_2x2) ∧ boundary_closed 2 2 (grid carved_2x2) ∧
  2 * (2 * 2) ≤ Z.of_nat 8 ∧
  ∃ self' g' a b,
    generate Qmult 8 carved_2x2 (42 : Z) = Ok (self', g') ∧
    start self' = Some a ∧ end_ self' = Some b ∧
    rows self' = 2 ∧ cols self' = 2 ∧
    wf_matrix 2 2 (grid self') ∧
    boundary_closed 2 2 (grid self') ∧
    connected (linked 2 2 (grid self')) (in_bounds 2 2) ∧
    ∀ x d, in_bounds 2 2 x →
      wallb (grid carved_2x2) x d = false → wallb (grid self') x d = false.
Proof.
  assert (H2 : 0 < 2) by lia.
  assert (Hf : 2 * (2 * 2) ≤ Z.of_nat 8) by (simpl; lia).
  split; [exact H2|]. split; [exact carved_2x2_wf|].
  split; [exact carved_2x2_boundary|]. split; [exact Hf|].
  exact (generate_again Qmult carved_2x2 (42 : Z) 8 H2 H2 carved_2x2_wf
           carved_2x2_boundary Hf).
Defined.

Lemma carve_passage_iterations_witness :
  wf_matrix 2 2 (grid carved_2x2) ∧ in_bounds 2 2 (0, 0) ∧
  (∃ self' g', _carve_passage Qmult 7 carved_2x2 0 0 (42 : Z) = Ok (self', g')) ∧
  _carve_passage Qmult 6 carved_2x2 0 0 (42 : Z) = OutOfFuel.
Proof.
  assert (Hb : in_bounds 2 2 (0, 0)) by (unfold in_bounds; simpl; lia).
  split; [exact carved_2x2_wf|]. split; [exact Hb|]. split.
  - apply (carve_passage_iterations Qmult carved_2x2 0 0 (42 : Z) 7 carved_2x2_wf Hb).
    simpl. lia.
  - apply (carve_passage_iterations Qmult carved_2x2 0 0 (42 : Z) 6 carved_2x2_wf Hb).
    simpl. lia.
Defined.

(** * A start cell given by negative indices *)


Section NegativeStart.
Context {G : Type} `{RandomSource G}.
Variable fmul : Q → Q → Q.



End NegativeStart.

Section KochZeroTotal.
Variable fmul : Q → Q → Q.
Variable fdiv : Q → Q → Q.
Variable hsv_to_rgb : Q → Q → Q → Q * Q * Q.



End KochZeroTotal.

Lemma bfs_parent_tree_witness :
  wf_matrix 2 2 (grid carved_2x2) ∧ boundary_closed 2 2 (grid carved_2x2) ∧
  in_bounds 2 2 (0, 0) ∧ 2 * 2 + 1 ≤ Z.of_nat 5 ∧
  ∃ far dist parent,
    bfs 5 carved_2x2 (0, 0) = Ok (far, dist, parent) ∧
    parent !! (0, 0) = None ∧
    (∀ y, in_bounds 2 2 y → y ≠ (0, 0) →
       is_Some (parent !! y) ↔ ∃ n, walk (linked 2 2 (grid carved_2x2)) (0, 0) y n) ∧
    ∀ y p, parent !! y = Some p →
      linked 2 2 (grid carved_2x2) p y ∧
      ∃ n, is_dist (linked 2 2 (grid carved_2x2)) (0, 0) p n ∧
           is_dist (linked 2 2 (grid carved_2x2)) (0, 0) y (Datatypes.S n).
Proof.
  assert (Hs : in_bounds 2 2 (0, 0)) by (unfold in_bounds; simpl; lia).
  assert (Hf : 2 * 2 + 1 ≤ Z.of_nat 5) by (simpl; lia).
  split; [exact carved_2x2_wf|]. split; [exact carved_2x2_boundary|].
  split; [exact Hs|]. split; [exact Hf|].
  exact (bfs_parent_tree carved_2x2 (0, 0) 5 carved_2x2_wf carved_2x2_boundary Hs Hf).
Defined.



(** * The length of the solution *)

Lemma walk_manhattan (R C : Z) (gr : Grid) (x y : Z * Z) (n : nat) :
  walk (linked R C gr) x y n →
  Z.abs (x.1 - y.1) + Z.abs (x.2 - y.2) ≤ Z.of_nat n.
Proof.
  induction 1 as [x | x y z n Hxy Hw IH]; [lia|].
  destruct Hxy as (_ & _ & d & -> & _).
  destruct x as [r c], z as [r' c'], d; unfold move in IH; simpl in *; lia.
Qed.

Section SolutionLength.
Context {G : Type} `{RandomSource G}.
Variable fmul : Q → Q → Q.

(** X27. After [generate] on a freshly constructed generator with a
    difficulty of 0.1 or more, the shortest (and only) way from [start] to
    [end] through open walls has at least [rows + cols - 2] steps: the
    distance of two opposite corners of the grid bounds the solution from
    below, for the opposite corners themselves and for the ends of the
    diameter. *)
Theorem generate_solution_length (R C cs : Z) (cx df : Q) (self : MazeGenerator)
    (g : G) (fuel : nat) :
  __init__ R C cs cx df = Ok self →
  (float_0_1 <= df)%Q →
  2 * (R * C) ≤ Z.of_nat fuel →
  ∃ self' g' a b m,
    generate fmul fuel self g = Ok (self', g') ∧
    start self' = Some a ∧ end_ self' = Some b ∧
    is_dist (linked R C (grid self')) a b m ∧
    R + C - 2 ≤ Z.of_nat m.
Proof.
  intros Hinit Hdf Hfuel.
  pose proof (init_valid_grid R C cs cx df self Hinit) as Hvalid.
  apply init_ok in Hinit as (HR2 & HC2 & _ & _ & _ & _ & Hself).
  assert (rows self = R ∧ cols self = C ∧ difficulty self = df) as (HR & HC & Hdfs)
    by (by rewrite Hself).
  destruct (generate_spec fmul self g fuel Hvalid) as
    (sr & sc & g1 & g2 & self1 & g3 & T & _ & _ & _ & _ & HR1 & HC1 & _ & Hwt &
     Hspan & Hgen); [rewrite HR, HC; lia|].
  rewrite HR, HC, Hdfs in *.
  destruct (longest_path_endpoints_tree R C self1 (sr, sc) T HR1 HC1 Hwt Hspan fuel)
    as (a & b & Hlpe & Ha & Hb & Hmax); [lia | lia | nia |].
  rewrite Hlpe, bind_Ok in Hgen.
  assert (Ho : in_bounds R C (0, 0)) by (unfold in_bounds; simpl; lia).
  assert (Hc : in_bounds R C (R - 1, C - 1)) by (unfold in_bounds; simpl; lia).
  pose proof (wall_tree_is_dist R C (grid self1) (sr, sc) T Hwt Hspan
                (0, 0) (R - 1, C - 1) Ho Hc) as Hcorner.
  pose proof (walk_manhattan R C _ _ _ _ (proj1 Hcorner)) as Hbound.
  simpl in Hbound.
  destruct (Qlt_le_dec df float_0_1) as [Hlt | _];
    [exfalso; by apply (Qlt_not_le _ _ Hlt)|].
  destruct (Qlt_le_dec df float_0_5).
  - eexists _, _, _, _, _. split; [exact Hgen|]. simpl.
    split; [done|]. split; [done|]. split; [exact Hcorner|]. lia.
  - eexists _, _, a, b, _. split; [exact Hgen|]. simpl.
    split; [done|]. split; [done|].
    split; [exact (wall_tree_is_dist R C (grid self1) (sr, sc) T Hwt Hspan a b Ha Hb)|].
    pose proof (Hmax (0, 0) (R - 1, C - 1) Ho Hc). lia.
Qed.

End SolutionLength.

Lemma generate_solution_length_witness :
  __init__ 2 2 20 (3 # 4) (3 # 4) = Ok fresh_2x2 ∧ (float_0_1 <= 3 # 4)%Q ∧
  2 * (2 * 2) ≤ Z.of_nat 8 ∧
  ∃ self' g' a b m,
    generate Qmult 8 fresh_2x2 (42 : Z) = Ok (self', g') ∧
    start self' = Some a ∧ end_ self' = Some b ∧
    is_dist (linked 2 2 (grid self')) a b m ∧
    2 + 2 - 2 ≤ Z.of_nat m.
Proof.
  assert (Hdf : (float_0_1 <= 3 # 4)%Q) by (unfold Qle, float_0_1; simpl; lia).
  assert (Hf : 2 * (2 * 2) ≤ Z.of_nat 8) by (simpl; lia).
  split; [exact fresh_2x2_init|]. split; [exact Hdf|]. split; [exact Hf|].
  exact (generate_solution_length Qmult 2 2 20 (3 # 4) (3 # 4) fresh_2x2 (42 : Z) 8
           fresh_2x2_init Hdf Hf).
Defined.
